(** * crypto_compat: the RSA compatibility layer of lib/crypto/crypto_compat.c

    The C unit wraps four operations on an OpenSSL [RSA] object
    (size validation, import and export of the eight [BIGNUM] components,
    key generation) and selects, by the preprocessor, between the
    struct-field generation of the library and the accessor generation.

    The embedding keeps the shape of the C code: a memory with the live
    [BIGNUM] and [RSA] objects, an error monad for assertion failures and
    undefined behaviour, the library primitives the unit calls, and the
    four functions written statement by statement, with the value of
    [OPENSSL_VERSION_NUMBER] as an argument in place of the [#if]s. *)

From stdpp Require Import gmap list strings.
From Stdlib Require Import ZArith Lia.

Open Scope Z_scope.

(** ** Pointers and objects *)

(** Addresses are positive numbers; a C pointer is an optional address,
    [None] being [NULL].  [BIGNUM *], [RSA *] and [const BIGNUM **] live in
    three separate address spaces. *)
Abbreviation ptr := (option positive).
Abbreviation NULL := (@None positive).

Definition is_null (a : ptr) : bool :=
  match a with None => true | Some _ => false end.

Definition non_null (a : ptr) : bool := negb (is_null a).

(** The eight [BIGNUM *] members of [struct rsa_st] that the unit touches. *)
Record RSA : Type := mkRSA {
  rsa_n : ptr;
  rsa_e : ptr;
  rsa_d : ptr;
  rsa_p : ptr;
  rsa_q : ptr;
  rsa_dmp1 : ptr;
  rsa_dmq1 : ptr;
  rsa_iqmp : ptr
}.

Definition RSA_empty : RSA := mkRSA NULL NULL NULL NULL NULL NULL NULL NULL.

(** Calls by which the unit hands storage back to the library or reports a
    diagnostic, in program order. *)
Inductive call : Type :=
| Call_BN_free (a : ptr)
| Call_BN_clear_free (a : ptr)
| Call_RSA_free (k : ptr)
| Call_warn0 (msg : string).

(** The memory the unit runs in. *)
Record memory : Type := mkMemory {
  bignums : gmap positive Z;          (* live BIGNUM objects and their values *)
  keys : gmap positive RSA;           (* live RSA objects *)
  cells : gmap positive (option positive); (* caller variables of type const BIGNUM * *)
  errq : list Z;                      (* the library's error queue, oldest first *)
  residue : list Z;                   (* values left readable in released storage *)
  calls : list call                   (* release and warning calls made so far *)
}.

Definition with_bignums (f : gmap positive Z → gmap positive Z) (m : memory) : memory :=
  mkMemory (f (bignums m)) (keys m) (cells m) (errq m) (residue m) (calls m).
Definition with_keys (f : gmap positive RSA → gmap positive RSA) (m : memory) : memory :=
  mkMemory (bignums m) (f (keys m)) (cells m) (errq m) (residue m) (calls m).
Definition with_cells
    (f : gmap positive (option positive) → gmap positive (option positive))
    (m : memory) : memory :=
  mkMemory (bignums m) (keys m) (f (cells m)) (errq m) (residue m) (calls m).
Definition with_errq (f : list Z → list Z) (m : memory) : memory :=
  mkMemory (bignums m) (keys m) (cells m) (f (errq m)) (residue m) (calls m).
Definition with_residue (f : list Z → list Z) (m : memory) : memory :=
  mkMemory (bignums m) (keys m) (cells m) (errq m) (f (residue m)) (calls m).
Definition with_calls (f : list call → list call) (m : memory) : memory :=
  mkMemory (bignums m) (keys m) (cells m) (errq m) (residue m) (f (calls m)).

(** ** The monad of C statements

    A statement maps a memory to a result and a memory, or to [None] when
    execution does not continue: a failed [assert], a dereference of [NULL]
    or of a dead object, a release of a dead object. *)
Definition M (A : Type) : Type := memory → option (A * memory).

Definition ret {A} (a : A) : M A := λ m, Some (a, m).

Definition bind {A B} (c : M A) (k : A → M B) : M B :=
  λ m, match c m with
       | Some (a, m') => k a m'
       | None => None
       end.

Definition stop {A} : M A := λ _, None.

Declare Scope stmt_scope.
Delimit Scope stmt_scope with stmt.
Notation "x <- c ;; k" := (bind c (λ x, k))
  (at level 100, c at next level, right associativity) : stmt_scope.
Notation "c ;; k" := (bind c (λ _, k))
  (at level 100, right associativity) : stmt_scope.
Open Scope stmt_scope.

Definition assert (b : bool) : M unit := if b then ret tt else stop.

Definition modify (f : memory → memory) : M unit := λ m, Some (tt, f m).

Definition log (c : call) : M unit := modify (with_calls (λ l, l ++ [c])).

(** C's [int] result of a comparison. *)
Definition of_bool (b : bool) : Z := if b then 1 else 0.

(** ** The library primitives

    These are OpenSSL's, not the unit's.  Each follows the library's
    documented behaviour; what the library decides on its own (whether an
    allocation or a binding succeeds, which key the generator draws, which
    error codes a failing allocation or generation queues, how a code is
    rendered) is read from an
    [environment]. *)

Inductive site : Type :=
| At_BN_new | At_BN_set_word | At_RSA_new | At_generate
| At_set0_key | At_set0_factors | At_set0_crt_params.

(** The values of the eight components, component by component. *)
Record components : Type := mkComponents {
  c_n : option Z; c_e : option Z; c_d : option Z; c_p : option Z;
  c_q : option Z; c_dmp1 : option Z; c_dmq1 : option Z; c_iqmp : option Z
}.

Record environment : Type := mkEnvironment {
  succeeds : site → bool;              (* does the library call at this site succeed *)
  fault_codes : site → list Z;         (* the codes it queues when it does not *)
  keygen : Z → Z → bool * components;  (* bits, e ↦ success flag and the components written *)
  ERR_error_string : Z → string        (* rendering of an error code *)
}.

(** [*a] for a [BIGNUM *]. *)
Definition load_bn (a : ptr) : M Z := λ m,
  match a with
  | Some l => match bignums m !! l with
              | Some v => Some (v, m)
              | None => None
              end
  | None => None
  end.

(** [*k] for an [RSA *]. *)
Definition load_key (k : ptr) : M RSA := λ m,
  match k with
  | Some l => match keys m !! l with
              | Some r => Some (r, m)
              | None => None
              end
  | None => None
  end.

Definition store_key (k : ptr) (r : RSA) : M unit := λ m,
  match k with
  | Some l => match keys m !! l with
              | Some _ => Some (tt, with_keys <[l := r]> m)
              | None => None
              end
  | None => None
  end.

(** [BN_num_bits]: the number of significant bits of the magnitude. *)
Definition num_bits (v : Z) : Z :=
  if v =? 0 then 0 else Z.log2 (Z.abs v) + 1.

(** [BN_num_bytes(a)] is the macro [(BN_num_bits(a)+7)/8]. *)
Definition num_bytes (v : Z) : Z := (num_bits v + 7) / 8.

Definition BN_num_bits (a : ptr) : M Z :=
  v <- load_bn a ;; ret (num_bits v).

(** [RSA_size(rsa)]: the size of the modulus in bytes, [BN_num_bytes(rsa->n)]. *)
Definition RSA_size (rsa : ptr) : M Z :=
  r <- load_key rsa ;;
  v <- load_bn (rsa_n r) ;;
  ret (num_bytes v).

(** [RSA_bits(rsa)]: [BN_num_bits(rsa->n)]. *)
Definition RSA_bits (rsa : ptr) : M Z :=
  r <- load_key rsa ;;
  BN_num_bits (rsa_n r).

(** ** crypto_compat_RSA_valid_size *)

Definition OPENSSL_1_1_0 : Z := 0x10100000.

Definition crypto_compat_RSA_valid_size (version : Z) (rsa : ptr) : M Z :=
  assert (non_null rsa) ;;
  if version <? OPENSSL_1_1_0 then
    r <- load_key rsa ;;
    assert (non_null (rsa_n r)) ;;
    size <- RSA_size rsa ;;
    if size =? 256 then
      bits <- BN_num_bits (rsa_n r) ;;
      ret (of_bool (bits =? 2048))
    else ret 0
  else
    size <- RSA_size rsa ;;
    if size =? 256 then
      bits <- RSA_bits rsa ;;
      ret (of_bool (bits =? 2048))
    else ret 0.

(** ** Release of a [BIGNUM]

    Storage goes back to the allocator; releasing a dead object is
    undefined, releasing [NULL] does nothing.  The plain release leaves the
    value readable in the released storage, the clearing release erases it
    first. *)
Definition bn_release (clear : bool) (a : ptr) : M unit := λ m,
  match a with
  | None => Some (tt, m)
  | Some l =>
      match bignums m !! l with
      | Some v =>
          Some (tt, with_residue (λ r, if clear then r else r ++ [v])
                      (with_bignums (delete l) m))
      | None => None
      end
  end.

Definition BN_free (a : ptr) : M unit :=
  log (Call_BN_free a) ;; bn_release false a.

Definition BN_clear_free (a : ptr) : M unit :=
  log (Call_BN_clear_free a) ;; bn_release true a.

(** A failing library call queues its error codes, as many as the library
    decides. *)
Definition raise_error (env : environment) (s : site) : M unit :=
  modify (with_errq (λ q, q ++ fault_codes env s)).

(** [ERR_get_error()]: the earliest queued code, removed from the queue;
    0 when the queue is empty. *)
Definition ERR_get_error : M Z := λ m,
  match errq m with
  | [] => Some (0, m)
  | c :: q => Some (c, with_errq (λ _, q) m)
  end.

Definition warn0 (msg : string) : M unit := log (Call_warn0 msg).

(** ** The setters of the accessor generation

    [RSA_set0_key], [RSA_set0_factors] and [RSA_set0_crt_params] either
    reject, returning 0 with nothing changed and nothing queued, or release
    the members they replace and store the new pointers; a [NULL] argument
    leaves its member as it is.  A [BIGNUM] is its value here: the
    [BN_FLG_CONSTTIME] mark that the setters of 1.1.1 and later put on the
    private components they store is not represented. *)
Definition replace_member (clear : bool) (old new : ptr) : M ptr :=
  match new with
  | None => ret old
  | Some _ => bn_release clear old ;; ret new
  end.

Definition RSA_set0_key (env : environment) (key n e d : ptr) : M Z :=
  r <- load_key key ;;
  if negb (succeeds env At_set0_key)
     || (is_null (rsa_n r) && is_null n)
     || (is_null (rsa_e r) && is_null e)
  then ret 0
  else
    n' <- replace_member false (rsa_n r) n ;;
    e' <- replace_member false (rsa_e r) e ;;
    d' <- replace_member true (rsa_d r) d ;;
    store_key key (mkRSA n' e' d' (rsa_p r) (rsa_q r)
                     (rsa_dmp1 r) (rsa_dmq1 r) (rsa_iqmp r)) ;;
    ret 1.

Definition RSA_set0_factors (env : environment) (key p q : ptr) : M Z :=
  r <- load_key key ;;
  if negb (succeeds env At_set0_factors)
     || (is_null (rsa_p r) && is_null p)
     || (is_null (rsa_q r) && is_null q)
  then ret 0
  else
    p' <- replace_member true (rsa_p r) p ;;
    q' <- replace_member true (rsa_q r) q ;;
    store_key key (mkRSA (rsa_n r) (rsa_e r) (rsa_d r) p' q'
                     (rsa_dmp1 r) (rsa_dmq1 r) (rsa_iqmp r)) ;;
    ret 1.

Definition RSA_set0_crt_params (env : environment)
    (key dmp1 dmq1 iqmp : ptr) : M Z :=
  r <- load_key key ;;
  if negb (succeeds env At_set0_crt_params)
     || (is_null (rsa_dmp1 r) && is_null dmp1)
     || (is_null (rsa_dmq1 r) && is_null dmq1)
     || (is_null (rsa_iqmp r) && is_null iqmp)
  then ret 0
  else
    dmp1' <- replace_member true (rsa_dmp1 r) dmp1 ;;
    dmq1' <- replace_member true (rsa_dmq1 r) dmq1 ;;
    iqmp' <- replace_member true (rsa_iqmp r) iqmp ;;
    store_key key (mkRSA (rsa_n r) (rsa_e r) (rsa_d r) (rsa_p r) (rsa_q r)
                     dmp1' dmq1' iqmp') ;;
    ret 1.

(** ** crypto_compat_RSA_import *)

(** [key->f = v] of the struct-field generation. *)
Definition set_member (f : RSA → RSA) (key : ptr) : M unit :=
  r <- load_key key ;; store_key key (f r).

Definition put_n (v : ptr) (r : RSA) : RSA :=
  mkRSA v (rsa_e r) (rsa_d r) (rsa_p r) (rsa_q r) (rsa_dmp1 r) (rsa_dmq1 r) (rsa_iqmp r).
Definition put_e (v : ptr) (r : RSA) : RSA :=
  mkRSA (rsa_n r) v (rsa_d r) (rsa_p r) (rsa_q r) (rsa_dmp1 r) (rsa_dmq1 r) (rsa_iqmp r).
Definition put_d (v : ptr) (r : RSA) : RSA :=
  mkRSA (rsa_n r) (rsa_e r) v (rsa_p r) (rsa_q r) (rsa_dmp1 r) (rsa_dmq1 r) (rsa_iqmp r).
Definition put_p (v : ptr) (r : RSA) : RSA :=
  mkRSA (rsa_n r) (rsa_e r) (rsa_d r) v (rsa_q r) (rsa_dmp1 r) (rsa_dmq1 r) (rsa_iqmp r).
Definition put_q (v : ptr) (r : RSA) : RSA :=
  mkRSA (rsa_n r) (rsa_e r) (rsa_d r) (rsa_p r) v (rsa_dmp1 r) (rsa_dmq1 r) (rsa_iqmp r).
Definition put_dmp1 (v : ptr) (r : RSA) : RSA :=
  mkRSA (rsa_n r) (rsa_e r) (rsa_d r) (rsa_p r) (rsa_q r) v (rsa_dmq1 r) (rsa_iqmp r).
Definition put_dmq1 (v : ptr) (r : RSA) : RSA :=
  mkRSA (rsa_n r) (rsa_e r) (rsa_d r) (rsa_p r) (rsa_q r) (rsa_dmp1 r) v (rsa_iqmp r).
Definition put_iqmp (v : ptr) (r : RSA) : RSA :=
  mkRSA (rsa_n r) (rsa_e r) (rsa_d r) (rsa_p r) (rsa_q r) (rsa_dmp1 r) (rsa_dmq1 r) v.

(** The three labels of the failure path, each falling through to the next. *)
Definition import_err1 (dmp1 dmq1 iqmp : ptr) : M Z :=
  BN_clear_free dmp1 ;;
  BN_clear_free dmq1 ;;
  BN_clear_free iqmp ;;
  ret (-1).

Definition import_err2 (p q dmp1 dmq1 iqmp : ptr) : M Z :=
  BN_clear_free p ;;
  BN_clear_free q ;;
  import_err1 dmp1 dmq1 iqmp.

Definition import_err3 (n e d p q dmp1 dmq1 iqmp : ptr) : M Z :=
  BN_free n ;;
  BN_free e ;;
  BN_clear_free d ;;
  import_err2 p q dmp1 dmq1 iqmp.

(** The sanity checks shared by import and export. *)
Definition check_arguments (key n e d p q dmp1 dmq1 iqmp : ptr) : M unit :=
  assert (non_null key) ;;
  assert (non_null n && non_null e) ;;
  if is_null d then
    assert (is_null p && is_null q && is_null dmp1
            && is_null dmq1 && is_null iqmp)
  else
    assert (non_null p && non_null q && non_null dmp1
            && non_null dmq1 && non_null iqmp).

Definition crypto_compat_RSA_import (version : Z) (env : environment)
    (key n e d p q dmp1 dmq1 iqmp : ptr) : M Z :=
  check_arguments key n e d p q dmp1 dmq1 iqmp ;;
  if version <? OPENSSL_1_1_0 then
    set_member (put_n n) key ;;
    set_member (put_e e) key ;;
    (if non_null d then
       set_member (put_d d) key ;;
       set_member (put_p p) key ;;
       set_member (put_q q) key ;;
       set_member (put_dmp1 dmp1) key ;;
       set_member (put_dmq1 dmq1) key ;;
       set_member (put_iqmp iqmp) key
     else ret tt) ;;
    ret 0
  else
    if is_null d then
      rc <- RSA_set0_key env key n e NULL ;;
      if negb (rc =? 1) then import_err3 n e d p q dmp1 dmq1 iqmp
      else ret 0
    else
      rc <- RSA_set0_key env key n e d ;;
      if negb (rc =? 1) then import_err3 n e d p q dmp1 dmq1 iqmp
      else
        rc <- RSA_set0_factors env key p q ;;
        if negb (rc =? 1) then import_err2 p q dmp1 dmq1 iqmp
        else
          rc <- RSA_set0_crt_params env key dmp1 dmq1 iqmp ;;
          if negb (rc =? 1) then import_err1 dmp1 dmq1 iqmp
          else ret 0.

(** ** crypto_compat_RSA_export *)

(** [*slot = v] for a [const BIGNUM **]. *)
Definition write_cell (slot : ptr) (v : ptr) : M unit := λ m,
  match slot with
  | Some c => Some (tt, with_cells <[c := v]> m)
  | None => None
  end.

(** The getters of the accessor generation write through the slots that are
    not [NULL]. *)
Definition write_if_supplied (slot : ptr) (v : ptr) : M unit :=
  if non_null slot then write_cell slot v else ret tt.

Definition RSA_get0_key (key n e d : ptr) : M unit :=
  r <- load_key key ;;
  write_if_supplied n (rsa_n r) ;;
  write_if_supplied e (rsa_e r) ;;
  write_if_supplied d (rsa_d r).

Definition RSA_get0_factors (key p q : ptr) : M unit :=
  r <- load_key key ;;
  write_if_supplied p (rsa_p r) ;;
  write_if_supplied q (rsa_q r).

Definition RSA_get0_crt_params (key dmp1 dmq1 iqmp : ptr) : M unit :=
  r <- load_key key ;;
  write_if_supplied dmp1 (rsa_dmp1 r) ;;
  write_if_supplied dmq1 (rsa_dmq1 r) ;;
  write_if_supplied iqmp (rsa_iqmp r).

(** [*slot = key->f] of the struct-field generation. *)
Definition get_member (f : RSA → ptr) (key slot : ptr) : M unit :=
  r <- load_key key ;; write_cell slot (f r).

Definition crypto_compat_RSA_export (version : Z)
    (key n e d p q dmp1 dmq1 iqmp : ptr) : M Z :=
  check_arguments key n e d p q dmp1 dmq1 iqmp ;;
  if version <? OPENSSL_1_1_0 then
    get_member rsa_n key n ;;
    get_member rsa_e key e ;;
    (if non_null d then
       get_member rsa_d key d ;;
       get_member rsa_p key p ;;
       get_member rsa_q key q ;;
       get_member rsa_dmp1 key dmp1 ;;
       get_member rsa_dmq1 key dmq1 ;;
       get_member rsa_iqmp key iqmp
     else ret tt) ;;
    ret 0
  else
    (if is_null d then
       RSA_get0_key key n e NULL
     else
       RSA_get0_key key n e d ;;
       RSA_get0_factors key p q ;;
       RSA_get0_crt_params key dmp1 dmq1 iqmp) ;;
    ret 0.

(** ** Allocation, generation and release of keys in the library *)

Definition alloc_bn (v : Z) : M ptr := λ m,
  let l := fresh (dom (bignums m)) in
  Some (Some l, with_bignums <[l := v]> m).

Definition store_bn (a : ptr) (v : Z) : M unit := λ m,
  match a with
  | Some l => match bignums m !! l with
              | Some _ => Some (tt, with_bignums <[l := v]> m)
              | None => None
              end
  | None => None
  end.

(** [BN_new()]: a fresh zero, or [NULL] with an error queued. *)
Definition BN_new (env : environment) : M ptr :=
  if succeeds env At_BN_new then alloc_bn 0
  else raise_error env At_BN_new ;; ret NULL.

(** [BN_set_word(a, w)]: the word goes into storage the call allocates for
    it.  When that allocation fails the call queues its error and returns 0,
    and [a] keeps the value it had; otherwise [a] holds [w] and the call
    returns 1. *)
Definition BN_set_word (env : environment) (a : ptr) (w : Z) : M Z :=
  if succeeds env At_BN_set_word then store_bn a w ;; ret 1
  else load_bn a ;; raise_error env At_BN_set_word ;; ret 0.

(** [RSA_new()]: a fresh object with every member [NULL], or [NULL] with an
    error queued. *)
Definition RSA_new (env : environment) : M ptr :=
  if succeeds env At_RSA_new then
    λ m, let l := fresh (dom (keys m)) in
         Some (Some l, with_keys <[l := RSA_empty]> m)
  else raise_error env At_RSA_new ;; ret NULL.

(** The generator writes a component into the member's [BIGNUM] when there is
    one and into a fresh one otherwise. *)
Definition fill_member (old : ptr) (v : option Z) : M ptr :=
  match v with
  | None => ret old
  | Some z =>
      match old with
      | None => alloc_bn z
      | Some _ => store_bn old z ;; ret old
      end
  end.

Definition fill_key (key : ptr) (c : components) : M unit :=
  r <- load_key key ;;
  n <- fill_member (rsa_n r) (c_n c) ;;
  e <- fill_member (rsa_e r) (c_e c) ;;
  d <- fill_member (rsa_d r) (c_d c) ;;
  p <- fill_member (rsa_p r) (c_p c) ;;
  q <- fill_member (rsa_q r) (c_q c) ;;
  dmp1 <- fill_member (rsa_dmp1 r) (c_dmp1 c) ;;
  dmq1 <- fill_member (rsa_dmq1 r) (c_dmq1 c) ;;
  iqmp <- fill_member (rsa_iqmp r) (c_iqmp c) ;;
  store_key key (mkRSA n e d p q dmp1 dmq1 iqmp).

(** [RSA_generate_key_ex(key, bits, e, NULL)]: the exponent is read, not
    absorbed; the members written before a failure stay in the key.  The
    generator's own flag decides success ([succeeds] is not consulted for
    [At_generate]). *)
Definition RSA_generate_key_ex (env : environment) (key : ptr) (bits : Z)
    (e : ptr) : M Z :=
  ev <- load_bn e ;;
  let '(ok, c) := keygen env bits ev in
  fill_key key c ;;
  if ok then ret 1 else raise_error env At_generate ;; ret 0.

(** What [RSA_free] does to a key that is not [NULL]. *)
Definition rsa_release (key : ptr) : M unit :=
  match key with
  | None => ret tt
  | Some l =>
      r <- load_key key ;;
      bn_release false (rsa_n r) ;;
      bn_release false (rsa_e r) ;;
      bn_release true (rsa_d r) ;;
      bn_release true (rsa_p r) ;;
      bn_release true (rsa_q r) ;;
      bn_release true (rsa_dmp1 r) ;;
      bn_release true (rsa_dmq1 r) ;;
      bn_release true (rsa_iqmp r) ;;
      modify (with_keys (delete l))
  end.

Definition RSA_free (key : ptr) : M unit :=
  log (Call_RSA_free key) ;; rsa_release key.

(** [RSA_generate_key(bits, e, NULL, NULL)] of the oldest generation:
    allocation, generation and the release after a failure all happen inside
    the library. *)
Definition RSA_generate_key (env : environment) (bits e : Z) : M ptr :=
  key <- RSA_new env ;;
  if is_null key then ret NULL
  else
    let '(ok, c) := keygen env bits e in
    fill_key key c ;;
    if ok then ret key
    else raise_error env At_generate ;; rsa_release key ;; ret NULL.

(** ** crypto_compat_RSA_generate_key *)

Definition OPENSSL_0_9_8 : Z := 0x00908000.

(** [warn0("%s", ERR_error_string(ERR_get_error(), NULL))]. *)
Definition warn_library_error (env : environment) : M unit :=
  code <- ERR_get_error ;;
  warn0 (ERR_error_string env code).

Definition crypto_compat_RSA_generate_key (version : Z) (env : environment)
    : M ptr :=
  if version <? OPENSSL_0_9_8 then
    key <- RSA_generate_key env 2048 65537 ;;
    if is_null key then
      warn_library_error env ;;
      ret NULL
    else ret key
  else
    e <- BN_new env ;;
    if is_null e then
      warn_library_error env ;;
      ret NULL
    else
      BN_set_word env e 65537 ;;
      key <- RSA_new env ;;
      if is_null key then
        warn_library_error env ;;
        BN_free e ;;
        ret NULL
      else
        rc <- RSA_generate_key_ex env key 2048 e ;;
        if negb (rc =? 1) then
          warn_library_error env ;;
          RSA_free key ;;
          BN_free e ;;
          ret NULL
        else
          BN_free e ;;
          ret key.

(** ** The build configuration

    LibreSSL announces itself as OpenSSL 2.0; the unit replaces the version
    number by 1.1.0 for LibreSSL 2.7.0 and later and by 1.0.1g before. *)
Definition effective_version (openssl : Z) (libressl : option Z) : Z :=
  match libressl with
  | None => openssl
  | Some v => if 0x2070000f <=? v then 0x1010000f else 0x1000107f
  end.

(** ** crypto_compat_free *)

(** A build: the number OpenSSL's header announces and, under LibreSSL,
    [LIBRESSL_VERSION_NUMBER]. *)
Record build : Type := mkBuild {
  announced : Z;
  libressl_number : option Z
}.

(** [OPENSSL_VERSION_NUMBER] after the LibreSSL block of the unit. *)
Definition OPENSSL_VERSION_NUMBER (b : build) : Z :=
  effective_version (announced b) (libressl_number b).

(** [NEED_EVP_CLEANUP] is defined in the LibreSSL 2.7.0+ branch only. *)
Definition NEED_EVP_CLEANUP (b : build) : bool :=
  match libressl_number b with
  | Some v => 0x2070000f <=? v
  | None => false
  end.

Definition OPENSSL_1_0_0 : Z := 0x10000000.

(** The cleanup entry points of the library the unit calls. *)
Inductive cleanup : Type :=
| ERR_remove_state (pid : Z)
| ERR_remove_thread_state (tid : ptr)
| ERR_free_strings
| EVP_cleanup
| CRYPTO_cleanup_all_ex_data.

(** The function takes no argument, reads no state and returns nothing: it is
    the sequence of library calls the build selects. *)
Definition crypto_compat_free (b : build) : list cleanup :=
  (if OPENSSL_VERSION_NUMBER b <? OPENSSL_1_0_0 then [ERR_remove_state 0]
   else if OPENSSL_VERSION_NUMBER b <? OPENSSL_1_1_0
        then [ERR_remove_thread_state NULL]
        else [])
  ++ [ERR_free_strings]
  ++ (if NEED_EVP_CLEANUP b then [EVP_cleanup] else [])
  ++ [CRYPTO_cleanup_all_ex_data].

(** * The vocabulary of the properties *)

(** ** Arguments accepted by the sanity checks *)

Definition grouped (d p q dmp1 dmq1 iqmp : ptr) : bool :=
  if is_null d then
    is_null p && is_null q && is_null dmp1 && is_null dmq1 && is_null iqmp
  else
    non_null p && non_null q && non_null dmp1 && non_null dmq1 && non_null iqmp.

Definition arguments_ok (key n e d p q dmp1 dmq1 iqmp : ptr) : bool :=
  non_null key && (non_null n && non_null e) && grouped d p q dmp1 dmq1 iqmp.

(** ** Writing members and slots *)

Definition set_key (k : positive) (r : RSA) (m : memory) : memory :=
  with_keys (λ _, <[k := r]> (keys m)) m.

(** The key after an import that succeeded, in either generation: a public
    import leaves the private members as they were. *)
Definition imported_key (r : RSA) (n e d p q dmp1 dmq1 iqmp : ptr) : RSA :=
  if non_null d then mkRSA n e d p q dmp1 dmq1 iqmp
  else mkRSA n e (rsa_d r) (rsa_p r) (rsa_q r)
         (rsa_dmp1 r) (rsa_dmq1 r) (rsa_iqmp r).

(** ** Export *)

(** The slot writes of an export, in program order: slot and value. *)
Definition export_writes (r : RSA) (n e d p q dmp1 dmq1 iqmp : ptr)
    : list (ptr * ptr) :=
  [(n, rsa_n r); (e, rsa_e r)]
  ++ (if non_null d then
        [(d, rsa_d r); (p, rsa_p r); (q, rsa_q r); (dmp1, rsa_dmp1 r);
         (dmq1, rsa_dmq1 r); (iqmp, rsa_iqmp r)]
      else []).

Definition write_all (ws : list (ptr * ptr))
    (cs : gmap positive (option positive)) : gmap positive (option positive) :=
  foldl (λ acc w, match fst w with
                  | Some c => <[c := snd w]> acc
                  | None => acc
                  end) cs ws.

(** The content of the variable a slot points to. *)
Definition cell_at (m : memory) (slot : ptr) : option ptr :=
  match slot with
  | Some c => cells m !! c
  | None => None
  end.

(** The value of the [BIGNUM] a pointer points to. *)
Definition value_at (m : memory) (a : ptr) : option Z :=
  match a with
  | Some l => bignums m !! l
  | None => None
  end.

(** ** Sequences of releases

    The failure path of the importer and the setters of the library both
    release a fixed sequence of pointers.  [release_seq] runs such a
    sequence, with the calls logged (the unit's [BN_free] and
    [BN_clear_free]) or not (inside the library); [after_releases] is the
    memory it leaves. *)

Definition release_one (logged : bool) (x : bool * ptr) : M unit :=
  if logged then (if fst x then BN_clear_free (snd x) else BN_free (snd x))
  else bn_release (fst x) (snd x).

Fixpoint release_seq (logged : bool) (ps : list (bool * ptr)) : M unit :=
  match ps with
  | [] => ret tt
  | x :: ps' => release_one logged x ;; release_seq logged ps'
  end.

Definition forget (h : gmap positive Z) (a : ptr) : gmap positive Z :=
  match a with
  | Some l => delete l h
  | None => h
  end.

Definition forget_all (ps : list ptr) (h : gmap positive Z) : gmap positive Z :=
  foldl forget h ps.

Definition call_of (x : bool * ptr) : call :=
  if fst x then Call_BN_clear_free (snd x) else Call_BN_free (snd x).

Definition spill (m : memory) (x : bool * ptr) : list Z :=
  if fst x then []
  else match value_at m (snd x) with
       | Some v => [v]
       | None => []
       end.

Definition after_releases (logged : bool) (ps : list (bool * ptr))
    (m : memory) : memory :=
  mkMemory (forget_all (map snd ps) (bignums m)) (keys m) (cells m) (errq m)
    (residue m ++ concat (map (spill m) ps))
    (calls m ++ if logged then map call_of ps else []).

(** A pointer that may be released: [NULL] or live. *)
Definition releasable (m : memory) (a : ptr) : Prop :=
  match a with
  | Some l => is_Some (bignums m !! l)
  | None => True
  end.

(** Pointers owned one by one: those that are not [NULL] are live and
    pairwise distinct. *)
Definition owned (m : memory) (ps : list ptr) : Prop :=
  NoDup (omap id ps) ∧ Forall (releasable m) ps.

(** ** What the setters replace *)

Definition replaced_by_key (r : RSA) (d : ptr) : list (bool * ptr) :=
  [(false, rsa_n r); (false, rsa_e r)]
  ++ (if non_null d then [(true, rsa_d r)] else []).

Definition key_after_set0_key (r : RSA) (n e d : ptr) : RSA :=
  mkRSA n e (if non_null d then d else rsa_d r)
    (rsa_p r) (rsa_q r) (rsa_dmp1 r) (rsa_dmq1 r) (rsa_iqmp r).

Definition replaced_by_factors (r : RSA) : list (bool * ptr) :=
  [(true, rsa_p r); (true, rsa_q r)].

Definition key_after_set0_factors (r : RSA) (p q : ptr) : RSA :=
  mkRSA (rsa_n r) (rsa_e r) (rsa_d r) p q
    (rsa_dmp1 r) (rsa_dmq1 r) (rsa_iqmp r).

Definition replaced_by_crt_params (r : RSA) : list (bool * ptr) :=
  [(true, rsa_dmp1 r); (true, rsa_dmq1 r); (true, rsa_iqmp r)].

Definition key_after_set0_crt_params (r : RSA) (dmp1 dmq1 iqmp : ptr) : RSA :=
  mkRSA (rsa_n r) (rsa_e r) (rsa_d r) (rsa_p r) (rsa_q r) dmp1 dmq1 iqmp.

(** The memory once the library call at [s] has failed and queued its
    error codes. *)
Definition rejected (env : environment) (s : site) (m : memory) : memory :=
  with_errq (λ q, q ++ fault_codes env s) m.

(** ** What the failure path releases *)

Definition released_at_err1 (dmp1 dmq1 iqmp : ptr) : list (bool * ptr) :=
  [(true, dmp1); (true, dmq1); (true, iqmp)].

Definition released_at_err2 (p q dmp1 dmq1 iqmp : ptr) : list (bool * ptr) :=
  [(true, p); (true, q)] ++ released_at_err1 dmp1 dmq1 iqmp.

Definition released_at_err3 (n e d p q dmp1 dmq1 iqmp : ptr)
    : list (bool * ptr) :=
  [(false, n); (false, e); (true, d)] ++ released_at_err2 p q dmp1 dmq1 iqmp.

(** ** The three transfers of an import *)

(** The three ownership transfers, in the order the importer makes them. *)
Inductive stage : Type := Stage_key | Stage_factors | Stage_crt_params.

(** The library accepts the transfers before [st] and rejects [st]. *)
Definition fails_at (env : environment) (st : stage) : bool :=
  match st with
  | Stage_key => negb (succeeds env At_set0_key)
  | Stage_factors =>
      succeeds env At_set0_key && negb (succeeds env At_set0_factors)
  | Stage_crt_params =>
      succeeds env At_set0_key && succeeds env At_set0_factors
      && negb (succeeds env At_set0_crt_params)
  end.

(** The components of the transfers from [st] on, with the release the
    failure path gives each ([true]: clearing). *)
Definition pending (st : stage) (n e d p q dmp1 dmq1 iqmp : ptr)
    : list (bool * ptr) :=
  match st with
  | Stage_key => released_at_err3 n e d p q dmp1 dmq1 iqmp
  | Stage_factors => released_at_err2 p q dmp1 dmq1 iqmp
  | Stage_crt_params => released_at_err1 dmp1 dmq1 iqmp
  end.

(** The components of the transfers before [st]. *)
Definition absorbed (st : stage) (n e d p q : ptr) : list ptr :=
  match st with
  | Stage_key => []
  | Stage_factors => [n; e; d]
  | Stage_crt_params => [n; e; d; p; q]
  end.

(** The key after the transfers before [st]. *)
Definition committed (st : stage) (r : RSA) (n e d p q : ptr) : RSA :=
  match st with
  | Stage_key => r
  | Stage_factors => key_after_set0_key r n e d
  | Stage_crt_params =>
      key_after_set0_factors (key_after_set0_key r n e d) p q
  end.

(** The former members the library released in the transfers before [st]. *)
Definition replaced_before (st : stage) (r : RSA) (d : ptr)
    : list (bool * ptr) :=
  match st with
  | Stage_key => []
  | Stage_factors => replaced_by_key r d
  | Stage_crt_params => replaced_by_key r d ++ replaced_by_factors r
  end.

Definition members (r : RSA) : list ptr :=
  [rsa_n r; rsa_e r; rsa_d r; rsa_p r; rsa_q r;
   rsa_dmp1 r; rsa_dmq1 r; rsa_iqmp r].

(** The memory a failed import leaves. *)
Definition failed_import (st : stage) (k : positive)
    (r : RSA) (n e d p q dmp1 dmq1 iqmp : ptr) (m : memory) : memory :=
  after_releases true (pending st n e d p q dmp1 dmq1 iqmp)
    (set_key k (committed st r n e d p q)
       (after_releases false (replaced_before st r d) m)).

(** The library accepts every transfer the import makes. *)
Definition accepts (env : environment) (d : ptr) : bool :=
  succeeds env At_set0_key
  && (is_null d
      || (succeeds env At_set0_factors && succeeds env At_set0_crt_params)).

Definition replaced_by_import (r : RSA) (d : ptr) : list (bool * ptr) :=
  if non_null d then
    (replaced_by_key r d ++ replaced_by_factors r) ++ replaced_by_crt_params r
  else replaced_by_key r d.

(** ** Release calls in the log *)

(** The [BIGNUM] a release call names. *)
Definition call_target (c : call) : ptr :=
  match c with
  | Call_BN_free a | Call_BN_clear_free a => a
  | Call_RSA_free _ | Call_warn0 _ => None
  end.

(** How many release calls of a log name the address [l]. *)
Definition times_released (l : positive) (cs : list call) : nat :=
  length (filter (λ c, call_target c = Some l) cs).

(** The release calls a run added to the log. *)
Definition new_calls (m m' : memory) : list call :=
  drop (length (calls m)) (calls m').

(** The failure postcondition read as: the importer releases the components
    it has absorbed and leaves the others, live, to the caller. *)
Definition releases_what_it_absorbed (version : Z) (env : environment)
    (st : stage) (k : positive) (n e d p q dmp1 dmq1 iqmp : ptr)
    (m : memory) : Prop :=
  ∀ res m',
    crypto_compat_RSA_import version env (Some k) n e d p q dmp1 dmq1 iqmp m
    = Some (res, m') →
    res ≠ 0 →
    (∀ l, Some l ∈ absorbed st n e d p q →
          times_released l (new_calls m m') = 1%nat)
    ∧ (∀ l, Some l ∈ map snd (pending st n e d p q dmp1 dmq1 iqmp) →
            times_released l (new_calls m m') = 0%nat
            ∧ is_Some (bignums m' !! l)).

(** ** A small key, for the examples

    The textbook key p = 61, q = 53: n = 3233, e = 17, d = 2753,
    dmp1 = 53, dmq1 = 49, iqmp = 38, held in eight live [BIGNUM]s at
    addresses 11 to 18, and an empty key handle at address 1. *)
Definition toy_memory : memory :=
  mkMemory
    (list_to_map [(11%positive, 3233); (12%positive, 17); (13%positive, 2753);
                  (14%positive, 61); (15%positive, 53); (16%positive, 53);
                  (17%positive, 49); (18%positive, 38)])
    {[ 1%positive := RSA_empty ]} ∅ [] [] [].

#[global] Instance site_eq_dec : EqDecision site.
Proof. solve_decision. Defined.

(** A library in which exactly the calls at the listed sites fail.  Its
    generator returns the modulus [2 ^ (bits - 1)], the exponent it was given
    and ones for the private components; a failing call queues one code,
    the same for all, and there are two texts. *)
Definition rejecting (sites : list site) : environment :=
  mkEnvironment
    (λ s, negb (bool_decide (s ∈ sites)))
    (λ _, [67567754])
    (λ bits e,
       (negb (bool_decide (At_generate ∈ sites)),
        mkComponents (Some (2 ^ (bits - 1))) (Some e) (Some 1) (Some 1)
          (Some 1) (Some 1) (Some 1) (Some 1)))
    (λ code, if code =? 0 then "error:00000000"%string
             else "error:library rejected"%string).

Definition modern : Z := 0x1010000f.
Definition legacy : Z := 0x1000107f.

Definition toy_import (version : Z) (env : environment) : M Z :=
  crypto_compat_RSA_import version env (Some 1%positive)
    (Some 11%positive) (Some 12%positive) (Some 13%positive)
    (Some 14%positive) (Some 15%positive) (Some 16%positive)
    (Some 17%positive) (Some 18%positive).

(** ** Public and secret components *)

Definition secret_components (d p q dmp1 dmq1 iqmp : ptr) : list ptr :=
  [d; p; q; dmp1; dmq1; iqmp].

Definition public_components (n e : ptr) : list ptr := [n; e].

(** A release call that is plain on a public component or clearing on a
    secret one. *)
Definition fitting_release (n e d p q dmp1 dmq1 iqmp : ptr) (c : call) : Prop :=
  (∃ a, c = Call_BN_free a ∧ a ∈ public_components n e)
  ∨ (∃ a, c = Call_BN_clear_free a ∧ a ∈ secret_components d p q dmp1 dmq1 iqmp).

(** ** Slots after an export *)

(** After the export the slot holds the pointer imported, and the [BIGNUM]
    it points to has the value it had before the import. *)
Definition returned (m m2 : memory) (slot a : ptr) : Prop :=
  cell_at m2 slot = Some a ∧ value_at m2 a = value_at m a.

(** ** Memories of a generation *)

(** Allocation of fresh [BIGNUM]s for the components a generator writes
    into an empty key: the pointers, member by member, and the new store. *)
Definition alloc_one (v : option Z) (h : gmap positive Z)
    : ptr * gmap positive Z :=
  match v with
  | None => (None, h)
  | Some z => let l := fresh (dom h) in (Some l, <[l := z]> h)
  end.

Fixpoint alloc_all (vs : list (option Z)) (h : gmap positive Z)
    : list ptr * gmap positive Z :=
  match vs with
  | [] => ([], h)
  | v :: vs' =>
      let '(a, h1) := alloc_one v h in
      let '(ps, h') := alloc_all vs' h1 in
      (a :: ps, h')
  end.

(** The member holds the component, in a [BIGNUM] that was not live before. *)
Definition allocated (h h' : gmap positive Z) (a : ptr) (v : option Z) : Prop :=
  match a, v with
  | Some l, Some z => h !! l = None ∧ h' !! l = Some z
  | None, None => True
  | _, _ => False
  end.

Definition values (c : components) : list (option Z) :=
  [c_n c; c_e c; c_d c; c_p c; c_q c; c_dmp1 c; c_dmq1 c; c_iqmp c].

Definition key_of (ps : list ptr) : RSA :=
  match ps with
  | [a1; a2; a3; a4; a5; a6; a7; a8] => mkRSA a1 a2 a3 a4 a5 a6 a7 a8
  | _ => RSA_empty
  end.

Definition set_bignums (h : gmap positive Z) (m : memory) : memory :=
  with_bignums (λ _, h) m.

Definition released_with_key (r : RSA) : list (bool * ptr) :=
  [(false, rsa_n r); (false, rsa_e r); (true, rsa_d r); (true, rsa_p r);
   (true, rsa_q r); (true, rsa_dmp1 r); (true, rsa_dmq1 r); (true, rsa_iqmp r)].

(** The memory after the diagnostic of a failure has been reported. *)
Definition warned (env : environment) (m : memory) : memory :=
  with_calls (λ l, l ++ [Call_warn0 (ERR_error_string env (hd 0 (errq m)))])
    (with_errq (λ q, tl q) m).

(** The generator on an empty key handle. *)
Definition generated (env : environment) (k : positive) (ok : bool)
    (c : components) (m : memory) : memory :=
  (if ok then id else rejected env At_generate)
    (set_key k (key_of (fst (alloc_all (values c) (bignums m))))
       (set_bignums (snd (alloc_all (values c) (bignums m))) m)).

Definition fresh_key (m : memory) : positive := fresh (dom (keys m)).

Definition with_fresh_key (m : memory) : memory :=
  with_keys <[fresh_key m := RSA_empty]> m.

(** ** What generation returns *)

(** The value the working exponent holds when the generation primitive is
    called: the unit does not check the result of [BN_set_word], so after a
    failed call it is still the zero of [BN_new]. *)
Definition working_exponent (env : environment) : Z :=
  if succeeds env At_BN_set_word then 65537 else 0.

(** The exponent the generation primitive is given: the literal 65537 before
    0.9.8, the content of the working exponent from there on. *)
Definition exponent_given (version : Z) (env : environment) : Z :=
  if version <? OPENSSL_0_9_8 then 65537 else working_exponent env.

(** What a failed [BN_set_word] leaves in the error queue. *)
Definition unchecked_errors (version : Z) (env : environment) : list Z :=
  if (OPENSSL_0_9_8 <=? version) && negb (succeeds env At_BN_set_word)
  then fault_codes env At_BN_set_word
  else [].

(** The library call whose failure makes generation fail, if any: the
    allocation of the working exponent (from 0.9.8 on), the allocation of the
    key handle, the generation primitive run for 2048 bits and the exponent
    it is given. *)
Definition generation_failure (version : Z) (env : environment) : option site :=
  if (OPENSSL_0_9_8 <=? version) && negb (succeeds env At_BN_new)
  then Some At_BN_new
  else if negb (succeeds env At_RSA_new) then Some At_RSA_new
  else if negb (fst (keygen env 2048 (exponent_given version env)))
       then Some At_generate
  else None.

(** The error queue when the diagnostic of the failure at [s] is read. *)
Definition queue_at_failure (version : Z) (env : environment) (s : site)
    (m : memory) : list Z :=
  errq m
  ++ match s with
     | At_BN_new => []
     | _ => unchecked_errors version env
     end
  ++ fault_codes env s.

(** Failure: no handle, every [BIGNUM] and key handle live before is live
    with its content and nothing else is, the earliest queued error has been
    taken off the queue and its text is the first thing reported. *)
Definition failure_outcome (version : Z) (env : environment) (s : site)
    (m : memory) (key : ptr) (m' : memory) : Prop :=
  key = NULL
  ∧ bignums m' = bignums m
  ∧ keys m' = keys m
  ∧ errq m' = tl (queue_at_failure version env s m)
  ∧ ∃ rest,
      new_calls m m'
      = Call_warn0
          (ERR_error_string env (hd 0 (queue_at_failure version env s m)))
        :: rest.

(** Success: a handle that was not live, whose members hold the components
    the generator drew for 2048 bits and the exponent it was given in
    [BIGNUM]s that were not live; every other [BIGNUM] and handle is as
    before, so the working exponent is gone; nothing is reported, and the
    queue has gained what a failed [BN_set_word] left there. *)
Definition success_outcome (version : Z) (env : environment) (m : memory)
    (key : ptr) (m' : memory) : Prop :=
  ∃ k r,
    key = Some k
    ∧ fst (keygen env 2048 (exponent_given version env)) = true
    ∧ keys m !! k = None
    ∧ keys m' = <[k := r]> (keys m)
    ∧ Forall2 (allocated (bignums m) (bignums m')) (members r)
        (values (snd (keygen env 2048 (exponent_given version env))))
    ∧ (∀ l, Some l ∉ members r → bignums m' !! l = bignums m !! l)
    ∧ errq m' = errq m ++ unchecked_errors version env
    ∧ ∀ msg, Call_warn0 msg ∉ new_calls m m'.

Definition fresh_exponent (m : memory) : positive := fresh (dom (bignums m)).

(** The memory once the working exponent is allocated and [BN_set_word] has
    run. *)
Definition with_exponent (env : environment) (m : memory) : memory :=
  (if succeeds env At_BN_set_word then id else rejected env At_BN_set_word)
    (set_bignums (<[fresh_exponent m := working_exponent env]> (bignums m)) m).

(** The generation primitive honours the size it is asked for: a key it
    reports generated has a modulus of exactly that many bits. *)
Definition honours_size (env : environment) : Prop :=
  ∀ bits e c,
    0 < bits → keygen env bits e = (true, c) →
    ∃ vn, c_n c = Some vn ∧ num_bits vn = bits.

(** ** Concrete memories *)

(** The memory after the small key has been imported with success. *)
Definition toy_imported : memory :=
  mkMemory
    (list_to_map [(11%positive, 3233); (12%positive, 17); (13%positive, 2753);
                  (14%positive, 61); (15%positive, 53); (16%positive, 53);
                  (17%positive, 49); (18%positive, 38)])
    {[ 1%positive := mkRSA (Some 11%positive) (Some 12%positive)
                       (Some 13%positive) (Some 14%positive) (Some 15%positive)
                       (Some 16%positive) (Some 17%positive) (Some 18%positive) ]}
    ∅ [] [] [].

(** A key handle at address 1 whose modulus is 2^2047 + 1. *)
Definition full_size_memory : memory :=
  mkMemory
    (list_to_map [(11%positive, 2 ^ 2047 + 1); (12%positive, 65537)])
    {[ 1%positive := mkRSA (Some 11%positive) (Some 12%positive)
                       NULL NULL NULL NULL NULL NULL ]}
    ∅ [] [] [].

Definition toy_export (version : Z) : M Z :=
  crypto_compat_RSA_export version (Some 1%positive)
    (Some 21%positive) (Some 22%positive) (Some 23%positive)
    (Some 24%positive) (Some 25%positive) (Some 26%positive)
    (Some 27%positive) (Some 28%positive).

Definition empty_memory : memory := mkMemory ∅ ∅ ∅ [] [] [].

(** A public key at address 1 that owns the modulus at 11 and the exponent
    at 12, and a second modulus and exponent, 3233 and 17, at 31 and 32. *)
Definition renewal_memory : memory :=
  mkMemory
    (list_to_map [(11%positive, 2 ^ 2047 + 1); (12%positive, 65537);
                  (31%positive, 3233); (32%positive, 17)])
    {[ 1%positive := mkRSA (Some 11%positive) (Some 12%positive)
                       NULL NULL NULL NULL NULL NULL ]}
    ∅ [] [] [].

(** * Properties *)

(** ** Running statements *)

Lemma bind_run {A B} (c : M A) (k : A → M B) m a m' :
  c m = Some (a, m') → bind c k m = k a m'.
Proof. intros H. unfold bind. now rewrite H. Qed.

Lemma bind_stop {A B} (c : M A) (k : A → M B) m :
  c m = None → bind c k m = None.
Proof. intros H. unfold bind. now rewrite H. Qed.

Lemma bind_inv {A B} (c : M A) (k : A → M B) m b m' :
  bind c k m = Some (b, m') →
  ∃ a m1, c m = Some (a, m1) ∧ k a m1 = Some (b, m').
Proof.
  unfold bind. destruct (c m) as [[a m1]|]; [|discriminate].
  intros H. now exists a, m1.
Qed.

(** One statement forward: rewrite with the outcome of the first statement
    of a sequence. *)
Ltac step H :=
  let E := fresh "E" in
  pose proof H as E; rewrite (bind_run _ _ _ _ _ E); clear E; cbv beta.

Lemma assert_run b m : b = true → assert b m = Some (tt, m).
Proof. now intros ->. Qed.

Lemma load_key_run l r m :
  keys m !! l = Some r → load_key (Some l) m = Some (r, m).
Proof. intros H. cbn. now rewrite H. Qed.

Lemma load_bn_run l v m :
  bignums m !! l = Some v → load_bn (Some l) m = Some (v, m).
Proof. intros H. cbn. now rewrite H. Qed.

(** ** The size predicate *)

(** A [BIGNUM] has 2048 bits exactly when its magnitude lies between
    2^2047 and 2^2048. *)
Lemma num_bits_2048 v : num_bits v = 2048 ↔ 2 ^ 2047 ≤ Z.abs v < 2 ^ 2048.
Proof.
  unfold num_bits. destruct (Z.eqb_spec v 0) as [->|Hv].
  - cbn [Z.abs]. split; [discriminate|]. intros [H _].
    assert (0 < 2 ^ 2047) by (apply Z.pow_pos_nonneg; lia). lia.
  - assert (0 < Z.abs v) by lia.
    pose proof (Z.log2_spec (Z.abs v) ltac:(lia)) as [Hlo Hhi].
    split.
    + intros E. assert (Z.log2 (Z.abs v) = 2047) as E' by lia.
      rewrite E' in Hlo, Hhi. exact (conj Hlo Hhi).
    + intros [Hl Hh].
      assert (Z.log2 (Z.abs v) = 2047); [|lia].
      apply Z.log2_unique; [lia|]. exact (conj Hl Hh).
Qed.

Lemma num_bits_bytes v : num_bits v = 2048 → num_bytes v = 256.
Proof. unfold num_bytes. now intros ->. Qed.

(** What the function returns on a key whose modulus is live, in either
    generation. *)
Lemma valid_size_run version k r ln v m :
  keys m !! k = Some r → rsa_n r = Some ln → bignums m !! ln = Some v →
  crypto_compat_RSA_valid_size version (Some k) m
  = Some (of_bool ((num_bytes v =? 256) && (num_bits v =? 2048)), m).
Proof.
  intros Hk Hn Hv. unfold crypto_compat_RSA_valid_size.
  step (assert_run (non_null (Some k)) m eq_refl).
  assert (RSA_size (Some k) m = Some (num_bytes v, m)) as Hsize.
  { unfold RSA_size. step (load_key_run _ _ _ Hk).
    rewrite Hn. now step (load_bn_run _ _ _ Hv). }
  assert (BN_num_bits (Some ln) m = Some (num_bits v, m)) as Hbits.
  { unfold BN_num_bits. now step (load_bn_run _ _ _ Hv). }
  destruct (version <? OPENSSL_1_1_0).
  - step (load_key_run _ _ _ Hk).
    rewrite Hn. step (assert_run (non_null (Some ln)) m eq_refl).
    step Hsize.
    destruct (num_bytes v =? 256); [|reflexivity].
    now step Hbits.
  - step Hsize.
    destruct (num_bytes v =? 256); [|reflexivity].
    assert (RSA_bits (Some k) m = Some (num_bits v, m)) as Hrsa.
    { unfold RSA_bits. step (load_key_run _ _ _ Hk). now rewrite Hn. }
    now step Hrsa.
Qed.

(** C1.  On a live key handle whose modulus is present, validation returns,
    leaves the whole memory (the handle included) as it found it, and its
    result is nonzero exactly when the modulus serialises to 256 bytes and the
    key has 2048 bits; it is zero as soon as one of the two fails. *)
Theorem valid_size_iff version k r ln v m :
  keys m !! k = Some r → rsa_n r = Some ln → bignums m !! ln = Some v →
  ∃ res,
    crypto_compat_RSA_valid_size version (Some k) m = Some (res, m)
    ∧ (res ≠ 0 ↔ num_bytes v = 256 ∧ num_bits v = 2048)
    ∧ (num_bytes v ≠ 256 ∨ num_bits v ≠ 2048 → res = 0).
Proof.
  intros Hk Hn Hv. eexists. split; [now apply (valid_size_run version k r ln v)|].
  destruct (Z.eqb_spec (num_bytes v) 256) as [E1|E1],
           (Z.eqb_spec (num_bits v) 2048) as [E2|E2]; cbn; intuition lia.
Qed.

(** The two generations stop on the same handles: a [NULL] or dead handle, a
    missing or dead modulus. *)
Lemma valid_size_undefined version rsa m :
  (∀ k r ln, rsa = Some k → keys m !! k = Some r → rsa_n r = Some ln →
             bignums m !! ln = None) →
  crypto_compat_RSA_valid_size version rsa m = None.
Proof.
  intros Hdead. unfold crypto_compat_RSA_valid_size.
  destruct rsa as [k|]; [|reflexivity].
  step (assert_run (non_null (Some k)) m eq_refl).
  destruct (keys m !! k) as [r|] eqn:Hk.
  - assert (RSA_size (Some k) m = None) as Hsize.
    { unfold RSA_size. step (load_key_run _ _ _ Hk).
      apply bind_stop. destruct (rsa_n r) as [ln|] eqn:Hn; [|reflexivity].
      cbn. now rewrite (Hdead k r ln eq_refl Hk Hn). }
    destruct (version <? OPENSSL_1_1_0).
    + step (load_key_run _ _ _ Hk).
      destruct (rsa_n r) as [ln|] eqn:Hn; [|reflexivity].
      step (assert_run (non_null (Some ln)) m eq_refl).
      now apply bind_stop.
    + now apply bind_stop.
  - assert (load_key (Some k) m = None) as Hload by (cbn; now rewrite Hk).
    destruct (version <? OPENSSL_1_1_0); apply bind_stop; [assumption|].
    unfold RSA_size. now apply bind_stop.
Qed.

(** C8.  The struct-field build of the validator (bit length read off the
    modulus by [BN_num_bits]) and the accessor build (bit length from
    [RSA_bits]) have the same outcome on every handle and every memory:
    the same result and memory when they return, and both stop otherwise. *)
Theorem valid_size_generations_agree legacy modern rsa m :
  legacy < OPENSSL_1_1_0 ≤ modern →
  crypto_compat_RSA_valid_size legacy rsa m
  = crypto_compat_RSA_valid_size modern rsa m.
Proof.
  intros _.
  destruct rsa as [k|]; [|reflexivity].
  destruct (keys m !! k) as [r|] eqn:Hk;
    [destruct (rsa_n r) as [ln|] eqn:Hn;
      [destruct (bignums m !! ln) as [v|] eqn:Hv|]|].
  - now rewrite !(valid_size_run _ k r ln v m Hk Hn Hv).
  - rewrite !valid_size_undefined; [reflexivity| |];
      intros k' r' ln' [= <-] Hk' Hn'; congruence.
  - rewrite !valid_size_undefined; [reflexivity| |];
      intros k' r' ln' [= <-] Hk' Hn'; congruence.
  - rewrite !valid_size_undefined; [reflexivity| |];
      intros k' r' ln' [= <-] Hk' Hn'; congruence.
Qed.

(** A LibreSSL build is of the accessor generation from 2.7.0 on and of the
    struct-field generation before, whatever OpenSSL version it announces. *)
Lemma libressl_generation openssl v :
  (effective_version openssl (Some v) <? OPENSSL_1_1_0) = (v <? 0x2070000f).
Proof.
  unfold effective_version.
  destruct (Z.leb_spec 0x2070000f v), (Z.ltb_spec v 0x2070000f);
    try lia; reflexivity.
Qed.

(** ** Arguments accepted by the sanity checks *)

Lemma check_arguments_spec key n e d p q dmp1 dmq1 iqmp m :
  check_arguments key n e d p q dmp1 dmq1 iqmp m
  = if arguments_ok key n e d p q dmp1 dmq1 iqmp then Some (tt, m) else None.
Proof.
  unfold check_arguments, arguments_ok, grouped.
  destruct (non_null key); [|reflexivity].
  step (assert_run true m eq_refl).
  destruct (non_null n && non_null e); [|reflexivity].
  step (assert_run true m eq_refl).
  destruct (is_null d);
    match goal with |- assert ?b _ = _ => now destruct b end.
Qed.

Lemma arguments_ok_inv key n e d p q dmp1 dmq1 iqmp :
  arguments_ok key n e d p q dmp1 dmq1 iqmp = true →
  (∃ k, key = Some k) ∧ (∃ ln, n = Some ln) ∧ (∃ le, e = Some le)
  ∧ ((d = None ∧ p = None ∧ q = None ∧ dmp1 = None ∧ dmq1 = None ∧ iqmp = None)
     ∨ (∃ ld lp lq l1 l2 l3,
          d = Some ld ∧ p = Some lp ∧ q = Some lq ∧ dmp1 = Some l1
          ∧ dmq1 = Some l2 ∧ iqmp = Some l3)).
Proof.
  unfold arguments_ok, grouped.
  destruct key, n, e, d, p, q, dmp1, dmq1, iqmp; cbn; try discriminate;
    intros _; repeat split; eauto 15.
Qed.

(** ** Writing members and slots *)

Lemma set_key_twice k r1 r2 m : set_key k r2 (set_key k r1 m) = set_key k r2 m.
Proof. unfold set_key, with_keys. cbn. now rewrite insert_insert_eq. Qed.

Lemma keys_set_key k r m : keys (set_key k r m) !! k = Some r.
Proof. cbn. apply lookup_insert_eq. Qed.

Lemma store_key_run k r0 r m :
  keys m !! k = Some r0 → store_key (Some k) r m = Some (tt, set_key k r m).
Proof. intros H. cbn. now rewrite H. Qed.

Lemma set_member_run f k r m :
  keys m !! k = Some r →
  set_member f (Some k) m = Some (tt, set_key k (f r) m).
Proof.
  intros H. unfold set_member. step (load_key_run _ _ _ H).
  now apply store_key_run with r.
Qed.

(** One member assignment on a key that was just written. *)
Ltac assign_member :=
  match goal with
  | |- context [bind (set_member ?f (Some ?k)) ?cont (set_key ?k ?r ?m)] =>
      rewrite (bind_run _ cont _ _ _
                 (set_member_run f k r (set_key k r m) (keys_set_key k r m)));
      cbv beta; rewrite set_key_twice
  end.

Lemma import_field_run version env k r n e d p q dmp1 dmq1 iqmp m :
  version < OPENSSL_1_1_0 →
  keys m !! k = Some r →
  arguments_ok (Some k) n e d p q dmp1 dmq1 iqmp = true →
  crypto_compat_RSA_import version env (Some k) n e d p q dmp1 dmq1 iqmp m
  = Some (0, set_key k (imported_key r n e d p q dmp1 dmq1 iqmp) m).
Proof.
  intros Hver Hk Hok. unfold crypto_compat_RSA_import.
  pose proof (check_arguments_spec (Some k) n e d p q dmp1 dmq1 iqmp m) as Hc.
  rewrite Hok in Hc. step Hc.
  apply Z.ltb_lt in Hver. rewrite Hver.
  step (set_member_run (put_n n) k r m Hk).
  assign_member.
  destruct d as [ld|]; cbn [non_null is_null negb].
  - assert ((set_member (put_d (Some ld)) (Some k) ;;
             set_member (put_p p) (Some k) ;;
             set_member (put_q q) (Some k) ;;
             set_member (put_dmp1 dmp1) (Some k) ;;
             set_member (put_dmq1 dmq1) (Some k) ;;
             set_member (put_iqmp iqmp) (Some k))
              (set_key k (put_e e (put_n n r)) m)
            = Some (tt, set_key k (mkRSA n e (Some ld) p q dmp1 dmq1 iqmp) m))
      as Hblock.
    { repeat assign_member.
      rewrite (set_member_run (put_iqmp iqmp) k _ _ (keys_set_key k _ m)).
      now rewrite set_key_twice. }
    now step Hblock.
  - now step (eq_refl : ret tt (set_key k (put_e e (put_n n r)) m) = Some (tt, _)).
Qed.

(** C9.  In the struct-field generation the importer returns success on every
    live handle and every argument list that passes the sanity checks: the
    members are assigned, nothing is released, no release call is made and
    no error is queued. *)
Theorem import_field_generation_succeeds
    version env k r n e d p q dmp1 dmq1 iqmp m :
  version < OPENSSL_1_1_0 →
  keys m !! k = Some r →
  arguments_ok (Some k) n e d p q dmp1 dmq1 iqmp = true →
  ∃ m' r',
    crypto_compat_RSA_import version env (Some k) n e d p q dmp1 dmq1 iqmp m
    = Some (0, m')
    ∧ keys m' = <[k := r']> (keys m)
    ∧ rsa_n r' = n ∧ rsa_e r' = e
    ∧ (d ≠ None →
       rsa_d r' = d ∧ rsa_p r' = p ∧ rsa_q r' = q ∧ rsa_dmp1 r' = dmp1
       ∧ rsa_dmq1 r' = dmq1 ∧ rsa_iqmp r' = iqmp)
    ∧ calls m' = calls m
    ∧ bignums m' = bignums m
    ∧ residue m' = residue m
    ∧ errq m' = errq m.
Proof.
  intros Hver Hk Hok.
  exists (set_key k (imported_key r n e d p q dmp1 dmq1 iqmp) m),
         (imported_key r n e d p q dmp1 dmq1 iqmp).
  split; [now apply import_field_run|].
  unfold imported_key. destruct d; cbn; repeat split; congruence.
Qed.

(** ** Export *)

Lemma export_run version k r n e d p q dmp1 dmq1 iqmp m :
  keys m !! k = Some r →
  arguments_ok (Some k) n e d p q dmp1 dmq1 iqmp = true →
  crypto_compat_RSA_export version (Some k) n e d p q dmp1 dmq1 iqmp m
  = Some (0, with_cells (write_all (export_writes r n e d p q dmp1 dmq1 iqmp)) m).
Proof.
  intros Hk Hok. unfold crypto_compat_RSA_export.
  pose proof (check_arguments_spec (Some k) n e d p q dmp1 dmq1 iqmp m) as Hc.
  rewrite Hok in Hc. step Hc.
  destruct (arguments_ok_inv _ _ _ _ _ _ _ _ _ Hok)
    as ([k' _] & [cn ->] & [ce ->]
        & [(-> & -> & -> & -> & -> & ->)
          |(cd & cp & cq & c1 & c2 & c3 & -> & -> & -> & -> & -> & ->)]);
    destruct (version <? OPENSSL_1_1_0);
    unfold get_member, RSA_get0_key, RSA_get0_factors, RSA_get0_crt_params,
      write_if_supplied, bind, load_key, write_cell, ret, with_cells;
    repeat first [rewrite Hk | progress cbn]; reflexivity.
Qed.

(** C5.  On a live handle and slots that pass the sanity checks the exporter
    returns 0, the success result, in either generation; it has no other
    result, releases nothing and queues no error. *)
Theorem export_always_succeeds version k r n e d p q dmp1 dmq1 iqmp m :
  keys m !! k = Some r →
  arguments_ok (Some k) n e d p q dmp1 dmq1 iqmp = true →
  ∃ m',
    crypto_compat_RSA_export version (Some k) n e d p q dmp1 dmq1 iqmp m
    = Some (0, m')
    ∧ bignums m' = bignums m ∧ keys m' = keys m
    ∧ calls m' = calls m ∧ errq m' = errq m.
Proof.
  intros Hk Hok. eexists. split; [exact (export_run version _ _ _ _ _ _ _ _ _ _ m Hk Hok)|].
  now repeat split.
Qed.

(** ** Sequences of releases *)

Lemma owned_nil m : owned m [].
Proof. split; constructor. Qed.

Lemma owned_cons m a ps :
  owned m (a :: ps) ↔
  releasable m a ∧ (∀ l, a = Some l → Some l ∉ ps) ∧ owned m ps.
Proof.
  unfold owned. rewrite Forall_cons. destruct a as [l|]; cbn.
  - rewrite NoDup_cons, list_elem_of_omap. split.
    + intros [[Hnin Hnd] [Hl Hf]]. repeat split; auto.
      intros l' [= <-] Hin. apply Hnin. now exists (Some l).
    + intros (Hl & Hnin & Hnd & Hf). repeat split; auto.
      intros ([l'|] & Hin & [= ->]). now apply (Hnin l eq_refl).
  - split; [intros [Hnd [_ Hf]]|intros (_ & _ & Hnd & Hf)]; repeat split; auto.
    discriminate.
Qed.

Lemma owned_app m ps qs :
  owned m (ps ++ qs) ↔
  owned m ps ∧ owned m qs ∧ ∀ l, Some l ∈ ps → Some l ∉ qs.
Proof.
  induction ps as [|a ps IH]; cbn [app].
  - split; [intros H|intros (_ & H & _)]; auto.
    split; [apply owned_nil|split; [assumption|]]. intros l Hl. inversion Hl.
  - rewrite !owned_cons, IH. split.
    + intros (Ha & Hnin & Hps & Hqs & Hd).
      split; [split; [exact Ha|split; [|exact Hps]]|split; [exact Hqs|]].
      * intros l E Hin. apply (Hnin l E), elem_of_app. now left.
      * intros l [E|Hin]%elem_of_cons; [|now apply Hd].
        intros Hin. apply (Hnin l (eq_sym E)), elem_of_app. now right.
    + intros ((Ha & Hnin & Hps) & Hqs & Hd).
      split; [exact Ha|split; [|split; [exact Hps|split; [exact Hqs|]]]].
      * intros l -> [Hin|Hin]%elem_of_app; [now apply (Hnin l)|].
        apply (Hd l); [apply elem_of_cons; now left|assumption].
      * intros l Hin. apply Hd. apply elem_of_cons. now right.
Qed.

Lemma lookup_forget h a l :
  forget h a !! l = if decide (a = Some l) then None else h !! l.
Proof.
  destruct a as [l'|]; cbn.
  - rewrite lookup_delete. repeat case_decide; congruence.
  - case_decide; congruence.
Qed.

Lemma lookup_forget_all ps h l :
  forget_all ps h !! l = if decide (Some l ∈ ps) then None else h !! l.
Proof.
  unfold forget_all. revert h. induction ps as [|a ps IH]; intros h; cbn.
  - case_decide as H; [inversion H|reflexivity].
  - rewrite IH, lookup_forget.
    repeat case_decide; try reflexivity; exfalso;
      rewrite elem_of_cons in *; intuition congruence.
Qed.

Lemma memory_eq m m' :
  bignums m = bignums m' → keys m = keys m' → cells m = cells m' →
  errq m = errq m' → residue m = residue m' → calls m = calls m' → m = m'.
Proof. destruct m, m'; cbn; congruence. Qed.

Lemma bn_release_run clear a m :
  releasable m a →
  bn_release clear a m = Some (tt, after_releases false [(clear, a)] m).
Proof.
  destruct a as [l|]; cbn.
  - intros [v Hv]. rewrite Hv. do 2 f_equal.
    apply memory_eq; cbn; rewrite ?app_nil_r; try reflexivity.
    unfold spill; cbn. rewrite Hv. now destruct clear; rewrite ?app_nil_r.
  - intros _. do 2 f_equal.
    apply memory_eq; cbn; rewrite ?app_nil_r; try reflexivity.
    unfold spill; cbn. now destruct clear; rewrite ?app_nil_r.
Qed.

Lemma release_one_run logged x m :
  releasable m (snd x) →
  release_one logged x m = Some (tt, after_releases logged [x] m).
Proof.
  intros Hx. destruct x as [clear a], logged; cbn [release_one fst snd] in *.
  - assert (∀ c, (log c ;; bn_release clear a) m
                 = Some (tt, after_releases false [(clear, a)]
                               (with_calls (λ l, l ++ [c]) m))) as Hlog.
    { intros c. unfold log. step (eq_refl : modify (with_calls (λ l, l ++ [c])) m = Some (tt, _)).
      now apply bn_release_run. }
    destruct clear; unfold BN_clear_free, BN_free; rewrite Hlog;
      do 2 f_equal; apply memory_eq; cbn; rewrite ?app_nil_r; reflexivity.
  - now apply bn_release_run.
Qed.

Lemma releasable_after logged x m a :
  releasable m a → a = None ∨ a ≠ snd x →
  releasable (after_releases logged [x] m) a.
Proof.
  destruct a as [l|]; cbn; [|trivial]. intros Hl [E|Hne]; [discriminate|].
  now rewrite lookup_forget, decide_False by congruence.
Qed.

Lemma value_at_after logged x m a :
  a = None ∨ a ≠ snd x →
  value_at (after_releases logged [x] m) a = value_at m a.
Proof.
  destruct a as [l|]; cbn; [|trivial]. intros [E|Hne]; [discriminate|].
  now rewrite lookup_forget, decide_False by congruence.
Qed.

Lemma after_releases_cons logged x ps m :
  (∀ y, y ∈ ps → snd y = None ∨ snd y ≠ snd x) →
  after_releases logged ps (after_releases logged [x] m)
  = after_releases logged (x :: ps) m.
Proof.
  intros Hd. apply memory_eq; cbn; try reflexivity.
  - rewrite app_nil_r, <- !app_assoc. do 2 f_equal.
    f_equal. apply map_ext_in. intros y Hy%list_elem_of_In.
    unfold spill. now rewrite value_at_after by auto.
  - destruct logged; cbn; now rewrite <- ?app_assoc, ?app_nil_r.
Qed.

(** A sequence of releases of pointers owned one by one runs to its end. *)
Lemma release_seq_run logged ps m :
  owned m (map snd ps) →
  release_seq logged ps m = Some (tt, after_releases logged ps m).
Proof.
  revert m. induction ps as [|x ps IH]; intros m Hown.
  - unfold release_seq, ret. do 2 f_equal.
    apply memory_eq; cbn; rewrite ?app_nil_r; try reflexivity.
    now destruct logged; rewrite app_nil_r.
  - cbn [map] in Hown. apply owned_cons in Hown as (Hx & Hnin & Hps).
    assert (∀ y, y ∈ ps → snd y = None ∨ snd y ≠ snd x) as Hd.
    { intros [c [l|]] Hy; cbn; [right|now left]. intros E.
      apply (Hnin l (eq_sym E)). apply list_elem_of_fmap. now exists (c, Some l). }
    cbn [release_seq]. step (release_one_run logged x m Hx).
    rewrite IH.
    + now rewrite after_releases_cons.
    + destruct Hps as [Hnd Hall]. split; [assumption|].
      rewrite Forall_forall in *. intros a Ha.
      apply releasable_after; [now apply Hall|].
      apply list_elem_of_fmap in Ha as (y & -> & Hy). now apply Hd.
Qed.

Lemma after_releases_app logged ps qs m :
  (∀ l, Some l ∈ map snd qs → Some l ∉ map snd ps) →
  after_releases logged qs (after_releases logged ps m)
  = after_releases logged (ps ++ qs) m.
Proof.
  intros Hd. apply memory_eq; cbn; try reflexivity.
  - unfold forget_all. now rewrite map_app, foldl_app.
  - rewrite map_app, concat_app, <- app_assoc. do 3 f_equal.
    apply map_ext_in. intros [c [l|]] Hy%list_elem_of_In; unfold spill; cbn;
      [|reflexivity].
    rewrite lookup_forget_all, decide_False; [reflexivity|].
    apply Hd. apply list_elem_of_fmap. now exists (c, Some l).
  - destruct logged; now rewrite ?map_app, <- ?app_assoc.
Qed.

Lemma owned_after logged ps m qs :
  owned m qs → (∀ l, Some l ∈ qs → Some l ∉ map snd ps) →
  owned (after_releases logged ps m) qs.
Proof.
  intros [Hnd Hall] Hd. split; [assumption|].
  rewrite Forall_forall in *. intros [l|] Ha; cbn; [|trivial].
  rewrite lookup_forget_all, decide_False by now apply Hd.
  now apply (Hall (Some l)).
Qed.

Lemma sublist_elem_of {A} (qs ps : list A) x :
  sublist qs ps → x ∈ qs → x ∈ ps.
Proof.
  induction 1 as [|y l1 l2 Hsub IH|y l1 l2 Hsub IH]; intros Hx; [assumption| |].
  - apply elem_of_cons in Hx as [->|Hx]; apply elem_of_cons; auto.
  - apply elem_of_cons. auto.
Qed.

Lemma owned_sublist m ps qs : sublist qs ps → owned m ps → owned m qs.
Proof.
  induction 1 as [|x l1 l2 Hsub IH|x l1 l2 Hsub IH].
  - trivial.
  - rewrite !owned_cons. intros (Hx & Hnin & Hown).
    split; [exact Hx|split; [|now apply IH]].
    intros l E Hin. apply (Hnin l E). now apply (sublist_elem_of l1).
  - rewrite owned_cons. intros (_ & _ & Hown). now apply IH.
Qed.

Ltac solve_sublist :=
  repeat first [apply sublist_nil | apply sublist_skip | apply sublist_cons].

(** Ownership depends on the live [BIGNUM]s only. *)
Lemma owned_same_bignums m m' ps :
  bignums m' = bignums m → owned m ps → owned m' ps.
Proof.
  intros E [Hnd Hall]. split; [assumption|].
  eapply Forall_impl; [exact Hall|]. intros [l|]; cbn; [|trivial]. now rewrite E.
Qed.

(** ** The setters, run *)

Lemma raise_error_run env s m :
  raise_error env s m = Some (tt, with_errq (λ q, q ++ fault_codes env s) m).
Proof. reflexivity. Qed.

Ltac destruct_runs :=
  repeat match goal with
         | |- context [match bn_release ?c ?a ?m with _ => _ end] =>
             destruct (bn_release c a m) as [[[] ?]|]
         | |- context [match BN_free ?a ?m with _ => _ end] =>
             destruct (BN_free a m) as [[[] ?]|]
         | |- context [match BN_clear_free ?a ?m with _ => _ end] =>
             destruct (BN_clear_free a m) as [[[] ?]|]
         end.

Lemma RSA_set0_key_run env k r ln le d m :
  keys m !! k = Some r →
  succeeds env At_set0_key = true →
  owned m (map snd (replaced_by_key r d)) →
  RSA_set0_key env (Some k) (Some ln) (Some le) d m
  = Some (1, set_key k (key_after_set0_key r (Some ln) (Some le) d)
               (after_releases false (replaced_by_key r d) m)).
Proof.
  intros Hk Hs Hown. unfold RSA_set0_key. step (load_key_run _ _ _ Hk).
  rewrite Hs. cbn [negb is_null andb orb]. rewrite !andb_false_r. cbn [orb].
  pose proof (release_seq_run false _ m Hown) as Hrun.
  transitivity ((release_seq false (replaced_by_key r d) ;;
                 store_key (Some k) (key_after_set0_key r (Some ln) (Some le) d) ;;
                 ret 1) m).
  - unfold replaced_by_key, key_after_set0_key, replace_member, release_seq,
      release_one, bind, ret.
    destruct d; cbn; destruct_runs; reflexivity.
  - step Hrun.
    now step (store_key_run k r (key_after_set0_key r (Some ln) (Some le) d)
                (after_releases false (replaced_by_key r d) m) Hk).
Qed.

Lemma RSA_set0_factors_run env k r lp lq m :
  keys m !! k = Some r →
  succeeds env At_set0_factors = true →
  owned m (map snd (replaced_by_factors r)) →
  RSA_set0_factors env (Some k) (Some lp) (Some lq) m
  = Some (1, set_key k (key_after_set0_factors r (Some lp) (Some lq))
               (after_releases false (replaced_by_factors r) m)).
Proof.
  intros Hk Hs Hown. unfold RSA_set0_factors. step (load_key_run _ _ _ Hk).
  rewrite Hs. cbn [negb is_null andb orb]. rewrite !andb_false_r. cbn [orb].
  pose proof (release_seq_run false _ m Hown) as Hrun.
  transitivity ((release_seq false (replaced_by_factors r) ;;
                 store_key (Some k) (key_after_set0_factors r (Some lp) (Some lq)) ;;
                 ret 1) m).
  - unfold replaced_by_factors, key_after_set0_factors, replace_member,
      release_seq, release_one, bind, ret.
    cbn; destruct_runs; reflexivity.
  - step Hrun.
    now step (store_key_run k r (key_after_set0_factors r (Some lp) (Some lq))
                (after_releases false (replaced_by_factors r) m) Hk).
Qed.

Lemma RSA_set0_crt_params_run env k r l1 l2 l3 m :
  keys m !! k = Some r →
  succeeds env At_set0_crt_params = true →
  owned m (map snd (replaced_by_crt_params r)) →
  RSA_set0_crt_params env (Some k) (Some l1) (Some l2) (Some l3) m
  = Some (1, set_key k (key_after_set0_crt_params r (Some l1) (Some l2) (Some l3))
               (after_releases false (replaced_by_crt_params r) m)).
Proof.
  intros Hk Hs Hown. unfold RSA_set0_crt_params. step (load_key_run _ _ _ Hk).
  rewrite Hs. cbn [negb is_null andb orb]. rewrite !andb_false_r. cbn [orb].
  pose proof (release_seq_run false _ m Hown) as Hrun.
  transitivity ((release_seq false (replaced_by_crt_params r) ;;
                 store_key (Some k)
                   (key_after_set0_crt_params r (Some l1) (Some l2) (Some l3)) ;;
                 ret 1) m).
  - unfold replaced_by_crt_params, key_after_set0_crt_params, replace_member,
      release_seq, release_one, bind, ret.
    cbn; destruct_runs; reflexivity.
  - step Hrun.
    now step (store_key_run k r
                (key_after_set0_crt_params r (Some l1) (Some l2) (Some l3))
                (after_releases false (replaced_by_crt_params r) m) Hk).
Qed.

Lemma RSA_set0_key_reject env k r n e d m :
  keys m !! k = Some r → succeeds env At_set0_key = false →
  RSA_set0_key env (Some k) n e d m = Some (0, m).
Proof.
  intros Hk Hs. unfold RSA_set0_key. step (load_key_run _ _ _ Hk).
  now rewrite Hs.
Qed.

Lemma RSA_set0_factors_reject env k r p q m :
  keys m !! k = Some r → succeeds env At_set0_factors = false →
  RSA_set0_factors env (Some k) p q m = Some (0, m).
Proof.
  intros Hk Hs. unfold RSA_set0_factors. step (load_key_run _ _ _ Hk).
  now rewrite Hs.
Qed.

Lemma RSA_set0_crt_params_reject env k r dmp1 dmq1 iqmp m :
  keys m !! k = Some r → succeeds env At_set0_crt_params = false →
  RSA_set0_crt_params env (Some k) dmp1 dmq1 iqmp m = Some (0, m).
Proof.
  intros Hk Hs. unfold RSA_set0_crt_params. step (load_key_run _ _ _ Hk).
  now rewrite Hs.
Qed.

(** ** The failure path of the importer, run *)

Lemma import_err1_run dmp1 dmq1 iqmp m :
  owned m [dmp1; dmq1; iqmp] →
  import_err1 dmp1 dmq1 iqmp m
  = Some (-1, after_releases true (released_at_err1 dmp1 dmq1 iqmp) m).
Proof.
  intros Hown.
  transitivity ((release_seq true (released_at_err1 dmp1 dmq1 iqmp) ;; ret (-1)) m).
  - unfold import_err1, released_at_err1, release_seq, release_one, bind, ret.
    cbn; destruct_runs; reflexivity.
  - now step (release_seq_run true (released_at_err1 dmp1 dmq1 iqmp) m Hown).
Qed.

Lemma import_err2_run p q dmp1 dmq1 iqmp m :
  owned m [p; q; dmp1; dmq1; iqmp] →
  import_err2 p q dmp1 dmq1 iqmp m
  = Some (-1, after_releases true (released_at_err2 p q dmp1 dmq1 iqmp) m).
Proof.
  intros Hown.
  transitivity ((release_seq true (released_at_err2 p q dmp1 dmq1 iqmp) ;; ret (-1)) m).
  - unfold import_err2, import_err1, released_at_err2, released_at_err1,
      release_seq, release_one, bind, ret.
    cbn; destruct_runs; reflexivity.
  - now step (release_seq_run true (released_at_err2 p q dmp1 dmq1 iqmp) m Hown).
Qed.

Lemma import_err3_run n e d p q dmp1 dmq1 iqmp m :
  owned m [n; e; d; p; q; dmp1; dmq1; iqmp] →
  import_err3 n e d p q dmp1 dmq1 iqmp m
  = Some (-1, after_releases true (released_at_err3 n e d p q dmp1 dmq1 iqmp) m).
Proof.
  intros Hown.
  transitivity ((release_seq true (released_at_err3 n e d p q dmp1 dmq1 iqmp) ;;
                 ret (-1)) m).
  - unfold import_err3, import_err2, import_err1, released_at_err3,
      released_at_err2, released_at_err1, release_seq, release_one, bind, ret.
    cbn; destruct_runs; reflexivity.
  - now step (release_seq_run true
                (released_at_err3 n e d p q dmp1 dmq1 iqmp) m Hown).
Qed.

(** ** The importer of the accessor generation, run *)

Lemma set_key_same k r m : keys m !! k = Some r → set_key k r m = m.
Proof.
  intros H. apply memory_eq; cbn; try reflexivity. now apply insert_id.
Qed.

Lemma after_releases_nil logged m : after_releases logged [] m = m.
Proof.
  apply memory_eq; cbn; rewrite ?app_nil_r; try reflexivity.
  now destruct logged; rewrite app_nil_r.
Qed.

Lemma after_releases_set_key logged ps k r m :
  after_releases logged ps (set_key k r m)
  = set_key k r (after_releases logged ps m).
Proof. now apply memory_eq. Qed.

(** The pieces of the ownership hypothesis a run needs. *)
Lemma owned_pieces m r n e d p q dmp1 dmq1 iqmp :
  owned m (members r ++ [n; e; d; p; q; dmp1; dmq1; iqmp]) →
  owned m [n; e; d; p; q; dmp1; dmq1; iqmp]
  ∧ owned m ([rsa_n r; rsa_e r] ++ [n; e; d; p; q; dmp1; dmq1; iqmp])
  ∧ owned m ([rsa_n r; rsa_e r; rsa_d r] ++ [rsa_p r; rsa_q r])
  ∧ owned m ([rsa_n r; rsa_e r; rsa_d r] ++ [p; q; dmp1; dmq1; iqmp])
  ∧ owned m (([rsa_n r; rsa_e r; rsa_d r] ++ [rsa_p r; rsa_q r])
             ++ [rsa_dmp1 r; rsa_dmq1 r; rsa_iqmp r])
  ∧ owned m (([rsa_n r; rsa_e r; rsa_d r] ++ [rsa_p r; rsa_q r])
             ++ [dmp1; dmq1; iqmp])
  ∧ owned m (members r ++ [n; e; d; p; q; dmp1; dmq1; iqmp]).
Proof.
  intros H. repeat split; try (apply H);
    (eapply owned_sublist; [|exact H]); unfold members; cbn [app];
    solve_sublist.
Qed.

Lemma import_fails_run version env st k r n e d p q dmp1 dmq1 iqmp m :
  OPENSSL_1_1_0 ≤ version →
  keys m !! k = Some r →
  arguments_ok (Some k) n e d p q dmp1 dmq1 iqmp = true →
  owned m (members r ++ [n; e; d; p; q; dmp1; dmq1; iqmp]) →
  fails_at env st = true →
  st = Stage_key ∨ d ≠ None →
  crypto_compat_RSA_import version env (Some k) n e d p q dmp1 dmq1 iqmp m
  = Some (-1, failed_import st k r n e d p q dmp1 dmq1 iqmp m).
Proof.
  intros Hver Hk Hok Hown Hfail Hst. unfold crypto_compat_RSA_import.
  pose proof (check_arguments_spec (Some k) n e d p q dmp1 dmq1 iqmp m) as Hc.
  rewrite Hok in Hc. step Hc.
  apply Z.ltb_ge in Hver. rewrite Hver.
  destruct (owned_pieces _ _ _ _ _ _ _ _ _ _ Hown)
    as (Hargs & Hne & Hkf & Hkp & Hkfc & Hkfp & _).
  unfold failed_import.
  destruct st; cbn [fails_at pending committed replaced_before] in *.
  - (* the first transfer is rejected *)
    apply negb_true_iff in Hfail.
    rewrite after_releases_nil, (set_key_same _ _ _ Hk).
    assert (import_err3 n e d p q dmp1 dmq1 iqmp m
            = Some (-1, after_releases true
                          (released_at_err3 n e d p q dmp1 dmq1 iqmp) m))
      as Herr.
    { now apply import_err3_run. }
    destruct d as [ld|]; cbn [is_null].
    + step (RSA_set0_key_reject env k r n e (Some ld) m Hk Hfail). exact Herr.
    + step (RSA_set0_key_reject env k r n e None m Hk Hfail). exact Herr.
  - (* the second transfer is rejected *)
    destruct Hst as [|Hd]; [discriminate|].
    apply andb_true_iff in Hfail as [Hs1 Hs2%negb_true_iff].
    destruct (arguments_ok_inv _ _ _ _ _ _ _ _ _ Hok)
      as (_ & [ln ->] & [le ->]
          & [(-> & _)|(ld & lp & lq & l1 & l2 & l3 & -> & -> & -> & -> & -> & ->)]);
      [congruence|].
    cbn [is_null].
    assert (owned m (map snd (replaced_by_key r (Some ld)))) as Hold
      by (now apply owned_app in Hkf as (Hold & _)).
    step (RSA_set0_key_run env k r ln le (Some ld) m Hk Hs1 Hold).
    cbn [Z.eqb Pos.eqb negb].
    step (RSA_set0_factors_reject env k _ (Some lp) (Some lq) _
            (keys_set_key k (key_after_set0_key r (Some ln) (Some le) (Some ld))
               (after_releases false (replaced_by_key r (Some ld)) m)) Hs2).
    cbn [Z.eqb negb].
    apply import_err2_run.
    apply owned_app in Hkp as (_ & Hp & Hdis).
    apply (owned_same_bignums
             (after_releases false (replaced_by_key r (Some ld)) m));
      [reflexivity|].
    apply owned_after; [exact Hp|]. intros l Hin Hin'. now apply (Hdis l).
  - (* the third transfer is rejected *)
    destruct Hst as [|Hd]; [discriminate|].
    apply andb_true_iff in Hfail as [[Hs1 Hs2]%andb_true_iff Hs3%negb_true_iff].
    destruct (arguments_ok_inv _ _ _ _ _ _ _ _ _ Hok)
      as (_ & [ln ->] & [le ->]
          & [(-> & _)|(ld & lp & lq & l1 & l2 & l3 & -> & -> & -> & -> & -> & ->)]);
      [congruence|].
    cbn [is_null].
    assert (owned m (map snd (replaced_by_key r (Some ld)))) as Hold
      by (now apply owned_app in Hkf as (Hold & _)).
    step (RSA_set0_key_run env k r ln le (Some ld) m Hk Hs1 Hold).
    cbn [Z.eqb Pos.eqb negb].
    set (r1 := key_after_set0_key r (Some ln) (Some le) (Some ld)).
    set (m1 := set_key k r1 (after_releases false (replaced_by_key r (Some ld)) m)).
    assert (owned m1 (map snd (replaced_by_factors r1))) as Hold2.
    { apply owned_app in Hkf as (_ & Hf & Hdis).
      apply (owned_same_bignums
               (after_releases false (replaced_by_key r (Some ld)) m));
        [reflexivity|].
      apply owned_after; [exact Hf|]. intros l Hin Hin'. now apply (Hdis l). }
    step (RSA_set0_factors_run env k r1 lp lq m1 (keys_set_key k r1 _) Hs2 Hold2).
    cbn [Z.eqb Pos.eqb negb].
    set (r2 := key_after_set0_factors r1 (Some lp) (Some lq)).
    assert (set_key k r2 (after_releases false (replaced_by_factors r1) m1)
            = set_key k r2
                (after_releases false
                   (replaced_by_key r (Some ld) ++ replaced_by_factors r) m))
      as Hm2.
    { unfold m1. rewrite after_releases_set_key, set_key_twice.
      rewrite after_releases_app; [reflexivity|].
      apply owned_app in Hkf as (_ & _ & Hdis).
      intros l Hin Hin'. now apply (Hdis l). }
    rewrite Hm2.
    step (RSA_set0_crt_params_reject env k _ (Some l1) (Some l2) (Some l3) _
            (keys_set_key k r2
               (after_releases false
                  (replaced_by_key r (Some ld) ++ replaced_by_factors r) m)) Hs3).
    cbn [Z.eqb negb].
    apply import_err1_run.
    apply owned_app in Hkfp as (_ & Hp & Hdis).
    apply (owned_same_bignums
             (after_releases false
                (replaced_by_key r (Some ld) ++ replaced_by_factors r) m));
      [reflexivity|].
    apply owned_after; [exact Hp|]. intros l Hin Hin'. now apply (Hdis l).
Qed.

Lemma import_accepted_run version env k r n e d p q dmp1 dmq1 iqmp m :
  OPENSSL_1_1_0 ≤ version →
  keys m !! k = Some r →
  arguments_ok (Some k) n e d p q dmp1 dmq1 iqmp = true →
  owned m (members r ++ [n; e; d; p; q; dmp1; dmq1; iqmp]) →
  accepts env d = true →
  crypto_compat_RSA_import version env (Some k) n e d p q dmp1 dmq1 iqmp m
  = Some (0, set_key k (imported_key r n e d p q dmp1 dmq1 iqmp)
               (after_releases false (replaced_by_import r d) m)).
Proof.
  intros Hver Hk Hok Hown Hacc. unfold crypto_compat_RSA_import.
  pose proof (check_arguments_spec (Some k) n e d p q dmp1 dmq1 iqmp m) as Hc.
  rewrite Hok in Hc. step Hc.
  apply Z.ltb_ge in Hver. rewrite Hver.
  destruct (owned_pieces _ _ _ _ _ _ _ _ _ _ Hown)
    as (Hargs & Hne & Hkf & Hkp & Hkfc & Hkfp & _).
  apply andb_true_iff in Hacc as [Hs1 Hrest].
  destruct (arguments_ok_inv _ _ _ _ _ _ _ _ _ Hok)
    as (_ & [ln ->] & [le ->]
        & [(-> & -> & -> & -> & -> & ->)
          |(ld & lp & lq & l1 & l2 & l3 & -> & -> & -> & -> & -> & ->)]);
    cbn [is_null orb] in *.
  - assert (owned m (map snd (replaced_by_key r None))) as Hold
      by (now apply owned_app in Hne as (Hold & _)).
    now step (RSA_set0_key_run env k r ln le None m Hk Hs1 Hold).
  - apply andb_true_iff in Hrest as [Hs2 Hs3].
    assert (owned m (map snd (replaced_by_key r (Some ld)))) as Hold
      by (now apply owned_app in Hkf as (Hold & _)).
    step (RSA_set0_key_run env k r ln le (Some ld) m Hk Hs1 Hold).
    cbn [Z.eqb Pos.eqb negb].
    set (r1 := key_after_set0_key r (Some ln) (Some le) (Some ld)).
    set (m1 := set_key k r1 (after_releases false (replaced_by_key r (Some ld)) m)).
    assert (owned m1 (map snd (replaced_by_factors r1))) as Hold2.
    { apply owned_app in Hkf as (_ & Hf & Hdis).
      apply (owned_same_bignums
               (after_releases false (replaced_by_key r (Some ld)) m));
        [reflexivity|].
      apply owned_after; [exact Hf|]. intros l Hin Hin'. now apply (Hdis l). }
    step (RSA_set0_factors_run env k r1 lp lq m1 (keys_set_key k r1 _) Hs2 Hold2).
    cbn [Z.eqb Pos.eqb negb].
    set (r2 := key_after_set0_factors r1 (Some lp) (Some lq)).
    assert (set_key k r2 (after_releases false (replaced_by_factors r1) m1)
            = set_key k r2
                (after_releases false
                   (replaced_by_key r (Some ld) ++ replaced_by_factors r) m))
      as Hm2.
    { unfold m1. rewrite after_releases_set_key, set_key_twice.
      rewrite after_releases_app; [reflexivity|].
      apply owned_app in Hkf as (_ & _ & Hdis).
      intros l Hin Hin'. now apply (Hdis l). }
    rewrite Hm2.
    set (m2 := set_key k r2 _).
    assert (owned m2 (map snd (replaced_by_crt_params r2))) as Hold3.
    { apply owned_app in Hkfc as (_ & Hf & Hdis).
      apply (owned_same_bignums
               (after_releases false
                  (replaced_by_key r (Some ld) ++ replaced_by_factors r) m));
        [reflexivity|].
      apply owned_after; [exact Hf|]. intros l Hin Hin'. now apply (Hdis l). }
    step (RSA_set0_crt_params_run env k r2 l1 l2 l3 m2 (keys_set_key k r2 _)
            Hs3 Hold3).
    cbn [Z.eqb Pos.eqb negb]. unfold ret. do 2 f_equal.
    unfold m2. rewrite after_releases_set_key, set_key_twice.
    rewrite after_releases_app; [reflexivity|].
    apply owned_app in Hkfc as (_ & _ & Hdis).
    intros l Hin Hin'. now apply (Hdis l).
Qed.

(** ** What a failed import leaves *)

Lemma call_target_call_of x : call_target (call_of x) = snd x.
Proof. now destruct x as [[] a]. Qed.

Lemma times_released_none xs l :
  Some l ∉ map snd xs → times_released l (map call_of xs) = 0%nat.
Proof.
  unfold times_released. induction xs as [|x xs IH]; cbn [map]; [reflexivity|].
  intros Hnin. rewrite filter_cons, call_target_call_of.
  rewrite not_elem_of_cons in Hnin. destruct Hnin as [Hx Hxs].
  rewrite decide_False by congruence. now apply IH.
Qed.

Lemma times_released_once xs l :
  NoDup (omap snd xs) → Some l ∈ map snd xs →
  times_released l (map call_of xs) = 1%nat.
Proof.
  unfold times_released. induction xs as [|x xs IH]; cbn [map].
  - intros _ Hin. inversion Hin.
  - intros Hnd Hin. rewrite filter_cons, call_target_call_of.
    apply elem_of_cons in Hin. cbn in Hnd.
    destruct (snd x) as [lx|] eqn:Ex.
    + apply NoDup_cons in Hnd as [Hnin Hnd]. case_decide as Hl.
      * injection Hl as ->. cbn [length]. f_equal.
        apply (times_released_none xs l). intros Hin'.
        apply Hnin. apply list_elem_of_omap.
        apply list_elem_of_fmap in Hin' as (y & Hy & Hin'). now exists y.
      * destruct Hin as [Hin|Hin]; [congruence|]. now apply IH.
    + rewrite decide_False by discriminate.
      destruct Hin as [Hin|Hin]; [discriminate|]. now apply IH.
Qed.

Lemma args_split st n e d p q dmp1 dmq1 iqmp :
  absorbed st n e d p q ++ map snd (pending st n e d p q dmp1 dmq1 iqmp)
  = [n; e; d; p; q; dmp1; dmq1; iqmp].
Proof. now destruct st. Qed.

Lemma replaced_before_members st r d a :
  a ∈ map snd (replaced_before st r d) → a ∈ members r.
Proof.
  unfold members. destruct st, (non_null d) eqn:E; cbn; unfold replaced_by_key;
    rewrite ?E; cbn; rewrite ?elem_of_cons, ?elem_of_nil; intuition.
Qed.

Lemma calls_failed_import st k r n e d p q dmp1 dmq1 iqmp m :
  calls (failed_import st k r n e d p q dmp1 dmq1 iqmp m)
  = calls m ++ map call_of (pending st n e d p q dmp1 dmq1 iqmp).
Proof. cbn. now rewrite app_nil_r. Qed.

Lemma keys_failed_import st k r n e d p q dmp1 dmq1 iqmp m :
  keys (failed_import st k r n e d p q dmp1 dmq1 iqmp m)
  = <[k := committed st r n e d p q]> (keys m).
Proof. reflexivity. Qed.

Lemma errq_failed_import st k r n e d p q dmp1 dmq1 iqmp m :
  errq (failed_import st k r n e d p q dmp1 dmq1 iqmp m) = errq m.
Proof. reflexivity. Qed.

Lemma bignums_failed_import st k r n e d p q dmp1 dmq1 iqmp m l :
  bignums (failed_import st k r n e d p q dmp1 dmq1 iqmp m) !! l
  = if decide (Some l ∈ map snd (pending st n e d p q dmp1 dmq1 iqmp))
    then None
    else if decide (Some l ∈ map snd (replaced_before st r d)) then None
         else bignums m !! l.
Proof. cbn. now rewrite !lookup_forget_all. Qed.

(** Under the ownership hypothesis a pending component is released, an
    absorbed one is kept. *)
Lemma pending_released st k r n e d p q dmp1 dmq1 iqmp m l :
  Some l ∈ map snd (pending st n e d p q dmp1 dmq1 iqmp) →
  bignums (failed_import st k r n e d p q dmp1 dmq1 iqmp m) !! l = None.
Proof. intros Hin. now rewrite bignums_failed_import, decide_True. Qed.

Lemma absorbed_not_pending m st n e d p q dmp1 dmq1 iqmp l :
  owned m [n; e; d; p; q; dmp1; dmq1; iqmp] →
  Some l ∈ absorbed st n e d p q →
  Some l ∉ map snd (pending st n e d p q dmp1 dmq1 iqmp).
Proof.
  rewrite <- (args_split st). intros (_ & _ & Hdis)%owned_app. apply Hdis.
Qed.

Lemma absorbed_kept st k r n e d p q dmp1 dmq1 iqmp m l :
  owned m (members r ++ [n; e; d; p; q; dmp1; dmq1; iqmp]) →
  Some l ∈ absorbed st n e d p q →
  bignums (failed_import st k r n e d p q dmp1 dmq1 iqmp m) !! l
  = bignums m !! l.
Proof.
  intros Hown Hin. pose proof Hown as (_ & Hargs & Hdis)%owned_app.
  rewrite bignums_failed_import.
  rewrite decide_False by now apply (absorbed_not_pending m).
  rewrite decide_False; [reflexivity|].
  intros Hin'%replaced_before_members. apply (Hdis l Hin').
  rewrite <- (args_split st). apply elem_of_app. now left.
Qed.

Lemma omap_snd (xs : list (bool * ptr)) : omap id (map snd xs) = omap snd xs.
Proof.
  induction xs as [|[c [l|]] xs IH]; cbn; [reflexivity| |assumption].
  now f_equal.
Qed.

Lemma pending_distinct m st n e d p q dmp1 dmq1 iqmp :
  owned m [n; e; d; p; q; dmp1; dmq1; iqmp] →
  NoDup (omap snd (pending st n e d p q dmp1 dmq1 iqmp)).
Proof.
  rewrite <- (args_split st). intros (_ & [Hnd _] & _)%owned_app.
  now rewrite <- omap_snd.
Qed.

Lemma new_calls_failed_import st k r n e d p q dmp1 dmq1 iqmp m :
  new_calls m (failed_import st k r n e d p q dmp1 dmq1 iqmp m)
  = map call_of (pending st n e d p q dmp1 dmq1 iqmp).
Proof.
  unfold new_calls. rewrite calls_failed_import. apply drop_app_length.
Qed.

(** ** The small key *)

Lemma toy_owned :
  owned toy_memory
    (members RSA_empty
     ++ [Some 11%positive; Some 12%positive; Some 13%positive;
         Some 14%positive; Some 15%positive; Some 16%positive;
         Some 17%positive; Some 18%positive]).
Proof.
  split.
  - cbn. apply (bool_decide_unpack _). vm_compute. exact I.
  - repeat (apply Forall_cons; split; [cbn; try exact I; eexists; reflexivity|]).
    apply Forall_nil_2.
Qed.

Example toy_import_rejected_at_factors :
  toy_import modern (rejecting [At_set0_factors]) toy_memory
  = Some (-1,
          mkMemory
            (list_to_map [(11%positive, 3233); (12%positive, 17);
                          (13%positive, 2753)])
            {[ 1%positive := mkRSA (Some 11%positive) (Some 12%positive)
                               (Some 13%positive) NULL NULL NULL NULL NULL ]}
            ∅ [] []
            [Call_BN_clear_free (Some 14%positive);
             Call_BN_clear_free (Some 15%positive);
             Call_BN_clear_free (Some 16%positive);
             Call_BN_clear_free (Some 17%positive);
             Call_BN_clear_free (Some 18%positive)]).
Proof. vm_compute. reflexivity. Qed.

Lemma committed_members st r n e d p q a :
  a ∈ members (committed st r n e d p q) →
  a ∈ absorbed st n e d p q ∨ a ∈ members r.
Proof.
  unfold members, committed, absorbed, key_after_set0_key,
    key_after_set0_factors.
  destruct st, d; cbn; rewrite ?elem_of_cons, ?elem_of_nil; tauto.
Qed.

Lemma absorbed_members st r n e d p q l :
  Some l ∈ absorbed st n e d p q →
  Some l ∈ members (committed st r n e d p q).
Proof.
  unfold members, committed, absorbed, key_after_set0_key,
    key_after_set0_factors.
  destruct st, d; cbn; rewrite ?elem_of_cons, ?elem_of_nil;
    intuition discriminate.
Qed.

(** C4, as stated, fails: when the library rejects the factors of the small
    key, the modulus, absorbed by the first transfer, is named by no release
    call, and the prime p, not absorbed, is released by the importer. *)
Lemma absorbed_components_are_not_released :
  ¬ releases_what_it_absorbed modern (rejecting [At_set0_factors])
      Stage_factors 1%positive
      (Some 11%positive) (Some 12%positive) (Some 13%positive)
      (Some 14%positive) (Some 15%positive) (Some 16%positive)
      (Some 17%positive) (Some 18%positive) toy_memory.
Proof.
  intros H.
  destruct (H _ _ toy_import_rejected_at_factors ltac:(discriminate))
    as [Habs _].
  specialize (Habs 11%positive ltac:(apply elem_of_cons; now left)).
  vm_compute in Habs. discriminate.
Qed.

(** ** Which release a component gets *)

Lemma pending_calls_fit st n e d p q dmp1 dmq1 iqmp :
  Forall (fitting_release n e d p q dmp1 dmq1 iqmp)
    (map call_of (pending st n e d p q dmp1 dmq1 iqmp)).
Proof.
  unfold fitting_release, public_components, secret_components.
  destruct st; cbn; repeat (apply Forall_cons; split); try apply Forall_nil_2;
    first [ left; eexists; split; [reflexivity|];
            rewrite !elem_of_cons; tauto
          | right; eexists; split; [reflexivity|];
            rewrite !elem_of_cons; tauto ].
Qed.

Lemma public_not_secret m n e d p q dmp1 dmq1 iqmp l :
  owned m [n; e; d; p; q; dmp1; dmq1; iqmp] →
  Some l ∈ public_components n e →
  Some l ∉ secret_components d p q dmp1 dmq1 iqmp.
Proof.
  intros (_ & _ & Hdis)%(owned_app m [n; e] [d; p; q; dmp1; dmq1; iqmp]).
  apply Hdis.
Qed.

Lemma secret_pending_cleared st n e d p q dmp1 dmq1 iqmp l :
  Some l ∈ secret_components d p q dmp1 dmq1 iqmp →
  Some l ∈ map snd (pending st n e d p q dmp1 dmq1 iqmp) →
  Call_BN_clear_free (Some l)
  ∈ map call_of (pending st n e d p q dmp1 dmq1 iqmp).
Proof.
  unfold secret_components.
  destruct st; cbn; rewrite !elem_of_cons, ?elem_of_nil;
    intuition (subst; auto 10).
Qed.

Lemma plain_calls_public st n e d p q dmp1 dmq1 iqmp a :
  Call_BN_free a ∈ map call_of (pending st n e d p q dmp1 dmq1 iqmp) →
  st = Stage_key ∧ a ∈ public_components n e.
Proof.
  unfold public_components.
  destruct st; cbn; rewrite !elem_of_cons, ?elem_of_nil;
    intuition (try discriminate; try congruence).
Qed.

Lemma clearing_calls_secret st n e d p q dmp1 dmq1 iqmp a :
  Call_BN_clear_free a ∈ map call_of (pending st n e d p q dmp1 dmq1 iqmp) →
  a ∈ secret_components d p q dmp1 dmq1 iqmp.
Proof.
  unfold secret_components.
  destruct st; cbn; rewrite !elem_of_cons, ?elem_of_nil;
    intuition (try discriminate; try congruence).
Qed.

Lemma value_at_same_bignums m m' a :
  bignums m' = bignums m → value_at m' a = value_at m a.
Proof. intros E. destruct a; cbn; [now rewrite E|reflexivity]. Qed.

(** Only a plain release leaves a value behind. *)
Lemma elem_of_spilled m xs v :
  v ∈ concat (map (spill m) xs) →
  ∃ a, (false, a) ∈ xs ∧ value_at m a = Some v.
Proof.
  induction xs as [|[c a] xs IH]; cbn.
  - intros H. inversion H.
  - rewrite elem_of_app. intros [H|H].
    + unfold spill in H. cbn in H. destruct c; [inversion H|].
      destruct (value_at m a) as [w|] eqn:E; [|inversion H].
      apply elem_of_cons in H as [->|H]; [|inversion H].
      exists a. split; [apply elem_of_cons; now left|assumption].
    + destruct (IH H) as (a' & Hin & E). exists a'.
      split; [apply elem_of_cons; now right|assumption].
Qed.

(** Whatever a failed import leaves readable in released storage was there
    before or is the value of a public component: the modulus or exponent
    supplied, or the modulus or exponent the key held before. *)
Lemma residue_failed_import st k r n e d p q dmp1 dmq1 iqmp m v :
  v ∈ residue (failed_import st k r n e d p q dmp1 dmq1 iqmp m) →
  v ∈ residue m
  ∨ Some v ∈ map (value_at m) [n; e; rsa_n r; rsa_e r].
Proof.
  unfold failed_import. cbn [residue after_releases set_key with_keys].
  rewrite !elem_of_app. intros [[Hv|Hv]|Hv]; [now left| |]; right;
    apply elem_of_spilled in Hv as (a & Hin & E).
  - assert (a = rsa_n r ∨ a = rsa_e r) as [-> | ->].
    { unfold replaced_before, replaced_by_key, replaced_by_factors in Hin.
      destruct st, d; cbn in Hin;
        rewrite ?elem_of_cons, ?elem_of_nil in Hin;
        intuition congruence. }
    all: rewrite <- E; cbn [map]; rewrite !elem_of_cons; tauto.
  - assert (st = Stage_key ∧ (a = n ∨ a = e)) as [-> Ha].
    { unfold pending, released_at_err3, released_at_err2, released_at_err1
        in Hin.
      destruct st; cbn in Hin;
        rewrite ?elem_of_cons, ?elem_of_nil in Hin;
        intuition congruence. }
    rewrite (value_at_same_bignums m) in E by reflexivity.
    destruct Ha as [->| ->]; rewrite <- E; cbn [map]; rewrite !elem_of_cons;
      tauto.
Qed.

Lemma dead_is_pending st k r n e d p q dmp1 dmq1 iqmp m l :
  owned m (members r ++ [n; e; d; p; q; dmp1; dmq1; iqmp]) →
  Some l ∈ [n; e; d; p; q; dmp1; dmq1; iqmp] →
  bignums (failed_import st k r n e d p q dmp1 dmq1 iqmp m) !! l = None →
  Some l ∈ map snd (pending st n e d p q dmp1 dmq1 iqmp).
Proof.
  intros Hown Hl Hdead. pose proof Hown as (_ & [_ Hlive] & _)%owned_app.
  rewrite Forall_forall in Hlive. specialize (Hlive (Some l) Hl) as [v Hv].
  rewrite <- (args_split st) in Hl. apply elem_of_app in Hl as [Hl|Hl];
    [|assumption].
  rewrite (absorbed_kept st k r n e d p q dmp1 dmq1 iqmp m l Hown Hl) in Hdead.
  congruence.
Qed.

Lemma public_pending_plain st n e d p q dmp1 dmq1 iqmp l :
  Some l ∈ public_components n e →
  Some l ∈ map snd (pending st n e d p q dmp1 dmq1 iqmp) →
  Some l ∉ secret_components d p q dmp1 dmq1 iqmp →
  Call_BN_free (Some l) ∈ map call_of (pending st n e d p q dmp1 dmq1 iqmp).
Proof.
  unfold public_components, secret_components.
  destruct st; cbn; rewrite !elem_of_cons, ?elem_of_nil;
    intuition (subst; auto 10).
Qed.

(** ** A rejected import

    The three properties of the failure path share their setting: the
    accessor generation, a live key handle [k] holding [r], arguments that
    pass the sanity checks, former members and components owned one by one,
    and a library that rejects the transfer [st] after accepting the ones
    before it. *)
Section RejectedImport.

Variables (version : Z) (env : environment) (st : stage).
Variables (k : positive) (r : RSA) (n e d p q dmp1 dmq1 iqmp : ptr).
Variable m : memory.

Hypothesis Hver : OPENSSL_1_1_0 ≤ version.
Hypothesis Hk : keys m !! k = Some r.
Hypothesis Hok : arguments_ok (Some k) n e d p q dmp1 dmq1 iqmp = true.
Hypothesis Hown : owned m (members r ++ [n; e; d; p; q; dmp1; dmq1; iqmp]).
Hypothesis Hfail : fails_at env st = true.
Hypothesis Hst : st = Stage_key ∨ d ≠ None.

(** C3.  In the accessor generation, when the library rejects the transfer
    [st] of an import (the transfers before it accepted), the importer
    returns the single failure result -1; its release calls are exactly those
    of the components of the transfers from [st] on, in order, each such
    component being named by one call and dead afterwards; the components of
    the transfers before [st] are named by no call and keep their values; the
    key handle is still live and holds the effects of the transfers before
    [st], and no other handle changes. *)
Theorem import_failure_releases_pending :
  ∃ m' released,
    crypto_compat_RSA_import version env (Some k) n e d p q dmp1 dmq1 iqmp m
    = Some (-1, m')
    ∧ calls m' = calls m ++ released
    ∧ released = map call_of (pending st n e d p q dmp1 dmq1 iqmp)
    ∧ (∀ l, Some l ∈ map snd (pending st n e d p q dmp1 dmq1 iqmp) →
            times_released l released = 1%nat ∧ bignums m' !! l = None)
    ∧ (∀ l, Some l ∈ absorbed st n e d p q →
            times_released l released = 0%nat
            ∧ bignums m' !! l = bignums m !! l)
    ∧ keys m' !! k = Some (committed st r n e d p q)
    ∧ (∀ k', k' ≠ k → keys m' !! k' = keys m !! k').
Proof.
  exists (failed_import st k r n e d p q dmp1 dmq1 iqmp m),
         (map call_of (pending st n e d p q dmp1 dmq1 iqmp)).
  pose proof Hown as (_ & Hargs & _)%owned_app.
  split; [now apply import_fails_run|].
  split; [apply calls_failed_import|]. split; [reflexivity|].
  split; [|split; [|split]].
  - intros l Hin. split; [|now apply pending_released].
    apply times_released_once; [now apply (pending_distinct m)|assumption].
  - intros l Hin. split; [|now apply absorbed_kept].
    apply times_released_none. now apply (absorbed_not_pending m).
  - rewrite keys_failed_import. apply lookup_insert_eq.
  - intros k' Hne. rewrite keys_failed_import. now apply lookup_insert_ne.
Qed.

(** C4, amended.  In the accessor generation, when the library rejects the
    transfer [st] of an import, the importer returns -1 and leaves the key
    handle live; every supplied component is then in exactly one of two
    states: absorbed by a transfer before [st], a member of the key, live
    with its value and named by no release call of the importer; or not yet
    absorbed, not a member of the key, named by exactly one release call and
    dead.  So nothing is released twice and nothing is left without an
    owner. *)
Theorem import_failure_leaves_no_leak :
  ∃ m' r',
    crypto_compat_RSA_import version env (Some k) n e d p q dmp1 dmq1 iqmp m
    = Some (-1, m')
    ∧ keys m' !! k = Some r'
    ∧ ∀ l, Some l ∈ [n; e; d; p; q; dmp1; dmq1; iqmp] →
        (Some l ∈ absorbed st n e d p q
         ∧ Some l ∈ members r'
         ∧ times_released l (new_calls m m') = 0%nat
         ∧ bignums m' !! l = bignums m !! l
         ∧ is_Some (bignums m' !! l))
        ∨ (Some l ∈ map snd (pending st n e d p q dmp1 dmq1 iqmp)
           ∧ (Some l ∉ members r')
           ∧ times_released l (new_calls m m') = 1%nat
           ∧ bignums m' !! l = None).
Proof.
  exists (failed_import st k r n e d p q dmp1 dmq1 iqmp m),
         (committed st r n e d p q).
  pose proof Hown as (_ & Hargs & Hdis)%owned_app.
  split; [now apply import_fails_run|].
  split; [rewrite keys_failed_import; apply lookup_insert_eq|].
  intros l Hl. rewrite new_calls_failed_import.
  rewrite <- (args_split st) in Hl. apply elem_of_app in Hl as [Hl|Hl].
  - left. split; [assumption|]. split; [now apply absorbed_members|].
    split; [apply times_released_none; now apply (absorbed_not_pending m)|].
    rewrite (absorbed_kept st k r n e d p q dmp1 dmq1 iqmp m l Hown Hl).
    split; [reflexivity|].
    destruct Hargs as [_ Hlive]. rewrite Forall_forall in Hlive.
    apply (Hlive (Some l)). rewrite <- (args_split st).
    apply elem_of_app. now left.
  - right. split; [assumption|]. split; [|split].
    + intros [Hin|Hin]%committed_members.
      * now apply (absorbed_not_pending m st n e d p q dmp1 dmq1 iqmp l).
      * apply (Hdis l Hin). rewrite <- (args_split st).
        apply elem_of_app. now right.
    + apply times_released_once; [now apply (pending_distinct m)|assumption].
    + now apply pending_released.
Qed.

(** C10.  In the accessor generation, on every failure of an import: each
    release call the importer makes is [BN_free] on the modulus or the public
    exponent, or [BN_clear_free] on one of the six secret components; no
    secret component is the argument of a [BN_free], and each one the
    importer released was released by [BN_clear_free]; the public components
    it released were released by [BN_free]; and no value of a secret
    component is left readable in released storage. *)
Theorem import_failure_clears_secrets :
  ∃ m',
    crypto_compat_RSA_import version env (Some k) n e d p q dmp1 dmq1 iqmp m
    = Some (-1, m')
    ∧ Forall (fitting_release n e d p q dmp1 dmq1 iqmp) (new_calls m m')
    ∧ (∀ l, Some l ∈ secret_components d p q dmp1 dmq1 iqmp →
            (Call_BN_free (Some l) ∉ new_calls m m')
            ∧ (bignums m' !! l = None →
               Call_BN_clear_free (Some l) ∈ new_calls m m'))
    ∧ (∀ l, Some l ∈ public_components n e →
            (Call_BN_clear_free (Some l) ∉ new_calls m m')
            ∧ (bignums m' !! l = None →
               Call_BN_free (Some l) ∈ new_calls m m'))
    ∧ (∀ v, v ∈ residue m' →
            v ∈ residue m
            ∨ Some v ∈ map (value_at m) [n; e; rsa_n r; rsa_e r]).
Proof.
  exists (failed_import st k r n e d p q dmp1 dmq1 iqmp m).
  pose proof Hown as (_ & Hargs & _)%owned_app.
  split; [now apply import_fails_run|].
  rewrite new_calls_failed_import.
  split; [apply pending_calls_fit|]. split; [|split].
  - intros l Hl. split.
    + intros [_ Hpub]%plain_calls_public.
      now apply (public_not_secret m n e d p q dmp1 dmq1 iqmp l).
    + intros Hdead. apply secret_pending_cleared; [assumption|].
      apply (dead_is_pending st k r n e d p q dmp1 dmq1 iqmp m l);
        [assumption| |assumption].
      unfold secret_components in Hl. rewrite !elem_of_cons in *. tauto.
  - intros l Hl. split.
    + intros Hsec%clearing_calls_secret.
      now apply (public_not_secret m n e d p q dmp1 dmq1 iqmp l).
    + intros Hdead. apply public_pending_plain; [assumption| |].
      * apply (dead_is_pending st k r n e d p q dmp1 dmq1 iqmp m l);
          [assumption| |assumption].
        unfold public_components in Hl. rewrite !elem_of_cons in *. tauto.
      * now apply (public_not_secret m n e d p q dmp1 dmq1 iqmp l).
  - apply residue_failed_import.
Qed.

End RejectedImport.

(** ** Import followed by export *)

Lemma write_all_other ws cs c :
  Some c ∉ map fst ws → write_all ws cs !! c = cs !! c.
Proof.
  unfold write_all. revert cs. induction ws as [|[s v] ws IH]; intros cs; cbn.
  - reflexivity.
  - rewrite not_elem_of_cons. intros [Hne Hnin]. rewrite IH by assumption.
    destruct s as [c'|]; [|reflexivity].
    apply lookup_insert_ne. congruence.
Qed.

Lemma write_all_lookup ws cs c v :
  NoDup (omap fst ws) → (Some c, v) ∈ ws → write_all ws cs !! c = Some v.
Proof.
  revert cs. induction ws as [|[s w] ws IH]; intros cs Hnd Hin.
  - inversion Hin.
  - apply elem_of_cons in Hin as [[= <- <-]|Hin].
    + cbn in Hnd. apply NoDup_cons in Hnd as [Hnin _].
      change (write_all ((Some c, v) :: ws) cs)
        with (write_all ws (<[c := v]> cs)).
      rewrite write_all_other; [apply lookup_insert_eq|].
      intros Hin. apply Hnin. apply list_elem_of_omap.
      apply list_elem_of_fmap in Hin as (y & Hy & Hin). now exists y.
    + change (write_all ((s, w) :: ws) cs)
        with (write_all ws (match s with
                            | Some c' => <[c' := w]> cs
                            | None => cs
                            end)).
      apply IH; [|assumption].
      cbn in Hnd. destruct s; [now apply NoDup_cons in Hnd as [_ Hnd]|assumption].
Qed.

Lemma not_accepted_fails env d :
  accepts env d = false →
  ∃ st, fails_at env st = true ∧ (st = Stage_key ∨ d ≠ None).
Proof.
  unfold accepts.
  destruct (succeeds env At_set0_key) eqn:E1; cbn.
  - destruct d as [ld|]; cbn; [|discriminate].
    destruct (succeeds env At_set0_factors) eqn:E2; cbn.
    + intros E3. exists Stage_crt_params. cbn. rewrite E1, E2, E3.
      split; [reflexivity|]. right. discriminate.
    + intros _. exists Stage_factors. cbn. rewrite E1, E2.
      split; [reflexivity|]. right. discriminate.
  - intros _. exists Stage_key. cbn. rewrite E1. split; [reflexivity|now left].
Qed.

(** An import that returned passed the sanity checks. *)
Lemma import_checked version env key n e d p q dmp1 dmq1 iqmp m res m' :
  crypto_compat_RSA_import version env key n e d p q dmp1 dmq1 iqmp m
  = Some (res, m') →
  arguments_ok key n e d p q dmp1 dmq1 iqmp = true.
Proof.
  unfold crypto_compat_RSA_import. intros (u & m1 & Hc & _)%bind_inv.
  rewrite check_arguments_spec in Hc.
  now destruct (arguments_ok key n e d p q dmp1 dmq1 iqmp).
Qed.

(** The memory after an import that returned success, in either
    generation. *)
Lemma import_success_inv version env k r n e d p q dmp1 dmq1 iqmp m m1 :
  keys m !! k = Some r →
  (OPENSSL_1_1_0 ≤ version →
   owned m (members r ++ [n; e; d; p; q; dmp1; dmq1; iqmp])) →
  crypto_compat_RSA_import version env (Some k) n e d p q dmp1 dmq1 iqmp m
  = Some (0, m1) →
  keys m1 !! k = Some (imported_key r n e d p q dmp1 dmq1 iqmp)
  ∧ cells m1 = cells m
  ∧ ∀ a, a ∈ [n; e; d; p; q; dmp1; dmq1; iqmp] → value_at m1 a = value_at m a.
Proof.
  intros Hk Hown Himp. pose proof (import_checked _ _ _ _ _ _ _ _ _ _ _ _ _ _ Himp) as Hok.
  destruct (Z.lt_ge_cases version OPENSSL_1_1_0) as [Hver|Hver].
  - rewrite (import_field_run version env k r n e d p q dmp1 dmq1 iqmp m Hver Hk Hok)
      in Himp.
    injection Himp as <-. split; [apply keys_set_key|]. split; reflexivity.
  - specialize (Hown Hver). destruct (accepts env d) eqn:Hacc.
    + rewrite (import_accepted_run version env k r n e d p q dmp1 dmq1 iqmp m
                 Hver Hk Hok Hown Hacc) in Himp.
      injection Himp as <-. split; [apply keys_set_key|]. split; [reflexivity|].
      intros [l|] Ha; [|reflexivity]. cbn. rewrite lookup_forget_all.
      rewrite decide_False; [reflexivity|].
      apply owned_app in Hown as (_ & _ & Hdis).
      intros Hin. apply (Hdis l); [|assumption].
      clear -Hin. unfold replaced_by_import, replaced_by_key, members in *.
      destruct (non_null d); cbn in Hin;
        rewrite ?elem_of_cons, ?elem_of_nil in *; tauto.
    + destruct (not_accepted_fails env d Hacc) as (st & Hfail & Hst).
      rewrite (import_fails_run version env st k r n e d p q dmp1 dmq1 iqmp m
                 Hver Hk Hok Hown Hfail Hst) in Himp.
      discriminate.
Qed.

(** C2.  Whatever was imported with success into a live key handle comes back
    from an export on that handle: the slots for the modulus and the public
    exponent hold the pointers imported and, after a private import, so do
    the six private slots when they are supplied; every such [BIGNUM] has the
    value it had before the import.  The slots are distinct variables; in
    the accessor generation, where the library releases what it replaces, the
    former members of the key and the components are owned one by one. *)
Theorem import_export_round_trip
    version env k r n e d p q dmp1 dmq1 iqmp m m1 sn se sd sp sq s1 s2 s3 :
  keys m !! k = Some r →
  (OPENSSL_1_1_0 ≤ version →
   owned m (members r ++ [n; e; d; p; q; dmp1; dmq1; iqmp])) →
  crypto_compat_RSA_import version env (Some k) n e d p q dmp1 dmq1 iqmp m
  = Some (0, m1) →
  arguments_ok (Some k) sn se sd sp sq s1 s2 s3 = true →
  NoDup (omap id [sn; se; sd; sp; sq; s1; s2; s3]) →
  ∃ m2,
    crypto_compat_RSA_export version (Some k) sn se sd sp sq s1 s2 s3 m1
    = Some (0, m2)
    ∧ returned m m2 sn n
    ∧ returned m m2 se e
    ∧ (d ≠ None → sd ≠ None →
       returned m m2 sd d ∧ returned m m2 sp p ∧ returned m m2 sq q
       ∧ returned m m2 s1 dmp1 ∧ returned m m2 s2 dmq1
       ∧ returned m m2 s3 iqmp).
Proof.
  intros Hk Hown Himp Hslots Hnd.
  destruct (import_success_inv _ _ _ _ _ _ _ _ _ _ _ _ _ _ Hk Hown Himp)
    as (Hk1 & Hcells & Hval).
  set (r' := imported_key r n e d p q dmp1 dmq1 iqmp) in *.
  exists (with_cells (write_all (export_writes r' sn se sd sp sq s1 s2 s3)) m1).
  split; [exact (export_run version k r' _ _ _ _ _ _ _ _ m1 Hk1 Hslots)|].
  assert (∀ slot a c,
            slot = Some c → a ∈ [n; e; d; p; q; dmp1; dmq1; iqmp] →
            (slot, a) ∈ export_writes r' sn se sd sp sq s1 s2 s3 →
            returned m
              (with_cells (write_all (export_writes r' sn se sd sp sq s1 s2 s3)) m1)
              slot a) as Hret.
  { intros slot a c -> Ha Hin.
    split; [|rewrite <- (Hval a Ha); now destruct a].
    unfold cell_at, with_cells. cbn [cells].
    apply write_all_lookup; [|exact Hin].
    clear -Hslots Hnd. unfold export_writes.
    destruct (arguments_ok_inv _ _ _ _ _ _ _ _ _ Hslots)
      as (_ & [cn ->] & [ce ->]
          & [(-> & -> & -> & -> & -> & ->)
            |(cd & cp & cq & c1 & c2 & c3 & -> & -> & -> & -> & -> & ->)]);
      exact Hnd. }
  assert (rsa_n r' = n ∧ rsa_e r' = e) as [Hn He]
    by (unfold r', imported_key; now destruct d).
  destruct (arguments_ok_inv _ _ _ _ _ _ _ _ _ Hslots)
    as (_ & [cn ->] & [ce ->] & Hpriv).
  split; [|split].
  - apply (Hret _ _ cn eq_refl); [rewrite !elem_of_cons; tauto|].
    unfold export_writes. rewrite Hn. apply elem_of_app. left.
    apply elem_of_cons. now left.
  - apply (Hret _ _ ce eq_refl); [rewrite !elem_of_cons; tauto|].
    unfold export_writes. rewrite He. apply elem_of_app. left.
    rewrite !elem_of_cons. tauto.
  - intros Hd Hsd.
    destruct Hpriv as [(-> & _)|(cd & cp & cq & c1 & c2 & c3
                                 & -> & -> & -> & -> & -> & ->)];
      [congruence|].
    assert (r' = mkRSA n e d p q dmp1 dmq1 iqmp) as Hr'
      by (unfold r', imported_key; now destruct d).
    repeat split;
      (eapply Hret; [reflexivity|rewrite !elem_of_cons; tauto|]);
      unfold export_writes; rewrite Hr'; cbn;
      rewrite !elem_of_cons; tauto.
Qed.

(** ** Generation *)

Lemma fresh_dead {A} (h : gmap positive A) : h !! fresh (dom h) = None.
Proof. apply not_elem_of_dom. apply is_fresh. Qed.

Lemma alloc_all_spec vs h :
  Forall2 (allocated h (snd (alloc_all vs h))) (fst (alloc_all vs h)) vs
  ∧ NoDup (omap id (fst (alloc_all vs h)))
  ∧ (∀ l, Some l ∉ fst (alloc_all vs h) →
          snd (alloc_all vs h) !! l = h !! l).
Proof.
  revert h. induction vs as [|v vs IH]; intros h; cbn [alloc_all].
  - cbn. repeat split; [constructor|constructor].
  - destruct v as [z|]; cbn [alloc_one].
    + set (l := fresh (dom h)). specialize (IH (<[l := z]> h)).
      destruct (alloc_all vs (<[l := z]> h)) as [ps h'] eqn:E.
      cbn [fst snd] in *. destruct IH as (Hall & Hnd & Hout).
      assert (Some l ∉ ps) as Hl.
      { intros Hin. apply list_elem_of_lookup in Hin as [i Hi].
        destruct (Forall2_lookup_l _ _ _ _ _ Hall Hi) as ([z'|] & _ & Ha);
          cbn in Ha; [|contradiction].
        destruct Ha as [Ha _]. now rewrite lookup_insert_eq in Ha. }
      split; [|split].
      * constructor.
        -- cbn. split; [apply fresh_dead|].
           rewrite Hout by assumption. apply lookup_insert_eq.
        -- eapply Forall2_impl; [exact Hall|].
           intros [x|] [w|]; cbn; try tauto. intros [Hx Hw].
           split; [|assumption].
           destruct (decide (l = x)) as [->|Hne];
             [now rewrite lookup_insert_eq in Hx
             |now rewrite lookup_insert_ne in Hx].
      * cbn. apply NoDup_cons. split; [|assumption].
        intros Hin. apply Hl. apply list_elem_of_omap in Hin as ([x|] & Hx & [= ->]).
        assumption.
      * intros x Hx. rewrite not_elem_of_cons in Hx. destruct Hx as [Hne Hx].
        rewrite Hout by assumption. apply lookup_insert_ne. congruence.
    + specialize (IH h). destruct (alloc_all vs h) as [ps h'] eqn:E.
      cbn [fst snd] in *. destruct IH as (Hall & Hnd & Hout).
      split; [|split].
      * constructor; [exact I|assumption].
      * assumption.
      * intros x Hx. rewrite not_elem_of_cons in Hx. now apply Hout.
Qed.

Lemma set_bignums_twice h1 h2 m :
  set_bignums h2 (set_bignums h1 m) = set_bignums h2 m.
Proof. reflexivity. Qed.

Lemma set_bignums_same m : set_bignums (bignums m) m = m.
Proof. now destruct m. Qed.

Lemma alloc_all_cons v vs h :
  alloc_all (v :: vs) h
  = (fst (alloc_one v h) :: fst (alloc_all vs (snd (alloc_one v h))),
     snd (alloc_all vs (snd (alloc_one v h)))).
Proof.
  cbn [alloc_all]. destruct (alloc_one v h) as [a h1]. cbn [fst snd].
  now destruct (alloc_all vs h1).
Qed.

Lemma fill_member_null_run v m :
  fill_member None v m
  = Some (fst (alloc_one v (bignums m)),
          set_bignums (snd (alloc_one v (bignums m))) m).
Proof.
  destruct v as [z|]; cbn; [reflexivity|]. unfold ret.
  now rewrite set_bignums_same.
Qed.

(** One member filled in a memory whose store was just set. *)
Ltac fill_next :=
  match goal with
  | |- context [bind (fill_member None ?v) ?cont (set_bignums ?h ?m)] =>
      rewrite (bind_run _ cont _ _ _ (fill_member_null_run v (set_bignums h m)));
      cbv beta; rewrite set_bignums_twice;
      change (bignums (set_bignums h m)) with h
  end.

Lemma fill_key_empty_run k c m :
  keys m !! k = Some RSA_empty →
  fill_key (Some k) c m
  = Some (tt, set_key k (key_of (fst (alloc_all (values c) (bignums m))))
                (set_bignums (snd (alloc_all (values c) (bignums m))) m)).
Proof.
  intros Hk. unfold fill_key. step (load_key_run _ _ _ Hk).
  cbn [RSA_empty rsa_n rsa_e rsa_d rsa_p rsa_q rsa_dmp1 rsa_dmq1 rsa_iqmp].
  rewrite <- (set_bignums_same m) at 1.
  repeat fill_next.
  unfold values. rewrite !alloc_all_cons. cbn [alloc_all fst snd key_of].
  apply store_key_run with RSA_empty. exact Hk.
Qed.

Lemma rsa_release_run k r m :
  keys m !! k = Some r →
  owned m (members r) →
  rsa_release (Some k) m
  = Some (tt, with_keys (delete k)
                (after_releases false (released_with_key r) m)).
Proof.
  intros Hk Hown. unfold rsa_release. step (load_key_run _ _ _ Hk).
  transitivity ((release_seq false (released_with_key r) ;;
                 modify (with_keys (delete k))) m).
  - unfold released_with_key, release_seq, release_one, bind, ret.
    cbn; destruct_runs; reflexivity.
  - now step (release_seq_run false (released_with_key r) m Hown).
Qed.

Lemma warn_library_error_run env m :
  warn_library_error env m = Some (tt, warned env m).
Proof.
  unfold warn_library_error, warned, ERR_get_error, warn0, log, modify, bind.
  destruct m as [h ks cs [|c q] rs ls]; reflexivity.
Qed.

Lemma BN_free_run a m :
  releasable m a →
  BN_free a m = Some (tt, after_releases true [(false, a)] m).
Proof. intros H. now apply (release_one_run true (false, a)). Qed.

Lemma RSA_free_run k r m :
  keys m !! k = Some r →
  owned m (members r) →
  RSA_free (Some k) m
  = Some (tt, with_keys (delete k)
                (after_releases false (released_with_key r)
                   (with_calls (λ l, l ++ [Call_RSA_free (Some k)]) m))).
Proof.
  intros Hk Hown. unfold RSA_free, log.
  step (eq_refl : modify (with_calls (λ l, l ++ [Call_RSA_free (Some k)])) m
                  = Some (tt, _)).
  apply rsa_release_run; [exact Hk|].
  now apply (owned_same_bignums m).
Qed.

Lemma alloc_all_length vs h : length (fst (alloc_all vs h)) = length vs.
Proof.
  destruct (alloc_all_spec vs h) as (Hall & _). now apply Forall2_length in Hall.
Qed.

Lemma members_key_of ps : length ps = 8%nat → members (key_of ps) = ps.
Proof.
  do 9 (destruct ps as [|? ps]; try discriminate). reflexivity.
Qed.

Lemma alloc_all_owned vs h m :
  bignums m = snd (alloc_all vs h) → owned m (fst (alloc_all vs h)).
Proof.
  intros E. destruct (alloc_all_spec vs h) as (Hall & Hnd & _).
  split; [assumption|]. rewrite Forall_forall. intros [l|] Hin; cbn; [|trivial].
  apply list_elem_of_lookup in Hin as [i Hi].
  destruct (Forall2_lookup_l _ _ _ _ _ Hall Hi) as ([z|] & _ & Ha);
    cbn in Ha; [|contradiction].
  rewrite E. destruct Ha as [_ ->]. now eexists.
Qed.

(** The store before generation is the store after it without the new
    members. *)
Lemma forget_allocated vs h :
  forget_all (fst (alloc_all vs h)) (snd (alloc_all vs h)) = h.
Proof.
  destruct (alloc_all_spec vs h) as (Hall & _ & Hout).
  apply map_eq. intros l. rewrite lookup_forget_all. case_decide as Hin.
  - apply list_elem_of_lookup in Hin as [i Hi].
    destruct (Forall2_lookup_l _ _ _ _ _ Hall Hi) as ([z|] & _ & Ha);
      cbn in Ha; [|contradiction].
    now destruct Ha as [-> _].
  - now apply Hout.
Qed.

Lemma RSA_generate_key_ex_run env k le ev bits ok c m :
  keys m !! k = Some RSA_empty →
  bignums m !! le = Some ev →
  keygen env bits ev = (ok, c) →
  RSA_generate_key_ex env (Some k) bits (Some le) m
  = Some (if ok then 1 else 0, generated env k ok c m).
Proof.
  intros Hk He Hgen. unfold RSA_generate_key_ex.
  step (load_bn_run _ _ _ He). rewrite Hgen.
  step (fill_key_empty_run k c m Hk).
  unfold generated. now destruct ok.
Qed.

Lemma RSA_new_run env m :
  succeeds env At_RSA_new = true →
  RSA_new env m = Some (Some (fresh_key m), with_fresh_key m).
Proof. intros H. unfold RSA_new. now rewrite H. Qed.

Lemma RSA_generate_key_run env bits e ok c m :
  succeeds env At_RSA_new = true →
  keygen env bits e = (ok, c) →
  RSA_generate_key env bits e m
  = Some (if ok then Some (fresh_key m) else NULL,
          if ok then generated env (fresh_key m) true c (with_fresh_key m)
          else with_keys (delete (fresh_key m))
                 (after_releases false
                    (released_with_key
                       (key_of (fst (alloc_all (values c) (bignums m)))))
                    (generated env (fresh_key m) false c (with_fresh_key m)))).
Proof.
  intros Hrsa Hgen. unfold RSA_generate_key.
  step (RSA_new_run env m Hrsa).
  cbn [is_null]. rewrite Hgen.
  assert (keys (with_fresh_key m) !! fresh_key m = Some RSA_empty) as Hk
    by apply lookup_insert_eq.
  step (fill_key_empty_run (fresh_key m) c _ Hk).
  destruct ok; [reflexivity|].
  step (raise_error_run env At_generate
          (set_key (fresh_key m)
             (key_of (fst (alloc_all (values c) (bignums m))))
             (set_bignums (snd (alloc_all (values c) (bignums m)))
                (with_fresh_key m)))).
  change (with_errq _ (set_key (fresh_key m) _ _))
    with (generated env (fresh_key m) false c (with_fresh_key m)).
  assert (rsa_release (Some (fresh_key m))
            (generated env (fresh_key m) false c (with_fresh_key m))
          = Some (tt, with_keys (delete (fresh_key m))
                        (after_releases false
                           (released_with_key
                              (key_of (fst (alloc_all (values c) (bignums m)))))
                           (generated env (fresh_key m) false c
                              (with_fresh_key m))))) as Hrel.
  { apply rsa_release_run; [apply lookup_insert_eq|].
    rewrite members_key_of by apply alloc_all_length.
    now apply alloc_all_owned. }
  now step Hrel.
Qed.

Lemma RSA_new_fail_run env m :
  succeeds env At_RSA_new = false →
  RSA_new env m = Some (NULL, rejected env At_RSA_new m).
Proof. intros H. unfold RSA_new. now rewrite H. Qed.

Lemma RSA_generate_key_fail_run env bits e m :
  succeeds env At_RSA_new = false →
  RSA_generate_key env bits e m = Some (NULL, rejected env At_RSA_new m).
Proof.
  intros H. unfold RSA_generate_key. now step (RSA_new_fail_run env m H).
Qed.

(** ** What generation returns *)

Lemma new_calls_app m m' cs : calls m' = calls m ++ cs → new_calls m m' = cs.
Proof. intros E. unfold new_calls. rewrite E. apply drop_app_length. Qed.

Lemma queue_at_failure_oldest version env s m :
  version < OPENSSL_0_9_8 →
  queue_at_failure version env s m = errq m ++ fault_codes env s.
Proof.
  intros Hver. unfold queue_at_failure, unchecked_errors.
  replace (OPENSSL_0_9_8 <=? version) with false
    by (symmetry; apply Z.leb_gt; lia).
  now destruct s.
Qed.

Lemma generate_oldest_outcome version env m :
  version < OPENSSL_0_9_8 →
  ∃ key m',
    crypto_compat_RSA_generate_key version env m = Some (key, m')
    ∧ match generation_failure version env with
      | Some s => failure_outcome version env s m key m'
      | None => success_outcome version env m key m'
      end.
Proof.
  intros Hver.
  unfold crypto_compat_RSA_generate_key, generation_failure, success_outcome,
    failure_outcome.
  unfold exponent_given, unchecked_errors.
  pose proof Hver as Hver'%Z.ltb_lt. rewrite Hver'.
  replace (OPENSSL_0_9_8 <=? version) with false by (symmetry; apply Z.leb_gt; lia).
  cbn [andb].
  destruct (succeeds env At_RSA_new) eqn:Hrsa; cbn [negb].
  - destruct (keygen env 2048 65537) as [ok c] eqn:Hgen. cbn [fst snd].
    step (RSA_generate_key_run env 2048 65537 ok c m Hrsa Hgen).
    destruct ok; cbn [negb is_null].
    + eexists _, _. split; [reflexivity|].
      exists (fresh_key m), (key_of (fst (alloc_all (values c) (bignums m)))).
      destruct (alloc_all_spec (values c) (bignums m)) as (Hall & Hnd & Hout).
      rewrite members_key_of by apply alloc_all_length.
      split; [reflexivity|]. split; [reflexivity|].
      split; [apply fresh_dead|].
      split; [cbn; apply insert_insert_eq|].
      split; [exact Hall|]. split; [exact Hout|].
      split; [symmetry; apply app_nil_r|].
      intros msg. unfold new_calls. cbn. rewrite drop_all. apply not_elem_of_nil.
    + match goal with
      | |- context [bind (warn_library_error env) _ ?m0] =>
          step (warn_library_error_run env m0)
      end.
      eexists _, _. split; [reflexivity|]. split; [reflexivity|].
      rewrite !(queue_at_failure_oldest version env _ m Hver).
      split; [|split; [|split]].
      * unfold generated, with_fresh_key.
        cbn [bignums with_keys after_releases rejected with_errq set_key
               set_bignums with_bignums with_calls warned].
        change (map snd (released_with_key ?r)) with (members r).
        rewrite members_key_of by apply alloc_all_length.
        apply forget_allocated.
      * cbn. rewrite insert_insert_eq. apply delete_insert_id.
        apply fresh_dead.
      * reflexivity.
      * eexists. apply new_calls_app. cbn. now rewrite app_nil_r.
  - step (RSA_generate_key_fail_run env 2048 65537 m Hrsa).
    cbn [is_null].
    step (warn_library_error_run env (rejected env At_RSA_new m)).
    eexists _, _. split; [reflexivity|].
    rewrite !(queue_at_failure_oldest version env _ m Hver).
    split; [reflexivity|]. split; [reflexivity|]. split; [reflexivity|].
    split; [reflexivity|].
    eexists. apply new_calls_app. reflexivity.
Qed.

Lemma BN_new_run env m :
  succeeds env At_BN_new = true →
  BN_new env m
  = Some (Some (fresh_exponent m), with_bignums <[fresh_exponent m := 0]> m).
Proof. intros H. unfold BN_new. now rewrite H. Qed.

Lemma BN_new_fail_run env m :
  succeeds env At_BN_new = false →
  BN_new env m = Some (NULL, rejected env At_BN_new m).
Proof. intros H. unfold BN_new. now rewrite H. Qed.

Lemma BN_set_word_run env m :
  BN_set_word env (Some (fresh_exponent m)) 65537
    (with_bignums <[fresh_exponent m := 0]> m)
  = Some (if succeeds env At_BN_set_word then 1 else 0, with_exponent env m).
Proof.
  unfold BN_set_word, with_exponent, working_exponent.
  destruct (succeeds env At_BN_set_word).
  - unfold store_bn, bind. cbn. rewrite lookup_insert_eq.
    unfold ret, set_bignums, with_bignums. cbn.
    now rewrite insert_insert_eq.
  - unfold load_bn, raise_error, modify, bind. cbn.
    now rewrite lookup_insert_eq.
Qed.

(** The memory after [BN_new] and [BN_set_word], field by field. *)
Lemma with_exponent_fields version env m :
  OPENSSL_0_9_8 ≤ version →
  bignums (with_exponent env m)
  = <[fresh_exponent m := exponent_given version env]> (bignums m)
  ∧ keys (with_exponent env m) = keys m
  ∧ errq (with_exponent env m) = errq m ++ unchecked_errors version env
  ∧ calls (with_exponent env m) = calls m.
Proof.
  intros Hver%Z.ltb_ge.
  unfold with_exponent, exponent_given, working_exponent, unchecked_errors.
  rewrite Hver.
  replace (OPENSSL_0_9_8 <=? version) with true
    by (symmetry; apply Z.leb_le; now apply Z.ltb_ge).
  destruct (succeeds env At_BN_set_word); cbn; rewrite ?app_nil_r; auto.
Qed.

Lemma generate_outcome_from_0_9_8 version env m :
  OPENSSL_0_9_8 ≤ version →
  ∃ key m',
    crypto_compat_RSA_generate_key version env m = Some (key, m')
    ∧ match generation_failure version env with
      | Some s => failure_outcome version env s m key m'
      | None => success_outcome version env m key m'
      end.
Proof.
  intros Hver.
  unfold crypto_compat_RSA_generate_key, generation_failure, success_outcome,
    failure_outcome, queue_at_failure.
  pose proof Hver as Hver'%Z.ltb_ge. rewrite Hver'.
  replace (OPENSSL_0_9_8 <=? version) with true by (symmetry; apply Z.leb_le; lia).
  cbn [andb].
  destruct (succeeds env At_BN_new) eqn:Hbn; cbn [negb].
  - step (BN_new_run env m Hbn). cbn [is_null].
    step (BN_set_word_run env m).
    destruct (with_exponent_fields version env m Hver)
      as (Hb1 & Hk1 & Hq1 & Hc1).
    set (ev := exponent_given version env) in *.
    set (U := unchecked_errors version env) in *.
    set (m1 := with_exponent env m) in *.
    assert (bignums m1 !! fresh_exponent m = Some ev) as He
      by (rewrite Hb1; apply lookup_insert_eq).
    assert (delete (fresh_exponent m) (bignums m1) = bignums m)
      as Hback by (rewrite Hb1; apply delete_insert_id, fresh_dead).
    destruct (succeeds env At_RSA_new) eqn:Hrsa; cbn [negb].
    + step (RSA_new_run env m1 Hrsa). cbn [is_null].
      destruct (keygen env 2048 ev) as [ok c] eqn:Hgen. cbn [fst snd].
      assert (keys (with_fresh_key m1) !! fresh_key m1 = Some RSA_empty)
        as Hk by apply lookup_insert_eq.
      step (RSA_generate_key_ex_run env (fresh_key m1)
              (fresh_exponent m) ev 2048 ok c (with_fresh_key m1) Hk He Hgen).
      set (ps := fst (alloc_all (values c) (bignums m1))).
      set (h' := snd (alloc_all (values c) (bignums m1))).
      destruct (alloc_all_spec (values c) (bignums m1))
        as (Hall & Hnd & Hout). fold ps h' in Hall, Hnd, Hout.
      assert (Some (fresh_exponent m) ∉ ps) as Hfresh.
      { intros Hin. apply list_elem_of_lookup in Hin as [i Hi].
        destruct (Forall2_lookup_l _ _ _ _ _ Hall Hi) as ([z|] & _ & Ha);
          [|contradiction].
        destruct Ha as [Ha _]. congruence. }
      assert (h' !! fresh_exponent m = Some ev) as He'
        by (now rewrite Hout).
      set (k := fresh_key m1) in *.
      assert (keys m !! k = None) as Hkfresh
        by (unfold k, fresh_key; rewrite Hk1; apply (fresh_dead (keys m))).
      destruct ok; cbn [negb Z.eqb Pos.eqb fst snd].
      * (* the key is generated *)
        assert (releasable (generated env k true c (with_fresh_key m1))
                  (Some (fresh_exponent m))) as Hrel
          by (change (is_Some (h' !! fresh_exponent m)); rewrite He';
              now eexists).
        step (BN_free_run _ _ Hrel).
        set (m' := after_releases true _ _).
        assert (bignums m' = delete (fresh_exponent m) h') as Hb by reflexivity.
        assert (keys m' = <[k := key_of ps]> (<[k := RSA_empty]> (keys m)))
          as Hks by (rewrite <- Hk1; reflexivity).
        assert (calls m' = calls m ++ [Call_BN_free (Some (fresh_exponent m))])
          as Hcs by (rewrite <- Hc1; reflexivity).
        assert (errq m' = errq m ++ U) as Hqs by (rewrite <- Hq1; reflexivity).
        exists (Some k), m'. split; [reflexivity|].
        exists k, (key_of ps).
        rewrite members_key_of by apply alloc_all_length.
        split; [reflexivity|]. split; [reflexivity|]. split; [exact Hkfresh|].
        split; [rewrite Hks; apply insert_insert_eq|].
        rewrite Hb.
        split; [|split; [|split; [exact Hqs|]]].
        -- eapply Forall2_impl; [exact Hall|].
           intros [l|] [z|]; unfold allocated; try tauto. intros [Hl Hz].
           assert (l ≠ fresh_exponent m) as Hne by (intros ->; congruence).
           rewrite Hb1 in Hl.
           rewrite lookup_insert_ne in Hl by congruence.
           split; [assumption|]. rewrite lookup_delete_ne by congruence.
           exact Hz.
        -- intros l Hl.
           destruct (decide (fresh_exponent m = l)) as [<-|Hne].
           ++ rewrite lookup_delete_eq. symmetry. apply fresh_dead.
           ++ rewrite lookup_delete_ne by assumption.
              rewrite (Hout l Hl), Hb1. now apply lookup_insert_ne.
        -- intros msg. rewrite (new_calls_app m m' _ Hcs).
           rewrite elem_of_cons, elem_of_nil. intros [[=]|[]].
      * (* the generation primitive fails *)
        set (m3 := generated env k false c (with_fresh_key m1)).
        step (warn_library_error_run env m3).
        assert (RSA_free (Some k) (warned env m3)
                = Some (tt, with_keys (delete k)
                              (after_releases false (released_with_key (key_of ps))
                                 (with_calls (λ l, l ++ [Call_RSA_free (Some k)])
                                    (warned env m3))))) as Hfree.
        { apply RSA_free_run; [apply lookup_insert_eq|].
          rewrite members_key_of by apply alloc_all_length.
          now apply alloc_all_owned. }
        step Hfree.
        match goal with
        | |- context [bind (BN_free ?a) _ ?m0] =>
            assert (bignums m0 = bignums m1) as Hm0
        end.
        { cbn [bignums with_keys after_releases].
          change (map snd (released_with_key ?r)) with (members r).
          rewrite members_key_of by apply alloc_all_length.
          apply forget_allocated. }
        match goal with
        | |- context [bind (BN_free ?a) _ ?m0] =>
            assert (releasable m0 a) as Hrel
              by (unfold releasable; rewrite Hm0, He; now eexists);
            step (BN_free_run a m0 Hrel)
        end.
        eexists _, _. split; [reflexivity|]. split; [reflexivity|].
        split; [|split; [|split]].
        -- change (bignums (after_releases true [(false, ?a)] ?m0))
             with (forget (bignums m0) a).
           rewrite Hm0. exact Hback.
        -- cbn. rewrite Hk1, insert_insert_eq. apply delete_insert_id.
           exact Hkfresh.
        -- cbn. now rewrite Hq1, <- !app_assoc.
        -- eexists. apply new_calls_app. cbn.
           rewrite Hq1, Hc1, <- !app_assoc. reflexivity.
    + (* the key handle cannot be allocated *)
      step (RSA_new_fail_run env m1 Hrsa). cbn [is_null].
      step (warn_library_error_run env (rejected env At_RSA_new m1)).
      match goal with
      | |- context [bind (BN_free ?a) _ ?m0] =>
          assert (releasable m0 a) as Hrel
            by (unfold releasable;
                change (bignums m0) with (bignums m1);
                rewrite He; now eexists);
          step (BN_free_run a m0 Hrel)
      end.
      eexists _, _. split; [reflexivity|]. split; [reflexivity|].
      split; [exact Hback|]. split; [exact Hk1|].
      split; [cbn; now rewrite Hq1, <- !app_assoc|].
      eexists. apply new_calls_app. cbn.
      rewrite Hq1, Hc1, <- !app_assoc. reflexivity.
  - (* the working exponent cannot be allocated *)
    step (BN_new_fail_run env m Hbn). cbn [is_null].
    step (warn_library_error_run env (rejected env At_BN_new m)).
    eexists _, _. split; [reflexivity|].
    split; [reflexivity|]. split; [reflexivity|]. split; [reflexivity|].
    split; [reflexivity|].
    eexists. apply new_calls_app. reflexivity.
Qed.

Lemma generate_outcome version env m :
  ∃ key m',
    crypto_compat_RSA_generate_key version env m = Some (key, m')
    ∧ match generation_failure version env with
      | Some s => failure_outcome version env s m key m'
      | None => success_outcome version env m key m'
      end.
Proof.
  destruct (Z.lt_ge_cases version OPENSSL_0_9_8) as [H|H].
  - now apply generate_oldest_outcome.
  - now apply generate_outcome_from_0_9_8.
Qed.


(** C7.  When the generation primitive honours the size it is asked for,
    every key handle generation returns passes validation, in either
    generation of the validator, and validation leaves the memory as it
    is. *)
Theorem generated_key_is_valid version checker env m key m' :
  honours_size env →
  crypto_compat_RSA_generate_key version env m = Some (key, m') →
  key ≠ NULL →
  crypto_compat_RSA_valid_size checker key m' = Some (1, m').
Proof.
  intros Hsize Hrun Hkey.
  destruct (generate_outcome version env m) as (key0 & m0 & Hrun0 & Hout).
  rewrite Hrun in Hrun0. injection Hrun0 as <- <-.
  destruct (generation_failure version env) as [s|].
  - now destruct Hout as (-> & _).
  - destruct Hout as (k & r & -> & Hok & _ & Hkeys & Hall & _).
    destruct (keygen env 2048 (exponent_given version env)) as [ok c] eqn:Hgen.
    cbn [fst snd] in *.
    subst ok. destruct (Hsize 2048 _ c ltac:(lia) Hgen) as (vn & Hn & Hbits).
    unfold members, values in Hall. apply Forall2_cons_1 in Hall as [Ha _].
    rewrite Hn in Ha. destruct (rsa_n r) as [ln|] eqn:Hrn; [|contradiction].
    destruct Ha as [_ Hlive].
    rewrite (valid_size_run checker k r ln vn m');
      [|rewrite Hkeys; apply lookup_insert_eq|assumption|assumption].
    now rewrite (num_bits_bytes vn Hbits), Hbits.
Qed.

(** * Instances on concrete memories *)

Example toy_import_accepted :
  toy_import modern (rejecting []) toy_memory = Some (0, toy_imported).
Proof. vm_compute. reflexivity. Qed.

Lemma valid_size_iff_witness :
  ∃ res,
    crypto_compat_RSA_valid_size modern (Some 1%positive) full_size_memory
    = Some (res, full_size_memory)
    ∧ (res ≠ 0 ↔ num_bytes (2 ^ 2047 + 1) = 256 ∧ num_bits (2 ^ 2047 + 1) = 2048)
    ∧ (num_bytes (2 ^ 2047 + 1) ≠ 256 ∨ num_bits (2 ^ 2047 + 1) ≠ 2048 → res = 0).
Proof.
  apply (valid_size_iff modern 1%positive
           (mkRSA (Some 11%positive) (Some 12%positive)
              NULL NULL NULL NULL NULL NULL)
           11%positive (2 ^ 2047 + 1) full_size_memory);
    vm_compute; reflexivity.
Defined.

Lemma valid_size_generations_agree_witness :
  crypto_compat_RSA_valid_size legacy (Some 1%positive) full_size_memory
  = crypto_compat_RSA_valid_size modern (Some 1%positive) full_size_memory.
Proof.
  apply (valid_size_generations_agree legacy modern (Some 1%positive)
           full_size_memory).
  vm_compute. split; [reflexivity|discriminate].
Defined.

Lemma import_field_generation_succeeds_witness :
  ∃ m' r',
    toy_import legacy (rejecting [At_set0_key]) toy_memory = Some (0, m')
    ∧ keys m' = <[1%positive := r']> (keys toy_memory)
    ∧ rsa_n r' = Some 11%positive ∧ rsa_e r' = Some 12%positive
    ∧ (Some 13%positive ≠ None →
       rsa_d r' = Some 13%positive ∧ rsa_p r' = Some 14%positive
       ∧ rsa_q r' = Some 15%positive ∧ rsa_dmp1 r' = Some 16%positive
       ∧ rsa_dmq1 r' = Some 17%positive ∧ rsa_iqmp r' = Some 18%positive)
    ∧ calls m' = calls toy_memory
    ∧ bignums m' = bignums toy_memory
    ∧ residue m' = residue toy_memory
    ∧ errq m' = errq toy_memory.
Proof.
  apply (import_field_generation_succeeds legacy (rejecting [At_set0_key])
           1%positive RSA_empty);
    vm_compute; reflexivity.
Defined.

Lemma export_always_succeeds_witness :
  ∃ m',
    toy_export modern toy_imported = Some (0, m')
    ∧ bignums m' = bignums toy_imported ∧ keys m' = keys toy_imported
    ∧ calls m' = calls toy_imported ∧ errq m' = errq toy_imported.
Proof.
  apply (export_always_succeeds modern 1%positive
           (mkRSA (Some 11%positive) (Some 12%positive)
              (Some 13%positive) (Some 14%positive) (Some 15%positive)
              (Some 16%positive) (Some 17%positive) (Some 18%positive)));
    vm_compute; reflexivity.
Defined.

Lemma import_export_round_trip_witness :
  ∃ m2,
    toy_export modern toy_imported = Some (0, m2)
    ∧ returned toy_memory m2 (Some 21%positive) (Some 11%positive)
    ∧ returned toy_memory m2 (Some 22%positive) (Some 12%positive)
    ∧ (Some 13%positive ≠ None → Some 23%positive ≠ None →
       returned toy_memory m2 (Some 23%positive) (Some 13%positive)
       ∧ returned toy_memory m2 (Some 24%positive) (Some 14%positive)
       ∧ returned toy_memory m2 (Some 25%positive) (Some 15%positive)
       ∧ returned toy_memory m2 (Some 26%positive) (Some 16%positive)
       ∧ returned toy_memory m2 (Some 27%positive) (Some 17%positive)
       ∧ returned toy_memory m2 (Some 28%positive) (Some 18%positive)).
Proof.
  apply (import_export_round_trip modern (rejecting []) 1%positive RSA_empty
           (Some 11%positive) (Some 12%positive) (Some 13%positive)
           (Some 14%positive) (Some 15%positive) (Some 16%positive)
           (Some 17%positive) (Some 18%positive) toy_memory toy_imported).
  - vm_compute. reflexivity.
  - intros _. exact toy_owned.
  - exact toy_import_accepted.
  - vm_compute. reflexivity.
  - apply (bool_decide_unpack _). vm_compute. exact I.
Defined.

Lemma import_failure_releases_pending_witness :
  ∃ m' released,
    toy_import modern (rejecting [At_set0_factors]) toy_memory = Some (-1, m')
    ∧ calls m' = calls toy_memory ++ released
    ∧ released
      = [Call_BN_clear_free (Some 14%positive);
         Call_BN_clear_free (Some 15%positive);
         Call_BN_clear_free (Some 16%positive);
         Call_BN_clear_free (Some 17%positive);
         Call_BN_clear_free (Some 18%positive)]
    ∧ (∀ l, Some l ∈ [Some 14%positive; Some 15%positive; Some 16%positive;
                      Some 17%positive; Some 18%positive] →
            times_released l released = 1%nat ∧ bignums m' !! l = None)
    ∧ (∀ l, Some l ∈ [Some 11%positive; Some 12%positive; Some 13%positive] →
            times_released l released = 0%nat
            ∧ bignums m' !! l = bignums toy_memory !! l)
    ∧ keys m' !! 1%positive
      = Some (mkRSA (Some 11%positive) (Some 12%positive) (Some 13%positive)
                NULL NULL NULL NULL NULL)
    ∧ (∀ k', k' ≠ 1%positive → keys m' !! k' = keys toy_memory !! k').
Proof.
  apply (import_failure_releases_pending modern (rejecting [At_set0_factors])
           Stage_factors 1%positive RSA_empty
           (Some 11%positive) (Some 12%positive) (Some 13%positive)
           (Some 14%positive) (Some 15%positive) (Some 16%positive)
           (Some 17%positive) (Some 18%positive) toy_memory).
  - vm_compute. discriminate.
  - vm_compute. reflexivity.
  - vm_compute. reflexivity.
  - exact toy_owned.
  - vm_compute. reflexivity.
  - right. discriminate.
Defined.

Lemma import_failure_leaves_no_leak_witness :
  ∃ m' r',
    toy_import modern (rejecting [At_set0_crt_params]) toy_memory
    = Some (-1, m')
    ∧ keys m' !! 1%positive = Some r'
    ∧ ∀ l, Some l ∈ [Some 11%positive; Some 12%positive; Some 13%positive;
                     Some 14%positive; Some 15%positive; Some 16%positive;
                     Some 17%positive; Some 18%positive] →
        (Some l ∈ [Some 11%positive; Some 12%positive; Some 13%positive;
                   Some 14%positive; Some 15%positive]
         ∧ Some l ∈ members r'
         ∧ times_released l (new_calls toy_memory m') = 0%nat
         ∧ bignums m' !! l = bignums toy_memory !! l
         ∧ is_Some (bignums m' !! l))
        ∨ (Some l ∈ [Some 16%positive; Some 17%positive; Some 18%positive]
           ∧ (Some l ∉ members r')
           ∧ times_released l (new_calls toy_memory m') = 1%nat
           ∧ bignums m' !! l = None).
Proof.
  apply (import_failure_leaves_no_leak modern (rejecting [At_set0_crt_params])
           Stage_crt_params 1%positive RSA_empty
           (Some 11%positive) (Some 12%positive) (Some 13%positive)
           (Some 14%positive) (Some 15%positive) (Some 16%positive)
           (Some 17%positive) (Some 18%positive) toy_memory).
  - vm_compute. discriminate.
  - vm_compute. reflexivity.
  - vm_compute. reflexivity.
  - exact toy_owned.
  - vm_compute. reflexivity.
  - right. discriminate.
Defined.

Lemma import_failure_clears_secrets_witness :
  ∃ m',
    toy_import modern (rejecting [At_set0_key]) toy_memory = Some (-1, m')
    ∧ Forall (fitting_release (Some 11%positive) (Some 12%positive)
                (Some 13%positive) (Some 14%positive) (Some 15%positive)
                (Some 16%positive) (Some 17%positive) (Some 18%positive))
        (new_calls toy_memory m')
    ∧ (∀ l, Some l ∈ secret_components (Some 13%positive) (Some 14%positive)
                       (Some 15%positive) (Some 16%positive)
                       (Some 17%positive) (Some 18%positive) →
            (Call_BN_free (Some l) ∉ new_calls toy_memory m')
            ∧ (bignums m' !! l = None →
               Call_BN_clear_free (Some l) ∈ new_calls toy_memory m'))
    ∧ (∀ l, Some l ∈ public_components (Some 11%positive) (Some 12%positive) →
            (Call_BN_clear_free (Some l) ∉ new_calls toy_memory m')
            ∧ (bignums m' !! l = None →
               Call_BN_free (Some l) ∈ new_calls toy_memory m'))
    ∧ (∀ v, v ∈ residue m' →
            v ∈ residue toy_memory
            ∨ Some v ∈ map (value_at toy_memory)
                         [Some 11%positive; Some 12%positive;
                          rsa_n RSA_empty; rsa_e RSA_empty]).
Proof.
  apply (import_failure_clears_secrets modern (rejecting [At_set0_key])
           Stage_key 1%positive RSA_empty
           (Some 11%positive) (Some 12%positive) (Some 13%positive)
           (Some 14%positive) (Some 15%positive) (Some 16%positive)
           (Some 17%positive) (Some 18%positive) toy_memory).
  - vm_compute. discriminate.
  - vm_compute. reflexivity.
  - vm_compute. reflexivity.
  - exact toy_owned.
  - vm_compute. reflexivity.
  - now left.
Defined.

(** A library of the test kind honours the size: it returns the modulus
    [2 ^ (bits - 1)]. *)
Lemma rejecting_honours_size sites : honours_size (rejecting sites).
Proof.
  intros bits e c Hbits [= _ <-]. eexists. split; [reflexivity|].
  unfold num_bits. assert (0 < 2 ^ (bits - 1)) by (apply Z.pow_pos_nonneg; lia).
  destruct (Z.eqb_spec (2 ^ (bits - 1)) 0); [lia|].
  rewrite Z.abs_eq by lia. rewrite Z.log2_pow2 by lia. lia.
Qed.

Lemma generated_key_is_valid_witness :
  ∃ key m',
    crypto_compat_RSA_generate_key modern (rejecting []) empty_memory
    = Some (key, m')
    ∧ key ≠ NULL
    ∧ crypto_compat_RSA_valid_size modern key m' = Some (1, m').
Proof.
  eexists _, _. split; [vm_compute; reflexivity|]. split; [discriminate|].
  apply (generated_key_is_valid modern modern (rejecting []) empty_memory).
  - apply rejecting_honours_size.
  - vm_compute. reflexivity.
  - discriminate.
Defined.

(** ** Runs on the concrete memories *)

(** The small key has a 12-bit modulus: it is not of valid size. *)
Example toy_key_not_valid :
  crypto_compat_RSA_valid_size modern (Some 1%positive) toy_imported
  = Some (0, toy_imported)
  ∧ crypto_compat_RSA_valid_size legacy (Some 1%positive) toy_imported
    = Some (0, toy_imported).
Proof. split; vm_compute; reflexivity. Qed.

(** Validation of an empty key handle stops in both generations. *)
Example empty_key_not_validated :
  crypto_compat_RSA_valid_size modern (Some 1%positive) toy_memory = None
  ∧ crypto_compat_RSA_valid_size legacy (Some 1%positive) toy_memory = None.
Proof. split; vm_compute; reflexivity. Qed.

(** A rejected first transfer: all eight components are released, the
    modulus and the exponent plainly, and their two values stay readable. *)
Example toy_import_rejected_at_key :
  toy_import modern (rejecting [At_set0_key]) toy_memory
  = Some (-1,
          mkMemory ∅ {[ 1%positive := RSA_empty ]} ∅ [] [3233; 17]
            [Call_BN_free (Some 11%positive);
             Call_BN_free (Some 12%positive);
             Call_BN_clear_free (Some 13%positive);
             Call_BN_clear_free (Some 14%positive);
             Call_BN_clear_free (Some 15%positive);
             Call_BN_clear_free (Some 16%positive);
             Call_BN_clear_free (Some 17%positive);
             Call_BN_clear_free (Some 18%positive)]).
Proof. vm_compute. reflexivity. Qed.

(** A partial private group does not pass the sanity checks. *)
Example partial_private_group_stops :
  crypto_compat_RSA_import modern (rejecting []) (Some 1%positive)
    (Some 11%positive) (Some 12%positive) (Some 13%positive)
    NULL (Some 15%positive) (Some 16%positive) (Some 17%positive)
    (Some 18%positive) toy_memory
  = None.
Proof. reflexivity. Qed.

(** A failing generation primitive: nothing stays allocated, the diagnostic
    comes first, then the key and the working exponent are released. *)
Example generation_rejected :
  match crypto_compat_RSA_generate_key modern (rejecting [At_generate])
          empty_memory with
  | Some (key, m') =>
      key = NULL ∧ bignums m' = ∅ ∧ keys m' = ∅ ∧ errq m' = []
      ∧ calls m' = [Call_warn0 "error:library rejected";
                    Call_RSA_free (Some 1%positive);
                    Call_BN_free (Some 1%positive)]
  | None => False
  end.
Proof. vm_compute. repeat split; reflexivity. Qed.

(** * Further properties of the unit *)

(** ** Validation *)

(** X1.  Validation returns 1 exactly when the magnitude of the modulus lies
    between 2^2047 and 2^2048, and 0 otherwise: once the bit length is 2048
    the byte length is 256, so the byte comparison never decides. *)
Theorem valid_size_range version k r ln v m :
  keys m !! k = Some r → rsa_n r = Some ln → bignums m !! ln = Some v →
  ∃ res,
    crypto_compat_RSA_valid_size version (Some k) m = Some (res, m)
    ∧ (res = 1 ↔ 2 ^ 2047 ≤ Z.abs v < 2 ^ 2048)
    ∧ (res = 0 ↔ ¬ (2 ^ 2047 ≤ Z.abs v < 2 ^ 2048))
    ∧ res = of_bool (num_bits v =? 2048).
Proof.
  intros Hk Hn Hv. eexists.
  split; [exact (valid_size_run version k r ln v m Hk Hn Hv)|].
  rewrite <- num_bits_2048.
  destruct (Z.eqb_spec (num_bits v) 2048) as [E|E].
  - rewrite (num_bits_bytes v E). cbn. repeat split; intros; try lia; tauto.
  - rewrite andb_false_r. cbn. repeat split; intros; try lia; tauto.
Qed.

Lemma valid_size_range_witness :
  ∃ res,
    crypto_compat_RSA_valid_size legacy (Some 1%positive) toy_imported
    = Some (res, toy_imported)
    ∧ (res = 1 ↔ 2 ^ 2047 ≤ Z.abs 3233 < 2 ^ 2048)
    ∧ (res = 0 ↔ ¬ (2 ^ 2047 ≤ Z.abs 3233 < 2 ^ 2048))
    ∧ res = of_bool (num_bits 3233 =? 2048).
Proof.
  apply (valid_size_range legacy 1%positive
           (mkRSA (Some 11%positive) (Some 12%positive)
              (Some 13%positive) (Some 14%positive) (Some 15%positive)
              (Some 16%positive) (Some 17%positive) (Some 18%positive))
           11%positive 3233 toy_imported);
    vm_compute; reflexivity.
Defined.

(** X2.  Validation returns exactly on a live handle whose modulus is a live
    [BIGNUM]; on [NULL], on a dead handle, on a handle without modulus it
    stops, in either generation.  No other member is looked at. *)
Theorem valid_size_returns_iff version rsa m :
  crypto_compat_RSA_valid_size version rsa m ≠ None
  ↔ ∃ k r v, rsa = Some k ∧ keys m !! k = Some r
             ∧ value_at m (rsa_n r) = Some v.
Proof.
  split.
  - intros Hret.
    destruct rsa as [k|]; [|now contradiction Hret].
    destruct (keys m !! k) as [r|] eqn:Hk.
    + destruct (value_at m (rsa_n r)) as [v|] eqn:Hv; [now exists k, r, v|].
      contradiction Hret. apply valid_size_undefined.
      intros k' r' ln [= <-] Hk' Hn. rewrite Hk in Hk'. injection Hk' as <-.
      rewrite Hn in Hv. exact Hv.
    + contradiction Hret. apply valid_size_undefined.
      intros k' r' ln [= <-] Hk'. congruence.
  - intros (k & r & v & -> & Hk & Hv).
    destruct (rsa_n r) as [ln|] eqn:Hn; [|discriminate].
    now rewrite (valid_size_run version k r ln v m Hk Hn Hv).
Qed.

(** ** The sanity checks *)

Lemma arguments_not_ok key n e d p q dmp1 dmq1 iqmp :
  key = None ∨ n = None ∨ e = None
  ∨ (d = None ∧ ∃ l, Some l ∈ [p; q; dmp1; dmq1; iqmp])
  ∨ (d ≠ None ∧ None ∈ [p; q; dmp1; dmq1; iqmp]) →
  arguments_ok key n e d p q dmp1 dmq1 iqmp = false.
Proof.
  unfold arguments_ok, grouped.
  intros [->|[->|[->|[[-> [l Hl]]|[Hd Hin]]]]].
  - reflexivity.
  - now destruct key.
  - destruct key, n; reflexivity.
  - rewrite !elem_of_cons, elem_of_nil in Hl.
    destruct key, n, e, p, q, dmp1, dmq1, iqmp; cbn; try reflexivity;
      exfalso; intuition discriminate.
  - rewrite !elem_of_cons, elem_of_nil in Hin.
    destruct key, n, e, d, p, q, dmp1, dmq1, iqmp; cbn; try reflexivity;
      try congruence; exfalso; intuition discriminate.
Qed.

(** X3.  A call with a [NULL] key, modulus or exponent argument, or with a
    private group that is only partly supplied, stops at an assertion in the
    importer and in the exporter, in either generation: it is never taken
    for a public-key call, and nothing is written or released. *)
Theorem partial_arguments_stop
    version env key n e d p q dmp1 dmq1 iqmp m :
  key = None ∨ n = None ∨ e = None
  ∨ (d = None ∧ ∃ l, Some l ∈ [p; q; dmp1; dmq1; iqmp])
  ∨ (d ≠ None ∧ None ∈ [p; q; dmp1; dmq1; iqmp]) →
  crypto_compat_RSA_import version env key n e d p q dmp1 dmq1 iqmp m = None
  ∧ crypto_compat_RSA_export version key n e d p q dmp1 dmq1 iqmp m = None.
Proof.
  intros Hbad%arguments_not_ok.
  pose proof (check_arguments_spec key n e d p q dmp1 dmq1 iqmp m) as Hc.
  rewrite Hbad in Hc.
  split; [unfold crypto_compat_RSA_import|unfold crypto_compat_RSA_export];
    now apply bind_stop.
Qed.

Lemma partial_arguments_stop_witness :
  crypto_compat_RSA_import modern (rejecting []) (Some 1%positive)
    (Some 11%positive) (Some 12%positive) (Some 13%positive)
    NULL (Some 15%positive) (Some 16%positive) (Some 17%positive)
    (Some 18%positive) toy_memory = None
  ∧ crypto_compat_RSA_export modern (Some 1%positive)
      (Some 11%positive) (Some 12%positive) (Some 13%positive)
      NULL (Some 15%positive) (Some 16%positive) (Some 17%positive)
      (Some 18%positive) toy_memory = None.
Proof.
  apply (partial_arguments_stop modern (rejecting [])).
  right. right. right. right. split; [discriminate|].
  apply elem_of_cons. now left.
Defined.

(** ** Teardown and the LibreSSL numbers *)

(** X4.  Under LibreSSL the cleanup does not depend on the OpenSSL number the
    header announces: before 2.7.0 it removes the thread's error state,
    frees the error strings and the ex-data; from 2.7.0 on it frees the
    error strings, runs [EVP_cleanup] and frees the ex-data.
    [ERR_remove_state] is never called. *)
Theorem crypto_compat_free_libressl o v :
  crypto_compat_free (mkBuild o (Some v))
  = if v <? 0x2070000f
    then [ERR_remove_thread_state NULL; ERR_free_strings;
          CRYPTO_cleanup_all_ex_data]
    else [ERR_free_strings; EVP_cleanup; CRYPTO_cleanup_all_ex_data].
Proof.
  unfold crypto_compat_free, OPENSSL_VERSION_NUMBER, NEED_EVP_CLEANUP,
    effective_version. cbn [announced libressl_number].
  destruct (Z.leb_spec 0x2070000f v), (Z.ltb_spec v 0x2070000f);
    try lia; reflexivity.
Qed.

(** X5.  In every build the cleanup is: at most one removal of the error state,
    first; [ERR_free_strings]; [EVP_cleanup] or nothing;
    [CRYPTO_cleanup_all_ex_data], last.  The error state is removed exactly
    in the builds of the struct-field generation, by [ERR_remove_state]
    below 1.0.0 and by [ERR_remove_thread_state] from there on, and
    [EVP_cleanup] runs in builds of the accessor generation only. *)
Theorem crypto_compat_free_shape b :
  ∃ pre mid,
    crypto_compat_free b
    = pre ++ [ERR_free_strings] ++ mid ++ [CRYPTO_cleanup_all_ex_data]
    ∧ (pre = [] ↔ OPENSSL_1_1_0 ≤ OPENSSL_VERSION_NUMBER b)
    ∧ (pre = [ERR_remove_state 0] ↔ OPENSSL_VERSION_NUMBER b < OPENSSL_1_0_0)
    ∧ (pre = [ERR_remove_thread_state NULL]
       ↔ OPENSSL_1_0_0 ≤ OPENSSL_VERSION_NUMBER b < OPENSSL_1_1_0)
    ∧ (mid = [] ∨ mid = [EVP_cleanup])
    ∧ (mid = [EVP_cleanup] → OPENSSL_1_1_0 ≤ OPENSSL_VERSION_NUMBER b).
Proof.
  unfold crypto_compat_free. eexists _, _. split; [reflexivity|].
  assert (NEED_EVP_CLEANUP b = true → OPENSSL_1_1_0 ≤ OPENSSL_VERSION_NUMBER b)
    as Hneed.
  { unfold NEED_EVP_CLEANUP, OPENSSL_VERSION_NUMBER, effective_version.
    destruct (libressl_number b) as [v|]; [|discriminate].
    intros ->. unfold OPENSSL_1_1_0. lia. }
  unfold OPENSSL_1_0_0, OPENSSL_1_1_0 in *.
  destruct (Z.ltb_spec (OPENSSL_VERSION_NUMBER b) 0x10000000),
           (Z.ltb_spec (OPENSSL_VERSION_NUMBER b) 0x10100000),
           (NEED_EVP_CLEANUP b);
    repeat split; intros; try discriminate; try lia; auto;
    try (specialize (Hneed eq_refl); lia).
Qed.

(** X6.  A LibreSSL build before 2.7.0 is of the struct-field generation whatever
    OpenSSL number it announces (LibreSSL announces 2.0): the importer
    assigns the members and returns 0 even if the library would reject a
    transfer, and generation takes the path of 0.9.8 and later. *)
Theorem libressl_before_2_7_assigns
    o v env k r n e d p q dmp1 dmq1 iqmp m :
  v < 0x2070000f →
  keys m !! k = Some r →
  arguments_ok (Some k) n e d p q dmp1 dmq1 iqmp = true →
  OPENSSL_0_9_8 ≤ OPENSSL_VERSION_NUMBER (mkBuild o (Some v)) < OPENSSL_1_1_0
  ∧ crypto_compat_RSA_import (OPENSSL_VERSION_NUMBER (mkBuild o (Some v)))
      env (Some k) n e d p q dmp1 dmq1 iqmp m
    = Some (0, set_key k (imported_key r n e d p q dmp1 dmq1 iqmp) m).
Proof.
  intros Hv Hk Hok.
  assert (OPENSSL_0_9_8 ≤ OPENSSL_VERSION_NUMBER (mkBuild o (Some v))
          < OPENSSL_1_1_0) as Hgen.
  { unfold OPENSSL_VERSION_NUMBER, effective_version, OPENSSL_0_9_8,
      OPENSSL_1_1_0. cbn [announced libressl_number].
    destruct (Z.leb_spec 0x2070000f v); lia. }
  split; [exact Hgen|].
  apply import_field_run; [apply Hgen|assumption|assumption].
Qed.

Lemma libressl_before_2_7_assigns_witness :
  OPENSSL_0_9_8
  ≤ OPENSSL_VERSION_NUMBER (mkBuild 0x20000000 (Some 0x2060000f))
  < OPENSSL_1_1_0
  ∧ toy_import (OPENSSL_VERSION_NUMBER (mkBuild 0x20000000 (Some 0x2060000f)))
      (rejecting [At_set0_key; At_set0_factors; At_set0_crt_params])
      toy_memory
    = Some (0, set_key 1%positive
                 (imported_key RSA_empty
                    (Some 11%positive) (Some 12%positive) (Some 13%positive)
                    (Some 14%positive) (Some 15%positive) (Some 16%positive)
                    (Some 17%positive) (Some 18%positive)) toy_memory).
Proof.
  apply (libressl_before_2_7_assigns 0x20000000 0x2060000f
           (rejecting [At_set0_key; At_set0_factors; At_set0_crt_params])
           1%positive RSA_empty);
    vm_compute; reflexivity.
Defined.

(** ** The importer of the accessor generation *)

Lemma release_calls_only xs c :
  c ∈ map call_of xs → (∀ msg, c ≠ Call_warn0 msg) ∧ (∀ a, c ≠ Call_RSA_free a).
Proof.
  intros ([[] a] & -> & _)%list_elem_of_fmap; cbn; split; intros; discriminate.
Qed.

(** X7.  In the accessor generation the importer returns 0 exactly when the
    library accepts every transfer the import makes (for a public import the
    first one only) and -1 otherwise, never anything else.  It never reports
    a diagnostic, never frees the handle and, whatever it returns, leaves
    the error queue as it found it: a failed import is told by the result
    alone.  On success it makes no release call, the key holds the
    components, which keep their values, and the former members it replaced
    are released. *)
Theorem import_accessor_outcome
    version env k r n e d p q dmp1 dmq1 iqmp m :
  OPENSSL_1_1_0 ≤ version →
  keys m !! k = Some r →
  arguments_ok (Some k) n e d p q dmp1 dmq1 iqmp = true →
  owned m (members r ++ [n; e; d; p; q; dmp1; dmq1; iqmp]) →
  ∃ res m',
    crypto_compat_RSA_import version env (Some k) n e d p q dmp1 dmq1 iqmp m
    = Some (res, m')
    ∧ (res = 0 ∧ accepts env d = true ∨ res = -1 ∧ accepts env d = false)
    ∧ (d = None → accepts env d = succeeds env At_set0_key)
    ∧ (∀ msg, Call_warn0 msg ∉ new_calls m m')
    ∧ (∀ a, Call_RSA_free a ∉ new_calls m m')
    ∧ errq m' = errq m
    ∧ (res = 0 →
       new_calls m m' = []
       ∧ keys m' !! k = Some (imported_key r n e d p q dmp1 dmq1 iqmp)
       ∧ (∀ a, a ∈ [n; e; d; p; q; dmp1; dmq1; iqmp] →
               value_at m' a = value_at m a)
       ∧ (∀ l, Some l ∈ map snd (replaced_by_import r d) →
               bignums m' !! l = None)).
Proof.
  intros Hver Hk Hok Hown.
  assert (d = None → accepts env d = succeeds env At_set0_key) as Hpub.
  { intros ->. unfold accepts. cbn. apply andb_true_r. }
  destruct (accepts env d) eqn:Hacc.
  - pose proof (import_accepted_run version env k r n e d p q dmp1 dmq1 iqmp m
                  Hver Hk Hok Hown Hacc) as Hrun.
    eexists _, _. split; [exact Hrun|].
    assert (new_calls m
              (set_key k (imported_key r n e d p q dmp1 dmq1 iqmp)
                 (after_releases false (replaced_by_import r d) m)) = [])
      as Hnew by (apply new_calls_app; cbn; now rewrite app_nil_r).
    rewrite Hnew.
    split; [now left|]. split; [exact Hpub|].
    split; [intros msg; apply not_elem_of_nil|].
    split; [intros a; apply not_elem_of_nil|].
    split; [reflexivity|].
    intros _. split; [reflexivity|].
    split; [apply keys_set_key|].
    destruct (import_success_inv version env k r n e d p q dmp1 dmq1 iqmp m _
                Hk (λ _, Hown) Hrun) as (_ & _ & Hval).
    split; [exact Hval|].
    intros l Hl. cbn. now rewrite lookup_forget_all, decide_True.
  - destruct (not_accepted_fails env d Hacc) as (st & Hfail & Hst).
    pose proof (import_fails_run version env st k r n e d p q dmp1 dmq1 iqmp m
                  Hver Hk Hok Hown Hfail Hst) as Hrun.
    eexists _, _. split; [exact Hrun|].
    rewrite new_calls_failed_import.
    split; [now right|]. split; [exact Hpub|].
    split; [intros msg Hin; now apply release_calls_only in Hin as [H _];
            apply (H msg)|].
    split; [intros a Hin; now apply release_calls_only in Hin as [_ H];
            apply (H a)|].
    split; [apply errq_failed_import|intros [=]].
Qed.

Lemma import_accessor_outcome_witness :
  ∃ res m',
    toy_import modern (rejecting [At_set0_crt_params]) toy_memory
    = Some (res, m')
    ∧ (res = 0
       ∧ accepts (rejecting [At_set0_crt_params]) (Some 13%positive) = true
       ∨ res = -1
         ∧ accepts (rejecting [At_set0_crt_params]) (Some 13%positive) = false)
    ∧ (Some 13%positive = None →
       accepts (rejecting [At_set0_crt_params]) (Some 13%positive)
       = succeeds (rejecting [At_set0_crt_params]) At_set0_key)
    ∧ (∀ msg, Call_warn0 msg ∉ new_calls toy_memory m')
    ∧ (∀ a, Call_RSA_free a ∉ new_calls toy_memory m')
    ∧ errq m' = errq toy_memory
    ∧ (res = 0 →
       new_calls toy_memory m' = []
       ∧ keys m' !! 1%positive
         = Some (imported_key RSA_empty
                   (Some 11%positive) (Some 12%positive) (Some 13%positive)
                   (Some 14%positive) (Some 15%positive) (Some 16%positive)
                   (Some 17%positive) (Some 18%positive))
       ∧ (∀ a, a ∈ [Some 11%positive; Some 12%positive; Some 13%positive;
                    Some 14%positive; Some 15%positive; Some 16%positive;
                    Some 17%positive; Some 18%positive] →
               value_at m' a = value_at toy_memory a)
       ∧ (∀ l, Some l ∈ map snd (replaced_by_import RSA_empty
                                   (Some 13%positive)) →
               bignums m' !! l = None)).
Proof.
  apply (import_accessor_outcome modern (rejecting [At_set0_crt_params])
           1%positive RSA_empty
           (Some 11%positive) (Some 12%positive) (Some 13%positive)
           (Some 14%positive) (Some 15%positive) (Some 16%positive)
           (Some 17%positive) (Some 18%positive) toy_memory).
  - vm_compute. discriminate.
  - vm_compute. reflexivity.
  - vm_compute. reflexivity.
  - exact toy_owned.
Defined.

(** ** The importer on a new key handle *)

Lemma owned_nulls m ps : Forall (λ a, a = None) ps → owned m ps.
Proof.
  induction 1 as [|a ps -> _ IH]; [apply owned_nil|].
  apply owned_cons. split; [exact I|]. split; [discriminate|exact IH].
Qed.

Lemma after_releases_nulls ps m :
  Forall (λ x, snd x = None) ps → after_releases false ps m = m.
Proof.
  intros Hall. apply memory_eq; cbn; try reflexivity.
  - unfold forget_all. induction Hall as [|[c a] ps Ha _ IH]; [reflexivity|].
    cbn in *. now subst a.
  - rewrite <- (app_nil_r (residue m)) at 2. f_equal.
    induction Hall as [|[c a] ps Ha _ IH]; [reflexivity|].
    cbn in *. subst a. unfold spill. cbn. now destruct c.
  - apply app_nil_r.
Qed.

Lemma owned_null_releases m (xs : list (bool * ptr)) :
  Forall (λ x, snd x = None) xs → owned m (map snd xs).
Proof.
  intros H. apply owned_nulls. now apply Forall_fmap.
Qed.

(** The accessor generation on a key handle without members: when the
    library accepts, the members are set and no [BIGNUM] is released, since
    the key has none to replace. *)
Lemma import_accessor_on_new_key version env k n e d p q dmp1 dmq1 iqmp m :
  OPENSSL_1_1_0 ≤ version →
  keys m !! k = Some RSA_empty →
  arguments_ok (Some k) n e d p q dmp1 dmq1 iqmp = true →
  accepts env d = true →
  crypto_compat_RSA_import version env (Some k) n e d p q dmp1 dmq1 iqmp m
  = Some (0, set_key k (imported_key RSA_empty n e d p q dmp1 dmq1 iqmp) m).
Proof.
  intros Hver Hk Hok Hacc. unfold crypto_compat_RSA_import.
  pose proof (check_arguments_spec (Some k) n e d p q dmp1 dmq1 iqmp m) as Hc.
  rewrite Hok in Hc. step Hc.
  apply Z.ltb_ge in Hver. rewrite Hver.
  apply andb_true_iff in Hacc as [Hs1 Hrest].
  destruct (arguments_ok_inv _ _ _ _ _ _ _ _ _ Hok)
    as (_ & [ln ->] & [le ->]
        & [(-> & -> & -> & -> & -> & ->)
          |(ld & lp & lq & l1 & l2 & l3 & -> & -> & -> & -> & -> & ->)]);
    cbn [is_null orb] in *.
  - assert (Forall (λ x : bool * ptr, snd x = None)
              (replaced_by_key RSA_empty None)) as H1
      by (repeat constructor).
    step (RSA_set0_key_run env k RSA_empty ln le None m Hk Hs1
            (owned_null_releases m _ H1)).
    now rewrite (after_releases_nulls _ m H1).
  - apply andb_true_iff in Hrest as [Hs2 Hs3].
    assert (Forall (λ x : bool * ptr, snd x = None)
              (replaced_by_key RSA_empty (Some ld))) as H1
      by (repeat constructor).
    step (RSA_set0_key_run env k RSA_empty ln le (Some ld) m Hk Hs1
            (owned_null_releases m _ H1)).
    rewrite (after_releases_nulls _ m H1).
    cbn [Z.eqb Pos.eqb negb].
    set (r1 := key_after_set0_key RSA_empty (Some ln) (Some le) (Some ld)).
    assert (Forall (λ x : bool * ptr, snd x = None) (replaced_by_factors r1))
      as H2 by (repeat constructor).
    step (RSA_set0_factors_run env k r1 lp lq (set_key k r1 m)
            (keys_set_key k r1 m) Hs2 (owned_null_releases _ _ H2)).
    rewrite (after_releases_nulls _ _ H2).
    rewrite set_key_twice. cbn [Z.eqb Pos.eqb negb].
    set (r2 := key_after_set0_factors r1 (Some lp) (Some lq)).
    assert (Forall (λ x : bool * ptr, snd x = None)
              (replaced_by_crt_params r2)) as H3 by (repeat constructor).
    step (RSA_set0_crt_params_run env k r2 l1 l2 l3 (set_key k r2 m)
            (keys_set_key k r2 m) Hs3 (owned_null_releases _ _ H3)).
    rewrite (after_releases_nulls _ _ H3).
    now rewrite set_key_twice.
Qed.

(** X8.  On a key handle without members, as [RSA_new] gives it, and with
    private components that are live, the two generations of the importer
    agree whenever the library accepts the transfers: both return 0, the key
    has the same members, every [BIGNUM] has the value it had, and neither
    makes a call of its own or touches the error queue.  For a public import
    the two leave the same memory: the setter stores the modulus and the
    exponent as the assignments do.  For a private import the agreement is
    on the members and the values: what else a setter does to the private
    components it stores is not part of a [BIGNUM]'s value. *)
Theorem import_generations_agree_on_new_key
    legacy modern env k n e d p q dmp1 dmq1 iqmp m :
  legacy < OPENSSL_1_1_0 ≤ modern →
  keys m !! k = Some RSA_empty →
  arguments_ok (Some k) n e d p q dmp1 dmq1 iqmp = true →
  Forall (releasable m) [d; p; q; dmp1; dmq1; iqmp] →
  accepts env d = true →
  ∃ ml mm,
    crypto_compat_RSA_import legacy env (Some k) n e d p q dmp1 dmq1 iqmp m
    = Some (0, ml)
    ∧ crypto_compat_RSA_import modern env (Some k) n e d p q dmp1 dmq1 iqmp m
      = Some (0, mm)
    ∧ keys ml = <[k := imported_key RSA_empty n e d p q dmp1 dmq1 iqmp]> (keys m)
    ∧ keys mm = keys ml
    ∧ bignums ml = bignums m ∧ bignums mm = bignums m
    ∧ calls ml = calls m ∧ calls mm = calls m
    ∧ errq ml = errq m ∧ errq mm = errq m
    ∧ (d = NULL → ml = mm).
Proof.
  intros [Hl Hm] Hk Hok _ Hacc.
  eexists _, _.
  split; [exact (import_field_run legacy env k RSA_empty n e d p q dmp1 dmq1
                   iqmp m Hl Hk Hok)|].
  split; [exact (import_accessor_on_new_key modern env k n e d p q dmp1 dmq1
                   iqmp m Hm Hk Hok Hacc)|].
  repeat split.
Qed.

(** ** The importer and the caller's release of the key *)

Lemma owned_perm m ps qs : ps ≡ₚ qs → owned m ps → owned m qs.
Proof. intros H [Hnd Hall]. split; now rewrite <- H. Qed.

(** After a rejected transfer every former member and every component is
    replaced, a member of the key or pending, and only one of these. *)
Lemma failed_import_partition st r n e d p q dmp1 dmq1 iqmp :
  st = Stage_key ∨ d ≠ None →
  members r ++ [n; e; d; p; q; dmp1; dmq1; iqmp]
  ≡ₚ map snd (replaced_before st r d)
     ++ members (committed st r n e d p q)
     ++ map snd (pending st n e d p q dmp1 dmq1 iqmp).
Proof.
  intros Hst. unfold members.
  destruct st, d as [ld|]; try (destruct Hst as [|]; congruence);
    cbn; solve_Permutation.
Qed.

Lemma imported_partition r n e d p q dmp1 dmq1 iqmp :
  grouped d p q dmp1 dmq1 iqmp = true →
  ∃ nulls,
    Forall (λ a : ptr, a = None) nulls
    ∧ members r ++ [n; e; d; p; q; dmp1; dmq1; iqmp]
      ≡ₚ map snd (replaced_by_import r d)
         ++ members (imported_key r n e d p q dmp1 dmq1 iqmp)
         ++ nulls.
Proof.
  unfold members, grouped. destruct d as [ld|]; cbn.
  - intros _. exists []. split; [constructor|]. solve_Permutation.
  - destruct p, q, dmp1, dmq1, iqmp; try discriminate. intros _.
    exists [None; None; None; None; None; None].
    split; [repeat constructor|]. solve_Permutation.
Qed.

(** [RSA_free] on a key whose members were owned before the replaced and
    the pending pointers were released. *)
Lemma RSA_free_after m m1 k rk R P :
  owned m (R ++ members rk ++ P) →
  bignums m1 = forget_all P (forget_all R (bignums m)) →
  keys m1 !! k = Some rk →
  ∃ m2,
    RSA_free (Some k) m1 = Some (tt, m2)
    ∧ keys m2 = delete k (keys m1)
    ∧ ∀ l, bignums m2 !! l
           = if decide (Some l ∈ R ++ members rk ++ P) then None
             else bignums m !! l.
Proof.
  intros Hown Hb Hk.
  apply owned_app in Hown as (_ & Hkp & Hdis1).
  pose proof Hkp as (Hmem & _ & Hdis2)%owned_app.
  assert (owned m1 (members rk)) as Hown1.
  { destruct Hmem as [Hnd Hall]. split; [assumption|].
    rewrite Forall_forall in *. intros [l|] Hl; cbn; [|trivial].
    rewrite Hb, !lookup_forget_all.
    rewrite decide_False by now apply Hdis2.
    rewrite decide_False.
    - now apply (Hall (Some l)).
    - intros Hin. apply (Hdis1 l Hin). apply elem_of_app. now left. }
  eexists. split; [exact (RSA_free_run k rk m1 Hk Hown1)|].
  split; [reflexivity|].
  intros l.
  change (bignums (with_keys (delete k) ?m0)) with (bignums m0).
  change (bignums (after_releases false (released_with_key rk) ?m0))
    with (forget_all (members rk) (bignums m0)).
  change (bignums (with_calls ?f m1)) with (bignums m1).
  rewrite Hb, !lookup_forget_all.
  repeat case_decide; try reflexivity; exfalso;
    rewrite !elem_of_app in *; tauto.
Qed.

(** X9.  In the accessor generation, whatever the importer returns, the caller's
    [RSA_free] of the handle is then defined, so that nothing is released
    twice, and it leaves none of the components and none of the former
    members of the key allocated; the handle is gone and no other [BIGNUM]
    or handle has changed. *)
Theorem import_then_free_leaves_nothing
    version env k r n e d p q dmp1 dmq1 iqmp m :
  OPENSSL_1_1_0 ≤ version →
  keys m !! k = Some r →
  arguments_ok (Some k) n e d p q dmp1 dmq1 iqmp = true →
  owned m (members r ++ [n; e; d; p; q; dmp1; dmq1; iqmp]) →
  ∃ res m1 m2,
    crypto_compat_RSA_import version env (Some k) n e d p q dmp1 dmq1 iqmp m
    = Some (res, m1)
    ∧ RSA_free (Some k) m1 = Some (tt, m2)
    ∧ keys m2 = delete k (keys m)
    ∧ (∀ l, Some l ∈ members r ++ [n; e; d; p; q; dmp1; dmq1; iqmp] →
            bignums m2 !! l = None)
    ∧ (∀ l, Some l ∉ members r ++ [n; e; d; p; q; dmp1; dmq1; iqmp] →
            bignums m2 !! l = bignums m !! l).
Proof.
  intros Hver Hk Hok Hown.
  destruct (accepts env d) eqn:Hacc.
  - pose proof (import_accepted_run version env k r n e d p q dmp1 dmq1 iqmp m
                  Hver Hk Hok Hown Hacc) as Hrun.
    assert (grouped d p q dmp1 dmq1 iqmp = true) as Hgr
      by (unfold arguments_ok in Hok; now apply andb_true_iff in Hok as [_ ?]).
    destruct (imported_partition r n e d p q dmp1 dmq1 iqmp Hgr)
      as (nulls & Hnulls & Hperm).
    set (rk := imported_key r n e d p q dmp1 dmq1 iqmp) in *.
    set (m1 := set_key k rk (after_releases false (replaced_by_import r d) m))
      in *.
    assert (owned m (map snd (replaced_by_import r d) ++ members rk ++ []))
      as Hown'.
    { apply (owned_perm m _ _ Hperm) in Hown.
      rewrite app_assoc in Hown. apply owned_app in Hown as (Hown & _).
      rewrite app_nil_r. exact Hown. }
    destruct (RSA_free_after m m1 k rk _ [] Hown' eq_refl (keys_set_key k rk _))
      as (m2 & Hfree & Hkeys & Hb).
    exists 0, m1, m2. split; [exact Hrun|]. split; [exact Hfree|].
    split; [rewrite Hkeys; cbn; apply delete_insert_eq|].
    assert (∀ l, Some l ∈ members r ++ [n; e; d; p; q; dmp1; dmq1; iqmp]
                 ↔ Some l ∈ map snd (replaced_by_import r d) ++ members rk ++ [])
      as Hmem.
    { intros l. rewrite Hperm, app_nil_r, !elem_of_app. split; [|tauto].
      intros [H|[H|H]]; [tauto|tauto|].
      rewrite Forall_forall in Hnulls. now specialize (Hnulls _ H). }
    split; intros l Hl; rewrite Hb.
    + now rewrite decide_True by now apply Hmem.
    + now rewrite decide_False by now rewrite <- Hmem.
  - destruct (not_accepted_fails env d Hacc) as (st & Hfail & Hst).
    pose proof (import_fails_run version env st k r n e d p q dmp1 dmq1 iqmp m
                  Hver Hk Hok Hown Hfail Hst) as Hrun.
    pose proof (failed_import_partition st r n e d p q dmp1 dmq1 iqmp Hst)
      as Hperm.
    set (rk := committed st r n e d p q) in *.
    set (m1 := failed_import st k r n e d p q dmp1 dmq1 iqmp m) in *.
    destruct (RSA_free_after m m1 k rk _ _ (owned_perm m _ _ Hperm Hown)
                eq_refl (lookup_insert_eq _ _ _))
      as (m2 & Hfree & Hkeys & Hb).
    exists (-1), m1, m2. split; [exact Hrun|]. split; [exact Hfree|].
    split; [rewrite Hkeys; cbn; apply delete_insert_eq|].
    split; intros l Hl; rewrite Hb.
    + now rewrite decide_True by now rewrite <- Hperm.
    + now rewrite decide_False by now rewrite <- Hperm.
Qed.

(** X10.  On a key handle that already has members the generations part: both
    store the components, but the struct-field generation leaves the former
    modulus allocated and out of reach of the key, where the accessor
    generation has it released. *)
Theorem import_onto_populated_key
    legacy modern env k r l0 n e d p q dmp1 dmq1 iqmp m :
  legacy < OPENSSL_1_1_0 ≤ modern →
  keys m !! k = Some r →
  rsa_n r = Some l0 →
  arguments_ok (Some k) n e d p q dmp1 dmq1 iqmp = true →
  owned m (members r ++ [n; e; d; p; q; dmp1; dmq1; iqmp]) →
  accepts env d = true →
  ∃ ml mm,
    crypto_compat_RSA_import legacy env (Some k) n e d p q dmp1 dmq1 iqmp m
    = Some (0, ml)
    ∧ crypto_compat_RSA_import modern env (Some k) n e d p q dmp1 dmq1 iqmp m
      = Some (0, mm)
    ∧ keys ml = keys mm
    ∧ (Some l0 ∉ members (imported_key r n e d p q dmp1 dmq1 iqmp))
    ∧ bignums ml !! l0 = bignums m !! l0
    ∧ is_Some (bignums ml !! l0)
    ∧ bignums mm !! l0 = None.
Proof.
  intros [Hl Hm] Hk Hn Hok Hown Hacc.
  eexists _, _.
  split; [exact (import_field_run legacy env k r n e d p q dmp1 dmq1 iqmp m
                   Hl Hk Hok)|].
  split; [exact (import_accepted_run modern env k r n e d p q dmp1 dmq1 iqmp m
                   Hm Hk Hok Hown Hacc)|].
  split; [reflexivity|].
  pose proof Hown as (Hmem & _ & Hdis)%owned_app.
  assert (Some l0 ∈ members r) as Hin
    by (unfold members; rewrite <- Hn; apply elem_of_cons; now left).
  split; [|split; [reflexivity|split]].
  - unfold imported_key, members.
    assert (Some l0 ∉ [n; e; d; p; q; dmp1; dmq1; iqmp]) as Hnew
      by now apply Hdis.
    apply owned_cons in Hmem as (_ & Hfirst & _). rewrite Hn in Hfirst.
    specialize (Hfirst l0 eq_refl).
    destruct d; cbn; rewrite !not_elem_of_cons in *; tauto.
  - destruct Hmem as [_ Hlive]. rewrite Forall_forall in Hlive.
    exact (Hlive (Some l0) Hin).
  - cbn. rewrite lookup_forget_all, decide_True; [reflexivity|].
    unfold replaced_by_import, replaced_by_key. rewrite Hn.
    destruct (non_null d); cbn; apply elem_of_cons; now left.
Qed.

(** ** Import, then validation *)

Lemma valid_size_by_bits version k r ln v m :
  keys m !! k = Some r → rsa_n r = Some ln → bignums m !! ln = Some v →
  crypto_compat_RSA_valid_size version (Some k) m
  = Some (of_bool (num_bits v =? 2048), m).
Proof.
  intros Hk Hn Hv. rewrite (valid_size_run version k r ln v m Hk Hn Hv).
  destruct (Z.eqb_spec (num_bits v) 2048) as [E|E].
  - now rewrite (num_bits_bytes v E).
  - now rewrite andb_false_r.
Qed.

(** X11.  A key imported with success validates exactly when the modulus that
    was imported has 2048 bits: the other components, the former content of
    the key and the generation of the importer and of the validator play no
    part. *)
Theorem imported_key_valid_iff
    version checker env k r n e d p q dmp1 dmq1 iqmp m m1 vn :
  keys m !! k = Some r →
  (OPENSSL_1_1_0 ≤ version →
   owned m (members r ++ [n; e; d; p; q; dmp1; dmq1; iqmp])) →
  crypto_compat_RSA_import version env (Some k) n e d p q dmp1 dmq1 iqmp m
  = Some (0, m1) →
  value_at m n = Some vn →
  crypto_compat_RSA_valid_size checker (Some k) m1
  = Some (of_bool (num_bits vn =? 2048), m1).
Proof.
  intros Hk Hown Himp Hvn.
  destruct (import_success_inv _ _ _ _ _ _ _ _ _ _ _ _ _ _ Hk Hown Himp)
    as (Hk1 & _ & Hval).
  destruct n as [ln|]; [|discriminate].
  apply (valid_size_by_bits checker k _ ln vn m1 Hk1).
  - unfold imported_key. now destruct d.
  - specialize (Hval (Some ln) ltac:(apply elem_of_cons; now left)).
    cbn in Hval. now rewrite Hval.
Qed.

Lemma imported_key_valid_iff_witness :
  crypto_compat_RSA_valid_size legacy (Some 1%positive) toy_imported
  = Some (of_bool (num_bits 3233 =? 2048), toy_imported).
Proof.
  apply (imported_key_valid_iff modern legacy (rejecting []) 1%positive
           RSA_empty
           (Some 11%positive) (Some 12%positive) (Some 13%positive)
           (Some 14%positive) (Some 15%positive) (Some 16%positive)
           (Some 17%positive) (Some 18%positive) toy_memory toy_imported 3233).
  - vm_compute. reflexivity.
  - intros _. exact toy_owned.
  - exact toy_import_accepted.
  - vm_compute. reflexivity.
Defined.

(** ** The exporter *)

Lemma export_slots_hold k r n e d p q dmp1 dmq1 iqmp m c a :
  arguments_ok (Some k) n e d p q dmp1 dmq1 iqmp = true →
  NoDup (omap id [n; e; d; p; q; dmp1; dmq1; iqmp]) →
  (Some c, a) ∈ export_writes r n e d p q dmp1 dmq1 iqmp →
  cell_at (with_cells (write_all (export_writes r n e d p q dmp1 dmq1 iqmp)) m)
    (Some c) = Some a.
Proof.
  intros Hok Hnd Hin. unfold cell_at, with_cells. cbn [cells].
  apply write_all_lookup; [|exact Hin].
  clear -Hok Hnd. unfold export_writes.
  destruct (arguments_ok_inv _ _ _ _ _ _ _ _ _ Hok)
    as (_ & [cn ->] & [ce ->]
        & [(-> & -> & -> & -> & -> & ->)
          |(cd & cp & cq & c1 & c2 & c3 & -> & -> & -> & -> & -> & ->)]);
    exact Hnd.
Qed.

(** X12.  The exporter returns 0 and writes, through each slot supplied, the
    member of the key as it is, [NULL] included: it does not ask that the
    key be private when the private slots are supplied.  It writes no other
    variable, and the key and the [BIGNUM]s are as before, so what the
    slots hold is borrowed from the key. *)
Theorem export_writes_the_members
    version k r n e d p q dmp1 dmq1 iqmp m :
  keys m !! k = Some r →
  arguments_ok (Some k) n e d p q dmp1 dmq1 iqmp = true →
  NoDup (omap id [n; e; d; p; q; dmp1; dmq1; iqmp]) →
  ∃ m',
    crypto_compat_RSA_export version (Some k) n e d p q dmp1 dmq1 iqmp m
    = Some (0, m')
    ∧ cell_at m' n = Some (rsa_n r)
    ∧ cell_at m' e = Some (rsa_e r)
    ∧ (d ≠ None →
       cell_at m' d = Some (rsa_d r) ∧ cell_at m' p = Some (rsa_p r)
       ∧ cell_at m' q = Some (rsa_q r) ∧ cell_at m' dmp1 = Some (rsa_dmp1 r)
       ∧ cell_at m' dmq1 = Some (rsa_dmq1 r)
       ∧ cell_at m' iqmp = Some (rsa_iqmp r))
    ∧ (∀ c, Some c ∉ [n; e; d; p; q; dmp1; dmq1; iqmp] →
            cells m' !! c = cells m !! c)
    ∧ keys m' = keys m ∧ bignums m' = bignums m ∧ calls m' = calls m.
Proof.
  intros Hk Hok Hnd.
  exists (with_cells (write_all (export_writes r n e d p q dmp1 dmq1 iqmp)) m).
  split; [exact (export_run version k r _ _ _ _ _ _ _ _ m Hk Hok)|].
  pose proof (export_slots_hold k r n e d p q dmp1 dmq1 iqmp m) as Hhold.
  pose proof Hok as Hok1.
  destruct (arguments_ok_inv _ _ _ _ _ _ _ _ _ Hok)
    as (_ & [cn ->] & [ce ->] & Hpriv).
  split; [|split; [|split; [|split]]].
  - apply (Hhold cn _ Hok1 Hnd).
    unfold export_writes. rewrite elem_of_app, !elem_of_cons. tauto.
  - apply (Hhold ce _ Hok1 Hnd).
    unfold export_writes. rewrite elem_of_app, !elem_of_cons. tauto.
  - intros Hd.
    destruct Hpriv as [(-> & _)|(cd & cp & cq & c1 & c2 & c3
                                 & -> & -> & -> & -> & -> & ->)];
      [congruence|].
    repeat split; apply (Hhold _ _ Hok1 Hnd);
      unfold export_writes; cbn; rewrite !elem_of_cons; tauto.
  - intros c Hc. cbn [cells with_cells]. apply write_all_other.
    intros Hin. apply Hc. unfold export_writes in Hin.
    destruct (non_null d); cbn in Hin;
      rewrite !elem_of_cons, ?elem_of_nil in *; tauto.
  - repeat split.
Qed.

Lemma export_dead_key version k n e d p q dmp1 dmq1 iqmp m :
  keys m !! k = None →
  crypto_compat_RSA_export version (Some k) n e d p q dmp1 dmq1 iqmp m = None.
Proof.
  intros Hk. unfold crypto_compat_RSA_export.
  unfold bind at 1. rewrite check_arguments_spec.
  destruct (arguments_ok _ _ _ _ _ _ _ _ _); [|reflexivity].
  destruct (version <? OPENSSL_1_1_0), (is_null d);
    unfold get_member, RSA_get0_key, bind, load_key; now rewrite Hk.
Qed.

(** X13.  The two generations of the exporter are the same function of the
    arguments and the memory: the same result, the same writes, and the same
    calls on which they are undefined (a failed assertion, a key that has
    been released). *)
Theorem export_generations_agree
    legacy modern key n e d p q dmp1 dmq1 iqmp m :
  crypto_compat_RSA_export legacy key n e d p q dmp1 dmq1 iqmp m
  = crypto_compat_RSA_export modern key n e d p q dmp1 dmq1 iqmp m.
Proof.
  destruct (arguments_ok key n e d p q dmp1 dmq1 iqmp) eqn:Hok.
  - destruct (arguments_ok_inv _ _ _ _ _ _ _ _ _ Hok) as ([k ->] & _).
    destruct (keys m !! k) as [r|] eqn:Hk.
    + now rewrite !(export_run _ k r _ _ _ _ _ _ _ _ m Hk Hok).
    + now rewrite !export_dead_key.
  - unfold crypto_compat_RSA_export, bind.
    now rewrite check_arguments_spec, Hok.
Qed.

(** ** Instances of the further properties *)

Lemma renewal_owned :
  owned renewal_memory
    (members (mkRSA (Some 11%positive) (Some 12%positive)
                NULL NULL NULL NULL NULL NULL)
     ++ [Some 31%positive; Some 32%positive; NULL; NULL; NULL; NULL; NULL;
         NULL]).
Proof.
  split.
  - cbn. apply (bool_decide_unpack _). vm_compute. exact I.
  - repeat (apply Forall_cons; split; [cbn; try exact I; eexists; reflexivity|]).
    apply Forall_nil_2.
Qed.

Lemma import_generations_agree_on_new_key_witness :
  ∃ ml mm,
    toy_import legacy (rejecting []) toy_memory = Some (0, ml)
    ∧ toy_import modern (rejecting []) toy_memory = Some (0, mm)
    ∧ keys ml
      = <[1%positive :=
            imported_key RSA_empty
              (Some 11%positive) (Some 12%positive) (Some 13%positive)
              (Some 14%positive) (Some 15%positive) (Some 16%positive)
              (Some 17%positive) (Some 18%positive)]> (keys toy_memory)
    ∧ keys mm = keys ml
    ∧ bignums ml = bignums toy_memory ∧ bignums mm = bignums toy_memory
    ∧ calls ml = calls toy_memory ∧ calls mm = calls toy_memory
    ∧ errq ml = errq toy_memory ∧ errq mm = errq toy_memory
    ∧ (Some 13%positive = NULL → ml = mm).
Proof.
  apply (import_generations_agree_on_new_key legacy modern (rejecting [])
           1%positive
           (Some 11%positive) (Some 12%positive) (Some 13%positive)
           (Some 14%positive) (Some 15%positive) (Some 16%positive)
           (Some 17%positive) (Some 18%positive) toy_memory).
  - vm_compute. split; [reflexivity|discriminate].
  - vm_compute. reflexivity.
  - vm_compute. reflexivity.
  - repeat (apply Forall_cons; split; [eexists; reflexivity|]).
    apply Forall_nil_2.
  - vm_compute. reflexivity.
Defined.

Lemma import_then_free_leaves_nothing_witness :
  ∃ res m1 m2,
    toy_import modern (rejecting [At_set0_factors]) toy_memory = Some (res, m1)
    ∧ RSA_free (Some 1%positive) m1 = Some (tt, m2)
    ∧ keys m2 = delete 1%positive (keys toy_memory)
    ∧ (∀ l, Some l ∈ members RSA_empty
                     ++ [Some 11%positive; Some 12%positive; Some 13%positive;
                         Some 14%positive; Some 15%positive; Some 16%positive;
                         Some 17%positive; Some 18%positive] →
            bignums m2 !! l = None)
    ∧ (∀ l, Some l ∉ members RSA_empty
                     ++ [Some 11%positive; Some 12%positive; Some 13%positive;
                         Some 14%positive; Some 15%positive; Some 16%positive;
                         Some 17%positive; Some 18%positive] →
            bignums m2 !! l = bignums toy_memory !! l).
Proof.
  apply (import_then_free_leaves_nothing modern (rejecting [At_set0_factors])
           1%positive RSA_empty
           (Some 11%positive) (Some 12%positive) (Some 13%positive)
           (Some 14%positive) (Some 15%positive) (Some 16%positive)
           (Some 17%positive) (Some 18%positive) toy_memory).
  - vm_compute. discriminate.
  - vm_compute. reflexivity.
  - vm_compute. reflexivity.
  - exact toy_owned.
Defined.

Lemma import_onto_populated_key_witness :
  ∃ ml mm,
    crypto_compat_RSA_import legacy (rejecting []) (Some 1%positive)
      (Some 31%positive) (Some 32%positive) NULL NULL NULL NULL NULL NULL
      renewal_memory = Some (0, ml)
    ∧ crypto_compat_RSA_import modern (rejecting []) (Some 1%positive)
        (Some 31%positive) (Some 32%positive) NULL NULL NULL NULL NULL NULL
        renewal_memory = Some (0, mm)
    ∧ keys ml = keys mm
    ∧ (Some 11%positive
       ∉ members (imported_key
                    (mkRSA (Some 11%positive) (Some 12%positive)
                       NULL NULL NULL NULL NULL NULL)
                    (Some 31%positive) (Some 32%positive)
                    NULL NULL NULL NULL NULL NULL))
    ∧ bignums ml !! 11%positive = bignums renewal_memory !! 11%positive
    ∧ is_Some (bignums ml !! 11%positive)
    ∧ bignums mm !! 11%positive = None.
Proof.
  apply (import_onto_populated_key legacy modern (rejecting []) 1%positive
           (mkRSA (Some 11%positive) (Some 12%positive)
              NULL NULL NULL NULL NULL NULL) 11%positive
           (Some 31%positive) (Some 32%positive) NULL NULL NULL NULL NULL NULL
           renewal_memory).
  - vm_compute. split; [reflexivity|discriminate].
  - vm_compute. reflexivity.
  - reflexivity.
  - vm_compute. reflexivity.
  - exact renewal_owned.
  - vm_compute. reflexivity.
Defined.

Lemma export_writes_the_members_witness :
  ∃ m',
    toy_export legacy toy_imported = Some (0, m')
    ∧ cell_at m' (Some 21%positive) = Some (Some 11%positive)
    ∧ cell_at m' (Some 22%positive) = Some (Some 12%positive)
    ∧ (Some 23%positive ≠ None →
       cell_at m' (Some 23%positive) = Some (Some 13%positive)
       ∧ cell_at m' (Some 24%positive) = Some (Some 14%positive)
       ∧ cell_at m' (Some 25%positive) = Some (Some 15%positive)
       ∧ cell_at m' (Some 26%positive) = Some (Some 16%positive)
       ∧ cell_at m' (Some 27%positive) = Some (Some 17%positive)
       ∧ cell_at m' (Some 28%positive) = Some (Some 18%positive))
    ∧ (∀ c, Some c ∉ [Some 21%positive; Some 22%positive; Some 23%positive;
                      Some 24%positive; Some 25%positive; Some 26%positive;
                      Some 27%positive; Some 28%positive] →
            cells m' !! c = cells toy_imported !! c)
    ∧ keys m' = keys toy_imported ∧ bignums m' = bignums toy_imported
    ∧ calls m' = calls toy_imported.
Proof.
  apply (export_writes_the_members legacy 1%positive
           (mkRSA (Some 11%positive) (Some 12%positive)
              (Some 13%positive) (Some 14%positive) (Some 15%positive)
              (Some 16%positive) (Some 17%positive) (Some 18%positive))
           (Some 21%positive) (Some 22%positive) (Some 23%positive)
           (Some 24%positive) (Some 25%positive) (Some 26%positive)
           (Some 27%positive) (Some 28%positive) toy_imported).
  - vm_compute. reflexivity.
  - vm_compute. reflexivity.
  - apply (bool_decide_unpack _). vm_compute. exact I.
Defined.

(** ** Generation and the caller's release of the key *)

(** The run of a generation that succeeds: the members of the new key are
    live and pairwise distinct, and without them the store is the one
    before. *)
Lemma generate_success_run version env m :
  generation_failure version env = None →
  ∃ k r m',
    crypto_compat_RSA_generate_key version env m = Some (Some k, m')
    ∧ keys m !! k = None
    ∧ keys m' = <[k := r]> (keys m)
    ∧ owned m' (members r)
    ∧ forget_all (members r) (bignums m') = bignums m
    ∧ errq m' = errq m ++ unchecked_errors version env.
Proof.
  unfold generation_failure, crypto_compat_RSA_generate_key.
  destruct (keygen env 2048 (exponent_given version env)) as [ok c] eqn:Hgen.
  cbn [fst].
  destruct (Z.lt_ge_cases version OPENSSL_0_9_8) as [Hver|Hver].
  - pose proof Hver as Hver'%Z.ltb_lt. rewrite Hver'.
    unfold exponent_given, unchecked_errors in *. rewrite Hver' in Hgen.
    replace (OPENSSL_0_9_8 <=? version) with false
      by (symmetry; apply Z.leb_gt; lia).
    cbn [andb].
    destruct (succeeds env At_RSA_new) eqn:Hrsa; cbn [negb]; [|discriminate].
    destruct ok; cbn [negb]; [intros _|discriminate].
    step (RSA_generate_key_run env 2048 65537 true c m Hrsa Hgen).
    cbn [is_null].
    exists (fresh_key m), (key_of (fst (alloc_all (values c) (bignums m)))).
    eexists. split; [reflexivity|].
    rewrite members_key_of by apply alloc_all_length.
    split; [apply fresh_dead|].
    split; [cbn; apply insert_insert_eq|].
    split; [now apply alloc_all_owned|].
    split; [apply forget_allocated|symmetry; apply app_nil_r].
  - pose proof Hver as Hver'%Z.ltb_ge. rewrite Hver'.
    replace (OPENSSL_0_9_8 <=? version) with true
      by (symmetry; apply Z.leb_le; lia).
    cbn [andb].
    destruct (succeeds env At_BN_new) eqn:Hbn; cbn [negb]; [|discriminate].
    destruct (succeeds env At_RSA_new) eqn:Hrsa; cbn [negb]; [|discriminate].
    destruct ok; cbn [negb]; [intros _|discriminate].
    step (BN_new_run env m Hbn). cbn [is_null].
    step (BN_set_word_run env m).
    destruct (with_exponent_fields version env m Hver)
      as (Hb1 & Hk1 & Hq1 & Hc1).
    set (ev := exponent_given version env) in *.
    set (m1 := with_exponent env m) in *.
    assert (bignums m1 !! fresh_exponent m = Some ev) as He
      by (rewrite Hb1; apply lookup_insert_eq).
    step (RSA_new_run env m1 Hrsa). cbn [is_null].
    assert (keys (with_fresh_key m1) !! fresh_key m1 = Some RSA_empty)
      as Hk by apply lookup_insert_eq.
    step (RSA_generate_key_ex_run env (fresh_key m1)
            (fresh_exponent m) ev 2048 true c (with_fresh_key m1) Hk He Hgen).
    set (ps := fst (alloc_all (values c) (bignums m1))).
    set (h' := snd (alloc_all (values c) (bignums m1))).
    destruct (alloc_all_spec (values c) (bignums m1))
      as (Hall & Hnd & Hout). fold ps h' in Hall, Hnd, Hout.
    assert (∀ l, Some l ∈ ps →
                 l ≠ fresh_exponent m ∧ bignums m !! l = None
                 ∧ is_Some (h' !! l)) as Hnew.
    { intros l Hin. apply list_elem_of_lookup in Hin as [i Hi].
      destruct (Forall2_lookup_l _ _ _ _ _ Hall Hi) as ([z|] & _ & Ha);
        [|contradiction].
      destruct Ha as [Hl Hz].
      assert (l ≠ fresh_exponent m) as Hne by (intros ->; congruence).
      split; [assumption|]. split; [|exact (mk_is_Some _ _ Hz)].
      rewrite Hb1 in Hl.
      now rewrite lookup_insert_ne in Hl by congruence. }
    assert (h' !! fresh_exponent m = Some ev) as He'.
    { rewrite Hout; [exact He|]. intros Hin.
      now destruct (Hnew _ Hin) as [Hne _]. }
    set (k := fresh_key m1) in *.
    cbn [negb Z.eqb Pos.eqb].
    assert (releasable (generated env k true c (with_fresh_key m1))
              (Some (fresh_exponent m))) as Hrel
      by (change (is_Some (h' !! fresh_exponent m)); rewrite He';
          now eexists).
    step (BN_free_run _ _ Hrel).
    set (m' := after_releases true _ _).
    assert (bignums m' = delete (fresh_exponent m) h') as Hb by reflexivity.
    assert (keys m' = <[k := key_of ps]> (<[k := RSA_empty]> (keys m)))
      as Hks by (rewrite <- Hk1; reflexivity).
    assert (errq m' = errq m ++ unchecked_errors version env) as Hq
      by (rewrite <- Hq1; reflexivity).
    exists k, (key_of ps), m'. split; [reflexivity|].
    rewrite members_key_of by apply alloc_all_length.
    split; [unfold k, fresh_key; rewrite Hk1; apply (fresh_dead (keys m))|].
    split; [rewrite Hks; apply insert_insert_eq|].
    split; [|split; [|exact Hq]].
    + split; [exact Hnd|]. rewrite Forall_forall.
      intros [l|] Hin; [|exact I].
      destruct (Hnew _ Hin) as (Hne & _ & Hlive).
      unfold releasable. rewrite Hb. now rewrite lookup_delete_ne by congruence.
    + apply map_eq. intros l. rewrite lookup_forget_all, Hb.
      case_decide as Hin.
      * now destruct (Hnew _ Hin) as (_ & -> & _).
      * destruct (decide (fresh_exponent m = l)) as [<-|Hne].
        -- rewrite lookup_delete_eq. symmetry. apply fresh_dead.
        -- rewrite lookup_delete_ne by assumption.
           rewrite (Hout l Hin), Hb1. now apply lookup_insert_ne.
Qed.

(** X14.  When generation does not fail, it returns a key that the caller
    can release with [RSA_free], in any generation of the unit, and the live
    [BIGNUM]s and the key handles are then exactly those before the
    generation: the key owns its eight members one by one, and generation
    keeps nothing else.  The error queue is the one before the generation
    too when no library call failed; a [BN_set_word] that failed, which
    generation does not notice, has left its error there. *)
Theorem generate_then_free_restores version env m :
  generation_failure version env = None →
  ∃ k m' m2,
    crypto_compat_RSA_generate_key version env m = Some (Some k, m')
    ∧ RSA_free (Some k) m' = Some (tt, m2)
    ∧ bignums m2 = bignums m ∧ keys m2 = keys m
    ∧ errq m2 = errq m ++ unchecked_errors version env
    ∧ (succeeds env At_BN_set_word = true → errq m2 = errq m)
    ∧ new_calls m' m2 = [Call_RSA_free (Some k)].
Proof.
  intros Hfail.
  destruct (generate_success_run version env m Hfail)
    as (k & r & m1 & Hrun1 & Hfresh & Hks & Hown & Hback & Hq).
  assert (keys m1 !! k = Some r) as Hk
    by (rewrite Hks; apply lookup_insert_eq).
  exists k, m1. eexists. split; [exact Hrun1|].
  split; [exact (RSA_free_run k r m1 Hk Hown)|].
  split; [exact Hback|]. split; [|split; [exact Hq|split]].
  - cbn. rewrite Hks. now apply delete_insert_id.
  - intros Hsw. cbn. rewrite Hq. unfold unchecked_errors. rewrite Hsw.
    rewrite andb_false_r. apply app_nil_r.
  - apply new_calls_app. cbn. now rewrite app_nil_r.
Qed.

Lemma generate_then_free_restores_witness :
  ∃ k m' m2,
    crypto_compat_RSA_generate_key modern (rejecting []) toy_imported
    = Some (Some k, m')
    ∧ RSA_free (Some k) m' = Some (tt, m2)
    ∧ bignums m2 = bignums toy_imported ∧ keys m2 = keys toy_imported
    ∧ errq m2 = errq toy_imported ++ unchecked_errors modern (rejecting [])
    ∧ (succeeds (rejecting []) At_BN_set_word = true →
       errq m2 = errq toy_imported)
    ∧ new_calls m' m2 = [Call_RSA_free (Some k)].
Proof.
  apply (generate_then_free_restores modern (rejecting []) toy_imported).
  vm_compute. reflexivity.
Defined.

(** ** Every run of the generator *)

(** X15.  Generation always returns.  The primitive is asked for 2048 bits
    and given the exponent 65537 in builds before 0.9.8 and whenever
    [BN_set_word] succeeded.  Generation fails exactly when the allocation of
    the working exponent, the allocation of the key handle or the primitive
    fails; it then returns [NULL], leaves the live [BIGNUM]s and key handles
    exactly as they were (the working exponent and the partly built key are
    released) and first reports the text the library gives for the earliest
    queued error.  Otherwise it returns a new handle whose members hold what
    the primitive drew, reports nothing, and nothing else is left
    allocated. *)
Theorem generate_returns_and_cleans_up version env m :
  ∃ key m',
    crypto_compat_RSA_generate_key version env m = Some (key, m')
    ∧ (key = NULL ↔ generation_failure version env ≠ None)
    ∧ (version < OPENSSL_0_9_8 ∨ succeeds env At_BN_set_word = true →
       exponent_given version env = 65537)
    ∧ match generation_failure version env with
      | Some s => failure_outcome version env s m key m'
      | None => success_outcome version env m key m'
      end.
Proof.
  destruct (generate_outcome version env m) as (key & m' & Hrun & Hout).
  exists key, m'. split; [exact Hrun|]. split; [|split; [|exact Hout]].
  - destruct (generation_failure version env) as [s|].
    + destruct Hout as (-> & _). split; [discriminate|reflexivity].
    + destruct Hout as (k & r & -> & _). split; [discriminate|congruence].
  - unfold exponent_given, working_exponent.
    intros [Hver%Z.ltb_lt | Hsw]; [now rewrite Hver|].
    rewrite Hsw. now destruct (version <? OPENSSL_0_9_8).
Qed.
